(** * flight-hacker-api: the Amadeus search pipeline of [src/index.js]

    A shallow embedding of the search normalisation and ranking pipeline
    (token acquisition, ISO duration parsing, offer-to-option mapping and the
    three-way local sort) and of the routes that serve it, together with the
    properties its specification states about it and further properties the
    code has.

    [src/index.js] holds two revisions of the server.  The later one (the
    one with the [// helpers] and [// core search] comments, which checks
    the upstream error payload and ranks locally) is embedded at top level;
    the earlier one, which asks the upstream for a [sort] order and neither
    checks errors nor ranks, is embedded in [Module Earlier].

    JavaScript numbers are IEEE binary64 values: they are modelled by Rocq's
    primitive [float], so [NaN], the infinities and rounding behave as they
    do in the program. *)

From Stdlib Require Import ZArith List String Ascii Bool Lia.
From Stdlib Require Import Floats DecimalString.
From Stdlib Require Uint63.
From Stdlib Require Import Permutation Sorted.
Import ListNotations.

Local Open Scope Z_scope.

#[local] Set Warnings "-register-all".

(* ================================================================== *)
(** * Part I.  The JavaScript the program relies on                     *)
(* ================================================================== *)

(** ** Thrown errors and the result of an evaluation *)

(** What can be thrown while the pipeline runs: the engine's own errors,
    the errors of the HTTP client [ky], and the [new Error(msg)] the source
    throws itself.  [FetchFailed] stands for a request that got no response
    (the rejection of [fetch], or [ky]'s timeout); it is kept apart from the
    [TypeError] of a property read. *)
Inductive JSError : Type :=
| TypeError
| RangeError
| SyntaxError
| HTTPError (status : Z)
| FetchFailed
| Error (message : string).

Inductive result (A : Type) : Type :=
| Ok (a : A)
| Threw (e : JSError).

Arguments Ok {A} a.
Arguments Threw {A} e.

Definition bind {A B : Type} (r : result A) (k : A -> result B) : result B :=
  match r with
  | Ok a => k a
  | Threw e => Threw e
  end.

Notation "'let*' x ':=' r 'in' k" := (bind r (fun x => k))
  (at level 10, x name, r at level 100, k at level 200).

(** [arr.map(f)] where [f] may throw: elements are visited in index order and
    the first exception aborts the whole map. *)
Fixpoint mapM {A B : Type} (f : A -> result B) (l : list A) : result (list B) :=
  match l with
  | [] => Ok []
  | a :: l' =>
      let* b := f a in
      let* bs := mapM f l' in
      Ok (b :: bs)
  end.

(** [arr.map((x, idx) => f(idx, x))], indices counted from [i]. *)
Fixpoint mapM_idx {A B : Type} (f : nat -> A -> result B) (i : nat) (l : list A)
  : result (list B) :=
  match l with
  | [] => Ok []
  | a :: l' =>
      let* b := f i a in
      let* bs := mapM_idx f (S i) l' in
      Ok (b :: bs)
  end.

(** ** Values *)

(** The values the pipeline handles: what [JSON.parse] produces, plus
    [undefined] (an absent property) and the native methods a property read
    can return on a string or an array.  An object is the list of its own
    properties in enumeration order, each key once; like an array, it holds
    what [JSON.parse] put there, never a function. *)
Inductive JSValue : Type :=
| JUndefined
| JNull
| JBool (b : bool)
| JNum (x : float)
| JStr (s : string)
| JArr (items : list JSValue)
| JObj (fields : list (string * JSValue))
| JFun (name : string).

(** ** Strings *)

Definition dquote : ascii := "034"%char.
Definition backslash : ascii := "092"%char.

Definition is_digit (c : ascii) : bool :=
  let n := nat_of_ascii c in (48 <=? n)%nat && (n <=? 57)%nat.

Definition digit_value (c : ascii) : Z := Z.of_nat (nat_of_ascii c) - 48.

(** The longest prefix of ASCII digits, and what follows it. *)
Fixpoint span_digits (s : string) : string * string :=
  match s with
  | String c s' =>
      if is_digit c then let (ds, rest) := span_digits s' in (String c ds, rest)
      else (EmptyString, s)
  | EmptyString => (EmptyString, EmptyString)
  end.

(** The integer a string of decimal digits denotes. *)
Fixpoint decimal_value_from (acc : Z) (s : string) : Z :=
  match s with
  | String c s' => decimal_value_from (10 * acc + digit_value c) s'
  | EmptyString => acc
  end.

Definition decimal_value (s : string) : Z := decimal_value_from 0 s.

Definition string_of_N (n : N) : string := NilEmpty.string_of_uint (N.to_uint n).

Fixpoint repeat_char (c : ascii) (n : nat) : string :=
  match n with
  | O => EmptyString
  | S n' => String c (repeat_char c n')
  end.

(** [parts.join(sep)] on strings. *)
Fixpoint join (sep : string) (parts : list string) : string :=
  match parts with
  | [] => EmptyString
  | [p] => p
  | p :: rest => (p ++ sep ++ join sep rest)%string
  end.

(** [s.startsWith(p)], returning what follows the prefix. *)
Fixpoint strip_prefix (p s : string) : option string :=
  match p, s with
  | EmptyString, _ => Some s
  | String a p', String b s' => if Ascii.eqb a b then strip_prefix p' s' else None
  | String _ _, EmptyString => None
  end.

(** [length] of a string counts UTF-16 code units; strings are held here as
    UTF-8 bytes, where every byte that is not a continuation byte starts a
    character and a four-byte character takes two code units. *)
Fixpoint utf16_length (s : string) : Z :=
  match s with
  | EmptyString => 0
  | String c s' =>
      let n := nat_of_ascii c in
      (if (n <? 128)%nat then 1
       else if (n <? 192)%nat then 0
       else if (n <? 240)%nat then 1
       else 2) + utf16_length s'
  end.

(** ** Numbers *)

(** The binary64 value nearest to an integer (ties to even): what
    [parseInt] and a numeric literal yield for an integer. *)
Definition SF64_of_Z (n : Z) : spec_float := binary_normalize prec emax n 0 false.

(** The binary64 value nearest to [m * 10^e10], for [0 <= m]. *)
Definition SF64_of_decimal (m e10 : Z) : spec_float :=
  match m with
  | Zpos _ =>
      if 0 <=? e10 then SF64_of_Z (m * 10 ^ e10)
      else
        let '(q, e', l) := SFdiv_core_binary prec emax m 0 (10 ^ (- e10)) 0 in
        binary_round_aux prec emax false q e' l
  | _ => S754_zero false
  end.

Definition float_of_Z (n : Z) : float := SF2Prim (SF64_of_Z n).

Definition float_of_decimal (neg : bool) (m e10 : Z) : float :=
  let x := SF2Prim (SF64_of_decimal m e10) in
  if neg then (- x)%float else x.

Definition SF_eqb (x y : spec_float) : bool :=
  match x, y with
  | S754_zero a, S754_zero b => Bool.eqb a b
  | S754_infinity a, S754_infinity b => Bool.eqb a b
  | S754_nan, S754_nan => true
  | S754_finite a m e, S754_finite b m' e' =>
      Bool.eqb a b && Pos.eqb m m' && Z.eqb e e'
  | _, _ => false
  end.

(** Number of decimal digits of a positive integer. *)
Definition ndigits10 (z : Z) : Z :=
  Z.of_nat (String.length (string_of_N (Z.to_N z))).

(** [z] without its trailing decimal zeros. *)
Fixpoint strip_zeros (fuel : nat) (z : Z) : Z :=
  match fuel with
  | O => z
  | S fuel' => if (0 <? z) && (z mod 10 =? 0) then strip_zeros fuel' (z / 10) else z
  end.

Section ShortestDecimal.
(** The finite positive number [num / den], which is the binary64 value
    [target]. *)
Variables (num den : Z) (target : spec_float).

(** [n] with [10^(n-1) <= num/den < 10^n]. *)
Definition decimal_exponent : Z :=
  if den <=? num then ndigits10 (num / den)
  else 1 - ndigits10 ((den - 1) / num).

Definition floor_scaled (E : Z) : Z :=
  if 0 <=? E then num / (den * 10 ^ E) else (num * 10 ^ (- E)) / den.

(** Is [num/den] at most half-way between [s * 10^E] and [(s+1) * 10^E]? *)
Definition nearer_low (s E : Z) : bool :=
  let twice := 2 * s + 1 in
  if 0 <=? E then
    match 2 * num ?= twice * 10 ^ E * den with
    | Lt => true | Gt => false | Eq => Z.even s
    end
  else
    match 2 * num * 10 ^ (- E) ?= twice * den with
    | Lt => true | Gt => false | Eq => Z.even s
    end.

Definition reads_back (s E : Z) : bool :=
  (0 <? s) && SF_eqb (SF64_of_decimal s E) target.

(** The shortest significand [s] (tried with [k], [k+1], ... digits) such
    that [s * 10^E] reads back as [target]; among two of the same length,
    the nearer one. *)
Fixpoint shortest_from (fuel : nat) (k : Z) : Z * Z :=
  let E := decimal_exponent - k in
  let lo := floor_scaled E in
  match fuel with
  | O => (lo, E)
  | S fuel' =>
      match reads_back lo E, reads_back (lo + 1) E with
      | true, true => if nearer_low lo E then (lo, E) else (lo + 1, E)
      | true, false => (lo, E)
      | false, true => (lo + 1, E)
      | false, false => shortest_from fuel' (k + 1)
      end
  end.

Definition shortest_decimal : Z * Z := shortest_from 17 1.
End ShortestDecimal.

(** [Number::toString(x)] for a finite [x > 0] given as [m * 2^e]: the
    digits [s], their number [k] and the position [n] of the decimal point
    are those of the shortest decimal that reads back as [x]. *)
Definition positive_to_string (m : positive) (e : Z) : string :=
  let num := if 0 <=? e then Zpos m * 2 ^ e else Zpos m in
  let den := if 0 <=? e then 1 else 2 ^ (- e) in
  let '(s0, E) := shortest_decimal num den (S754_finite false m e) in
  let n := ndigits10 s0 + E in
  let s := strip_zeros 400 s0 in
  let digits := string_of_N (Z.to_N s) in
  let k := Z.of_nat (String.length digits) in
  if (k <=? n) && (n <=? 21) then
    (digits ++ repeat_char "0" (Z.to_nat (n - k)))%string
  else if (0 <? n) && (n <=? 21) then
    (substring 0 (Z.to_nat n) digits ++ "." ++
     substring (Z.to_nat n) (Z.to_nat (k - n)) digits)%string
  else if (-6 <? n) && (n <=? 0) then
    ("0." ++ repeat_char "0" (Z.to_nat (- n)) ++ digits)%string
  else
    let ex := n - 1 in
    let mant :=
      if k =? 1 then digits
      else (substring 0 1 digits ++ "." ++ substring 1 (Z.to_nat (k - 1)) digits)%string in
    (mant ++ "e" ++ (if (ex <? 0)%Z then "-" else "+") ++ string_of_N (Z.to_N (Z.abs ex)))%string.

(** [Number::toString(x)] (radix 10). *)
Definition number_to_string (x : float) : string :=
  match Prim2SF x with
  | S754_nan => "NaN"
  | S754_zero _ => "0"
  | S754_infinity false => "Infinity"
  | S754_infinity true => "-Infinity"
  | S754_finite false m e => positive_to_string m e
  | S754_finite true m e => String "-" (positive_to_string m e)
  end.

(** [parseInt(s, 10)] on a non-empty string of decimal digits: the number
    nearest to the integer written. *)
Definition parseInt_digits (s : string) : float := float_of_Z (decimal_value s).

(** White space that [parseFloat] skips: the ASCII blanks and line
    terminators, and the UTF-8 encodings of U+00A0, U+1680, U+2000..U+200A,
    U+2028, U+2029, U+202F, U+205F, U+3000 and U+FEFF. *)
Fixpoint skip_whitespace (fuel : nat) (s : string) : string :=
  match fuel with
  | O => s
  | S fuel' =>
      match s with
      | String c s1 =>
          let n := nat_of_ascii c in
          if ((9 <=? n) && (n <=? 13))%nat || (n =? 32)%nat then skip_whitespace fuel' s1
          else
            match s1 with
            | String c1 s2 =>
                let n1 := nat_of_ascii c1 in
                if (n =? 194)%nat && (n1 =? 160)%nat then skip_whitespace fuel' s2
                else
                  match s2 with
                  | String c2 s3 =>
                      let n2 := nat_of_ascii c2 in
                      if ((n =? 225) && (n1 =? 154) && (n2 =? 128))%nat
                         || ((n =? 226) && (n1 =? 128)
                             && (((128 <=? n2) && (n2 <=? 138))
                                 || (n2 =? 168) || (n2 =? 169) || (n2 =? 175)))%nat
                         || ((n =? 226) && (n1 =? 129) && (n2 =? 159))%nat
                         || ((n =? 227) && (n1 =? 128) && (n2 =? 128))%nat
                         || ((n =? 239) && (n1 =? 187) && (n2 =? 191))%nat
                      then skip_whitespace fuel' s3
                      else s
                  | EmptyString => s
                  end
            | EmptyString => s
            end
      | EmptyString => s
      end
  end.

(** An optional sign: is it [-], and what follows it. *)
Definition take_sign (s : string) : bool * string :=
  match s with
  | String "-" s' => (true, s')
  | String "+" s' => (false, s')
  | _ => (false, s)
  end.

(** The exponent part [e0], [e+0] or [e-0] of a decimal literal, when there
    is one at the start of [s]; [0] otherwise. *)
Definition exponent_part (s : string) : Z :=
  match s with
  | String c s' =>
      if Ascii.eqb c "e" || Ascii.eqb c "E" then
        let (neg, s1) := take_sign s' in
        match fst (span_digits s1) with
        | EmptyString => 0
        | ds => if neg then - decimal_value ds else decimal_value ds
        end
      else 0
  | EmptyString => 0
  end.

(** [parseFloat] on a string: the value of the longest prefix, after leading
    white space, that is a decimal literal ([Infinity] included); [NaN] when
    there is none. *)
Definition parseFloat_string (s : string) : float :=
  let (neg, s1) := take_sign (skip_whitespace (String.length s) s) in
  match strip_prefix "Infinity" s1 with
  | Some _ => if neg then neg_infinity else infinity
  | None =>
      let (ip, r1) := span_digits s1 in
      let (fp, r2) :=
        match r1 with
        | String "." r => span_digits r
        | _ => (EmptyString, r1)
        end in
      match (ip ++ fp)%string with
      | EmptyString => nan
      | ds =>
          float_of_decimal neg (decimal_value ds)
            (exponent_part r2 - Z.of_nat (String.length fp))
      end
  end.

(** ** Conversions and operators on values *)

(** [ToBoolean]. *)
Definition truthy (v : JSValue) : bool :=
  match v with
  | JUndefined | JNull => false
  | JBool b => b
  | JNum x => negb (is_zero x || is_nan x)
  | JStr s => negb (String.eqb s EmptyString)
  | JArr _ | JObj _ | JFun _ => true
  end.

(** Whether an object has an own property [k]. *)
Definition has_own (k : string) (fields : list (string * JSValue)) : bool :=
  existsb (fun kv => String.eqb (fst kv) k) fields.

(** Whether the conversion of a value to a primitive throws.  The
    conversion calls the value's [toString] method and its [valueOf].  An
    own property [toString] of an object hides [Object.prototype.toString],
    and in an object that [JSON.parse] made it is not callable;
    [Object.prototype.valueOf] returns the object itself, not a primitive:
    the conversion ends in a [TypeError].  The [toString] of an array joins
    its elements, converting each one that is not [undefined] or [null]. *)
Fixpoint ToPrimitive_throws (v : JSValue) : bool :=
  match v with
  | JObj fields => has_own "toString" fields
  | JArr items => existsb ToPrimitive_throws items
  | _ => false
  end.

(** The text of a value whose conversion does not throw. *)
Fixpoint text_of (v : JSValue) : string :=
  match v with
  | JUndefined => "undefined"
  | JNull => "null"
  | JBool true => "true"
  | JBool false => "false"
  | JNum x => number_to_string x
  | JStr s => s
  | JArr items =>
      join ","
        ((fix elems (l : list JSValue) : list string :=
            match l with
            | [] => []
            | JUndefined :: l' | JNull :: l' => EmptyString :: elems l'
            | x :: l' => text_of x :: elems l'
            end) items)
  | JObj _ => "[object Object]"
  | JFun name => ("function " ++ name ++ "() { [native code] }")%string
  end.

(** [ToString]: what [String(v)], a template literal, [join],
    [parseFloat] and [URLSearchParams] apply to a value. *)
Definition ToString (v : JSValue) : result string :=
  if ToPrimitive_throws v then Threw TypeError else Ok (text_of v).

(** [ToPrimitive]: what [new Date(v)] applies to its argument. *)
Definition ToPrimitive (v : JSValue) : result JSValue :=
  match v with
  | JArr _ | JObj _ | JFun _ => let* s := ToString v in Ok (JStr s)
  | _ => Ok v
  end.

(** [items.join(sep)]: the texts of the items, [undefined] and [null]
    counting as the empty text. *)
Definition array_join (sep : string) (items : list JSValue) : result string :=
  let* parts :=
    mapM (fun x => match x with
                   | JUndefined | JNull => Ok EmptyString
                   | _ => ToString x
                   end) items in
  Ok (join sep parts).

Definition hex_digit (n : nat) : ascii :=
  ascii_of_nat (if (n <? 10)%nat then 48 + n else 87 + n).

(** [QuoteJSONString], without the enclosing quotes. *)
Fixpoint json_escape (s : string) : string :=
  match s with
  | EmptyString => EmptyString
  | String c s' =>
      let n := nat_of_ascii c in
      let rest := json_escape s' in
      if (n =? 8)%nat then String backslash (String "b" rest)
      else if (n =? 9)%nat then String backslash (String "t" rest)
      else if (n =? 10)%nat then String backslash (String "n" rest)
      else if (n =? 12)%nat then String backslash (String "f" rest)
      else if (n =? 13)%nat then String backslash (String "r" rest)
      else if (n =? 34)%nat then String backslash (String dquote rest)
      else if (n =? 92)%nat then String backslash (String backslash rest)
      else if (n <? 32)%nat then
        String backslash
          (String "u" (String "0" (String "0"
             (String (hex_digit (n / 16)) (String (hex_digit (n mod 16)) rest)))))
      else String c rest
  end.

Definition json_quote (s : string) : string :=
  String dquote (json_escape s ++ String dquote EmptyString).

(** [JSON.stringify(v)]; [None] is the [undefined] it returns for
    [undefined] and for a function. *)
Fixpoint JSON_stringify (v : JSValue) : option string :=
  match v with
  | JUndefined | JFun _ => None
  | JNull => Some "null"%string
  | JBool true => Some "true"%string
  | JBool false => Some "false"%string
  | JNum x => Some (if is_finite x then number_to_string x else "null"%string)
  | JStr s => Some (json_quote s)
  | JArr items =>
      Some ("[" ++ join ","
              ((fix elems (l : list JSValue) : list string :=
                  match l with
                  | [] => []
                  | x :: l' =>
                      match JSON_stringify x with
                      | Some t => t
                      | None => "null"%string
                      end :: elems l'
                  end) items) ++ "]")%string
  | JObj fields =>
      Some ("{" ++ join ","
              ((fix props (l : list (string * JSValue)) : list string :=
                  match l with
                  | [] => []
                  | (k, x) :: l' =>
                      match JSON_stringify x with
                      | Some t => (json_quote k ++ ":" ++ t)%string :: props l'
                      | None => props l'
                      end
                  end) fields) ++ "}")%string
  end.

Fixpoint lookup (k : string) (fields : list (string * JSValue)) : JSValue :=
  match fields with
  | [] => JUndefined
  | (k', v) :: rest => if String.eqb k k' then v else lookup k rest
  end.

(** The first character of a string (its first UTF-8 sequence). *)
Definition first_char (s : string) : string :=
  match s with
  | EmptyString => EmptyString
  | String c s' =>
      String c
        ((fix cont (t : string) : string :=
            match t with
            | String d t' =>
                let n := nat_of_ascii d in
                if ((128 <=? n) && (n <? 192))%nat then String d (cont t')
                else EmptyString
            | EmptyString => EmptyString
            end) s')
  end.

(** The property read [v.k], for the property names the program reads
    ([from], [to], [start], [end], [pax], [optimize], [access_token],
    [errors], [length], [detail], [title], [data], [itineraries],
    [segments], [departure], [arrival], [iataCode], [at], [carrierCode],
    [number], [duration], [id], [price], [total], [currency]).  Reading a
    property of [undefined] or [null] throws; a primitive and an array have
    only what their prototype gives them: of these names, [length] and the
    native method [at]. *)
Definition get (v : JSValue) (k : string) : result JSValue :=
  match v with
  | JUndefined | JNull => Threw TypeError
  | JObj fields => Ok (lookup k fields)
  | JArr items =>
      if String.eqb k "length" then Ok (JNum (float_of_Z (Z.of_nat (List.length items))))
      else if String.eqb k "at" then Ok (JFun "at")
      else Ok JUndefined
  | JStr s =>
      if String.eqb k "length" then Ok (JNum (float_of_Z (utf16_length s)))
      else if String.eqb k "at" then Ok (JFun "at")
      else Ok JUndefined
  | JBool _ | JNum _ | JFun _ => Ok JUndefined
  end.

(** The indexed read [v[0]]. *)
Definition get0 (v : JSValue) : result JSValue :=
  match v with
  | JUndefined | JNull => Threw TypeError
  | JArr items => Ok (hd JUndefined items)
  | JObj fields => Ok (lookup "0" fields)
  | JStr EmptyString => Ok JUndefined
  | JStr s => Ok (JStr (first_char s))
  | JBool _ | JNum _ | JFun _ => Ok JUndefined
  end.

(** The receiver of [v.map(...)]: only an array has the method, calling
    [undefined] throws. *)
Definition as_array_for_map (v : JSValue) : result (list JSValue) :=
  match v with
  | JArr items => Ok items
  | _ => Threw TypeError
  end.

(** [Math.min(x, y)] and [Math.max(x, y)]: [NaN] if either is, and [-0] is
    below [+0]. *)
Definition Math_min2 (x y : float) : float :=
  if is_nan x || is_nan y then nan
  else if (x <? y)%float then x
  else if (y <? x)%float then y
  else if get_sign x then x else y.

Definition Math_max2 (x y : float) : float :=
  if is_nan x || is_nan y then nan
  else if (x <? y)%float then y
  else if (y <? x)%float then x
  else if get_sign x then y else x.

(** [Math.min(...xs)] and [Math.max(...xs)]. *)
Definition Math_min (xs : list float) : float := fold_left Math_min2 xs infinity.
Definition Math_max (xs : list float) : float := fold_left Math_max2 xs neg_infinity.

(** ** [Array.prototype.sort] with a comparison function *)

Section ArraySort.
Context {A : Type}.
(** [comparefn(a, b)], a number: negative when [a] sorts first, positive
    when [b] does; [NaN] counts as [+0]. *)
Variable comparefn : A -> A -> float.

(** [x], which stood before every element of the sorted [l], goes before
    the first element it does not sort after. *)
Fixpoint sort_insert (x : A) (l : list A) : list A :=
  match l with
  | [] => [x]
  | y :: l' =>
      if (0 <? comparefn x y)%float then y :: sort_insert x l' else x :: l
  end.

(** The sort is stable.  When [comparefn] is a consistent comparator (the
    comparators of the ranking are, on numbers none of which is [NaN]) this
    is the order every stable sort produces, the engine's among them.  When
    [comparefn] is not consistent the language leaves the order to the
    engine: what is defined here, insertion from the right, is then one
    possible order and in general not the one the merge sort of V8 gives. *)
Definition array_sort (l : list A) : list A := fold_right sort_insert [] l.
End ArraySort.

(** [a || b], for operands whose evaluation cannot throw. *)
Definition js_or (a b : JSValue) : JSValue := if truthy a then a else b.

(** [v === 'text']. *)
Definition strict_equals_string (v : JSValue) (text : string) : bool :=
  match v with
  | JStr s => String.eqb s text
  | _ => false
  end.

(** [Array.isArray(v) ? v : []]. *)
Definition array_or_empty (v : JSValue) : list JSValue :=
  match v with
  | JArr items => items
  | _ => []
  end.

(** ** [URLSearchParams] *)

(** A [URLSearchParams] is its list of name-value pairs, in order. *)
Definition URLSearchParams : Type := list (string * string).

(** [new URLSearchParams(record)]: the values of the record are converted
    to text, in the order of its properties. *)
Fixpoint new_URLSearchParams (record : list (string * JSValue)) : result URLSearchParams :=
  match record with
  | [] => Ok []
  | (name, v) :: rest =>
      let* value := ToString v in
      let* params := new_URLSearchParams rest in
      Ok ((name, value) :: params)
  end.

(** [params.set(name, value)]: the first pair of that name takes the value
    and the others go; a new pair is appended when there is none. *)
Fixpoint params_set (name value : string) (params : URLSearchParams) : URLSearchParams :=
  match params with
  | [] => [(name, value)]
  | (k, v) :: rest =>
      if String.eqb k name
      then (name, value) :: filter (fun kv => negb (String.eqb (fst kv) name)) rest
      else (k, v) :: params_set name value rest
  end.

(** ** The HTTP client [ky] and the world outside the process *)

(** What a request comes back with: a response, with its status and its body
    read as JSON ([None] when the body is not JSON text), or no response. *)
Inductive HttpOutcome : Type :=
| Response (status : Z) (body : option JSValue)
| NoResponse.

(** [await ky(...).json()] with [ky]'s defaults: a status outside 200..299
    throws [HTTPError], status 204 yields the empty string, and a body
    that is not JSON throws [SyntaxError].  (An empty body with another
    status is such a body here; later versions of [ky] yield the empty
    string for it, as for a 204.) *)
Definition ky_json (o : HttpOutcome) : result JSValue :=
  match o with
  | NoResponse => Threw FetchFailed
  | Response status body =>
      if (200 <=? status) && (status <? 300) then
        if status =? 204 then Ok (JStr EmptyString)
        else
          match body with
          | Some v => Ok v
          | None => Threw SyntaxError
          end
      else Threw (HTTPError status)
  end.

(** Everything outside the process that one search depends on: the
    credentials in the environment (a variable of the environment is a
    string, or is not set), the two Amadeus endpoints, and the
    clock-and-locale dependent [format(new Date(v), 'yyyy-MM-dd')] of
    [date-fns] ([None] when [v] is not a valid date: [format] then throws a
    [RangeError]). *)
Record World : Type := {
  AMADEUS_KEY : option string;
  AMADEUS_SECRET : option string;
  token_endpoint : URLSearchParams -> HttpOutcome;
  offers_endpoint : string -> URLSearchParams -> HttpOutcome;
  format_yyyy_MM_dd : JSValue -> option string
}.

(** [process.env.NAME]. *)
Definition env_value (v : option string) : JSValue :=
  match v with
  | Some s => JStr s
  | None => JUndefined
  end.

(** [format(new Date(v), 'yyyy-MM-dd')]: [new Date] converts its argument
    to a primitive, which may throw a [TypeError]; [format] throws a
    [RangeError] on a date that is not valid. *)
Definition format_date (w : World) (v : JSValue) : result string :=
  let* _ := ToPrimitive v in
  match format_yyyy_MM_dd w v with
  | Some s => Ok s
  | None => Threw RangeError
  end.

(* ================================================================== *)
(** * Part II.  The program                                             *)
(* ================================================================== *)

(** ** Data model *)

(** One flight segment of an option, as the mapping builds it. *)
Record Leg : Type := {
  from : JSValue;
  to : JSValue;
  depart : JSValue;
  arrive : JSValue;
  airline : JSValue;
  flightNo : string;
  durationMin : float
}.

(** One normalised itinerary.  [transfers] is computed from the length of
    an array, an integer below [2^32] that binary64 holds exactly: it is
    kept as an integer.  [_score] is the transient property the balanced
    ranking writes and deletes: [None] when the object has no such
    property. *)
Record Option : Type := {
  id : JSValue;
  provider : string;
  price : float;
  currency : JSValue;
  legs : list Leg;
  totalDurationMin : float;
  transfers : Z;
  notes : list JSValue;
  _score : option float
}.

(** [m._score = s] and [delete m._score]. *)
Definition set_score (s : option float) (m : Option) : Option :=
  {| id := id m; provider := provider m; price := price m; currency := currency m;
     legs := legs m; totalDurationMin := totalDurationMin m;
     transfers := transfers m; notes := notes m; _score := s |}.

Definition delete_score (m : Option) : Option := set_score None m.

(** ** [parseISODurationToMinutes] *)

(** The text after the leftmost [PT] of a string. *)
Fixpoint after_first_PT (s : string) : option string :=
  match s with
  | String "P" (String "T" rest) => Some rest
  | String _ s' => after_first_PT s'
  | EmptyString => None
  end.

(** One optional group [(?:(\d+)X)?] of the pattern, tried at the start of
    [s]: the digits captured, if the group matched, and what follows the
    match. *)
Definition match_group (suffix : ascii) (s : string) : option string * string :=
  match span_digits s with
  | (String d ds, String c rest) =>
      if Ascii.eqb c suffix then (Some (String d ds), rest) else (None, s)
  | _ => (None, s)
  end.

(** [String(iso).match(/PT(?:(\d+)H)?(?:(\d+)M)?/)]: [None] when there is
    no match, else the two captures [m[1]] and [m[2]].  The pattern is not
    anchored: it matches at the leftmost [PT]. *)
Definition match_duration (s : string) : option (option string * option string) :=
  match after_first_PT s with
  | None => None
  | Some rest =>
      let (h, rest') := match_group "H" rest in
      let (m, _) := match_group "M" rest' in
      Some (h, m)
  end.

(** [m?.[i] ? parseInt(m[i], 10) : 0]. *)
Definition capture_value (c : option string) : float :=
  match c with
  | Some ds => parseInt_digits ds
  | None => 0%float
  end.

Definition parseISODurationToMinutes (iso : JSValue) : result float :=
  let* text := ToString iso in
  let m := match_duration text in
  let h := capture_value (match m with Some (h, _) => h | None => None end) in
  let min := capture_value (match m with Some (_, min) => min | None => None end) in
  Ok (h * 60 + min)%float.

(** ** [getAccessToken] *)

Definition getAccessToken (w : World) : result JSValue :=
  let* body :=
    new_URLSearchParams
      [("grant_type", JStr "client_credentials");
       ("client_id", env_value (AMADEUS_KEY w));
       ("client_secret", env_value (AMADEUS_SECRET w))]%string in
  let* res := ky_json (token_endpoint w body) in
  get res "access_token".

(** ** [searchAmadeus] *)

(** The request parameters: the [URLSearchParams] built from the query and
    the optional [returnDate] set on it.  The properties of the record are
    evaluated in order, the date and the passenger count among them, before
    the constructor converts the values to text. *)
Definition build_params (w : World) (q : JSValue) : result URLSearchParams :=
  let* q_from := get q "from" in
  let* q_to := get q "to" in
  let* q_start := get q "start" in
  let* departureDate := format_date w q_start in
  let* q_pax := get q "pax" in
  let* adults := ToString (js_or q_pax (JNum 1)) in
  let* params :=
    new_URLSearchParams
      [("originLocationCode", q_from);
       ("destinationLocationCode", q_to);
       ("departureDate", JStr departureDate);
       ("adults", JStr adults);
       ("currencyCode", JStr "USD");
       ("max", JStr "30")]%string in
  let* q_end := get q "end" in
  if truthy q_end then
    let* returnDate := format_date w q_end in
    Ok (params_set "returnDate" returnDate params)
  else Ok params.

(** [e.detail || e.title || JSON.stringify(e)]. *)
Definition error_text (e : JSValue) : result JSValue :=
  let* detail := get e "detail" in
  if truthy detail then Ok detail
  else
    let* title := get e "title" in
    if truthy title then Ok title
    else Ok (match JSON_stringify e with
             | Some s => JStr s
             | None => JUndefined
             end).

(** The check of the upstream error payload:
    [if (res.errors?.length) { ...; throw new Error(...) }]. *)
Definition check_errors (res : JSValue) : result unit :=
  let* errors := get res "errors" in
  let* len :=
    match errors with
    | JUndefined | JNull => Ok JUndefined
    | _ => get errors "length"
    end in
  if truthy len then
    let* entries := as_array_for_map errors in
    let* texts := mapM error_text entries in
    let* msg := array_join " | " texts in
    Threw (Error ("Amadeus error: " ++ msg))
  else Ok tt.

(** The callback of [itin.segments.map]. *)
Definition map_segment (seg : JSValue) : result Leg :=
  let* departure := get seg "departure" in
  let* from_ := get departure "iataCode" in
  let* arrival := get seg "arrival" in
  let* to_ := get arrival "iataCode" in
  let* depart_ := get departure "at" in
  let* arrive_ := get arrival "at" in
  let* carrierCode := get seg "carrierCode" in
  let* carrier_text := ToString carrierCode in
  let* number := get seg "number" in
  let* number_text := ToString number in
  let* duration := get seg "duration" in
  let* durationMin_ := parseISODurationToMinutes duration in
  Ok {| from := from_;
        to := to_;
        depart := depart_;
        arrive := arrive_;
        airline := carrierCode;
        flightNo := (carrier_text ++ number_text)%string;
        durationMin := durationMin_ |}.

(** The callback of [data.map]: one offer, at index [idx], to one option. *)
Definition map_offer (idx : nat) (offer : JSValue) : result Option :=
  let* itineraries := get offer "itineraries" in
  let* itin := get0 itineraries in
  let* segments := get itin "segments" in
  let* segs := as_array_for_map segments in
  let* legs_ := mapM map_segment segs in
  let* duration := get itin "duration" in
  let* totalDurationMin_ := parseISODurationToMinutes duration in
  let* offer_id := get offer "id" in
  let* offer_price := get offer "price" in
  let* total := get offer_price "total" in
  let* total_text := ToString total in
  let* currency_ := get offer_price "currency" in
  Ok {| id := js_or offer_id (JStr ("am-" ++ string_of_N (N.of_nat idx)));
        provider := "AMADEUS";
        price := parseFloat_string total_text;
        currency := currency_;
        legs := legs_;
        totalDurationMin := totalDurationMin_;
        transfers := Z.max 0 (Z.of_nat (List.length legs_) - 1);
        notes := [];
        _score := None |}.

(** The mapping stage: [data.map((offer, idx) => ...)]. *)
Definition map_offers (data : list JSValue) : result (list Option) :=
  mapM_idx map_offer 0 data.

(** The score the balanced ranking gives an option. *)
Definition balanced_score (minP maxP minT maxT : float) (m : Option) : float :=
  let pN := ((price m - minP) / Math_max [1; maxP - minP])%float in
  let tN := ((totalDurationMin m - minT) / Math_max [1; maxT - minT])%float in
  (0.5 * pN + 0.5 * tN)%float.

(** [a._score ?? 0]. *)
Definition score_or_zero (m : Option) : float :=
  match _score m with
  | Some s => s
  | None => 0%float
  end.

(** The ranking stage (the [// local sort] block), on the value of
    [q.optimize]. *)
Definition local_sort (q_optimize : JSValue) (mapped : list Option) : list Option :=
  let optimize := js_or q_optimize (JStr "balanced") in
  if strict_equals_string optimize "shortest" then
    array_sort (fun a b => (totalDurationMin a - totalDurationMin b)%float) mapped
  else if strict_equals_string optimize "cheapest" then
    array_sort (fun a b => (price a - price b)%float) mapped
  else
    let minP := Math_min (map price mapped) in
    let maxP := Math_max (map price mapped) in
    let minT := Math_min (map totalDurationMin mapped) in
    let maxT := Math_max (map totalDurationMin mapped) in
    let scored :=
      map (fun m => set_score (Some (balanced_score minP maxP minT maxT m)) m) mapped in
    let sorted :=
      array_sort (fun a b => (score_or_zero a - score_or_zero b)%float) scored in
    map delete_score sorted.

(** What [searchAmadeus] does with the parsed upstream response. *)
Definition process_response (q : JSValue) (res : JSValue) : result (list Option) :=
  let* _ := check_errors res in
  let* res_data := get res "data" in
  let data := array_or_empty res_data in
  let* mapped := map_offers data in
  let* q_optimize := get q "optimize" in
  Ok (local_sort q_optimize mapped).

(** The search request, [await ky.get(url, {headers, searchParams}).json()]
    where the [Authorization] header is the template literal
    [`Bearer ${token}`]. *)
Definition request_offers (w : World) (token : JSValue) (params : URLSearchParams)
  : result JSValue :=
  let* bearer := ToString token in
  ky_json (offers_endpoint w ("Bearer " ++ bearer) params).

Definition searchAmadeus (w : World) (q : JSValue) : result (list Option) :=
  let* token := getAccessToken w in
  let* params := build_params w q in
  let* res := request_offers w token params in
  process_response q res.

(** The guard of the [/api/search] route: the query it hands to
    [searchAmadeus] has truthy [from], [to] and [start]. *)
Definition validated (q : JSValue) : bool :=
  match get q "from", get q "to", get q "start" with
  | Ok f, Ok t, Ok s => truthy f && truthy t && truthy s
  | _, _, _ => false
  end.

(** ** The routes *)

(** What a handler sends back: the status set with [res.status] (200 when
    it is not called) and the value handed to [res.json]. *)
Record Reply : Type := {
  status_code : Z;
  json_body : JSValue
}.

(** One argument of a call of [console.error]. *)
Inductive Printed : Type :=
| PText (text : string)
| PError (e : JSError).

(** The objects the records stand for when [res.json] serialises them: the
    properties in the order the mapping wrote them, and [_score] last when
    it is there. *)
Definition Leg_value (l : Leg) : JSValue :=
  JObj [("from", from l);
        ("to", to l);
        ("depart", depart l);
        ("arrive", arrive l);
        ("airline", airline l);
        ("flightNo", JStr (flightNo l));
        ("durationMin", JNum (durationMin l))]%string.

Definition Option_value (m : Option) : JSValue :=
  JObj ([("id", id m);
         ("provider", JStr (provider m));
         ("price", JNum (price m));
         ("currency", currency m);
         ("legs", JArr (map Leg_value (legs m)));
         ("totalDurationMin", JNum (totalDurationMin m));
         ("transfers", JNum (float_of_Z (transfers m)));
         ("notes", JArr (notes m))]%string
        ++ match _score m with
           | Some s => [("_score"%string, JNum s)]
           | None => []
           end).

(** [e.message]: the text given to [new Error(...)]; for an error the
    engine, [ky] or [date-fns] created, the text [library_message] they gave
    it.  One run of a handler catches at most one error, so a function of
    the error stands for any choice of that text. *)
Definition message (library_message : JSError -> string) (e : JSError) : JSValue :=
  match e with
  | Error text => JStr text
  | _ => JStr (library_message e)
  end.

(** The [try] block of the [POST /api/search] handler, on [req.body]. *)
Definition api_search_try (w : World) (req_body : JSValue) : result Reply :=
  let q := js_or req_body (JObj []) in
  let* q_from := get q "from" in
  let* incomplete :=
    if truthy q_from then
      let* q_to := get q "to" in
      if truthy q_to then
        let* q_start := get q "start" in
        Ok (negb (truthy q_start))
      else Ok true
    else Ok true in
  if incomplete then
    Ok {| status_code := 400;
          json_body := JObj [("ok", JBool false);
                             ("error", JStr "from, to, start are required")]%string |}
  else
    let* options := searchAmadeus w q in
    Ok {| status_code := 200;
          json_body := JObj [("ok", JBool true);
                             ("options", JArr (map Option_value options))]%string |}.

(** The handler of [POST /api/search]: the reply, and what it printed with
    [console.error]. *)
Definition api_search (library_message : JSError -> string) (w : World) (req_body : JSValue)
  : Reply * list Printed :=
  match api_search_try w req_body with
  | Ok reply => (reply, [])
  | Threw e =>
      ({| status_code := 500;
          json_body := JObj [("ok", JBool false);
                             ("error", js_or (message library_message e)
                                             (JStr "Server error"))]%string |},
       [PText "Search error:"; PError e])
  end.

(** The handler of [GET /health]. *)
Definition health : Reply :=
  {| status_code := 200; json_body := JObj [("ok"%string, JBool true)] |}.

(** [process.env.PORT || 8787], the port the server listens on. *)
Definition port (env_PORT : JSValue) : JSValue := js_or env_PORT (JNum 8787).

(** ** The earlier revision *)

Module Earlier.

(** It asks the upstream for a sort order and never sets [returnDate]. *)
Definition build_params (w : World) (q : JSValue) : result URLSearchParams :=
  let* q_from := get q "from" in
  let* q_to := get q "to" in
  let* q_start := get q "start" in
  let* departureDate := format_date w q_start in
  let* q_pax := get q "pax" in
  let* adults := ToString (js_or q_pax (JNum 1)) in
  let* q_optimize := get q "optimize" in
  new_URLSearchParams
    [("originLocationCode", q_from);
     ("destinationLocationCode", q_to);
     ("departureDate", JStr departureDate);
     ("adults", JStr adults);
     ("currencyCode", JStr "USD");
     ("max", JStr "30");
     ("sort", JStr (if strict_equals_string q_optimize "shortest"
                    then "DURATION" else "PRICE"))]%string.

(** It maps the offers without looking at [res.errors] and returns them in
    upstream order. *)
Definition searchAmadeus (w : World) (q : JSValue) : result (list Option) :=
  let* token := getAccessToken w in
  let* params := build_params w q in
  let* res := request_offers w token params in
  let* res_data := get res "data" in
  map_offers (array_or_empty res_data).

(** Its [POST /api/search] handler differs only in what it prints. *)
Definition api_search_try (w : World) (req_body : JSValue) : result Reply :=
  let q := js_or req_body (JObj []) in
  let* q_from := get q "from" in
  let* incomplete :=
    if truthy q_from then
      let* q_to := get q "to" in
      if truthy q_to then
        let* q_start := get q "start" in
        Ok (negb (truthy q_start))
      else Ok true
    else Ok true in
  if incomplete then
    Ok {| status_code := 400;
          json_body := JObj [("ok", JBool false);
                             ("error", JStr "from, to, start are required")]%string |}
  else
    let* options := searchAmadeus w q in
    Ok {| status_code := 200;
          json_body := JObj [("ok", JBool true);
                             ("options", JArr (map Option_value options))]%string |}.

Definition api_search (library_message : JSError -> string) (w : World) (req_body : JSValue)
  : Reply * list Printed :=
  match api_search_try w req_body with
  | Ok reply => (reply, [])
  | Threw e =>
      ({| status_code := 500;
          json_body := JObj [("ok", JBool false);
                             ("error", js_or (message library_message e)
                                             (JStr "Server error"))]%string |},
       [PError e])
  end.

End Earlier.

(* ================================================================== *)
(** * Part III.  Vocabulary of the properties                           *)
(* ================================================================== *)

(** ** Numbers *)

Definition emin64 : Z := SpecFloat.emin prec emax.

(** The sign of a number that is neither zero nor [NaN]. *)
Definition SF_nonzero_sign (x : spec_float) : option bool :=
  match x with
  | S754_finite s _ _ | S754_infinity s => Some s
  | _ => None
  end.

(** A number that is not [NaN] and not below zero. *)
Definition SF_nonneg (x : spec_float) : bool :=
  match x with
  | S754_zero _ => true
  | S754_finite s _ _ | S754_infinity s => negb s
  | S754_nan => false
  end.

Definition nonneg_number (x : float) : bool := SF_nonneg (Prim2SF x).

(** The binary64 representation of an integer [0 < n < 2^53]: the integer
    itself, normalised to 53 bits. *)
Definition SF64_exact (n : Z) : spec_float :=
  match n with
  | Zpos p =>
      let d := Zpos (digits2_pos p) in
      S754_finite false (Z.to_pos (n * 2 ^ (53 - d))) (d - 53)
  | _ => S754_zero false
  end.

(** ** Orderings of the returned sequence *)

(** A sequence is non-decreasing in [key] when each element's key is [<=]
    the next one's. *)
Definition nondecreasing {A : Type} (key : A -> float) (l : list A) : Prop :=
  Sorted (fun a b => (key a <=? key b)%float = true) l.

Fixpoint nondecreasingb {A : Type} (key : A -> float) (l : list A) : bool :=
  match l with
  | a :: (b :: _) as l' => (key a <=? key b)%float && nondecreasingb key l'
  | _ => true
  end.

(** The three comparison functions of the ranking. *)
Definition by_duration (a b : Option) : float := (totalDurationMin a - totalDurationMin b)%float.
Definition by_price (a b : Option) : float := (price a - price b)%float.
Definition by_score (a b : Option) : float := (score_or_zero a - score_or_zero b)%float.

(** [a] stands somewhere before [b] in [l]. *)
Definition before {A : Type} (a b : A) (l : list A) : Prop :=
  exists l1 l2 l3, l = (l1 ++ a :: l2 ++ b :: l3)%list.

(** The score of an option within the mapped list [mapped], with the minima
    and maxima taken over that list. *)
Definition score_in (mapped : list Option) (m : Option) : float :=
  balanced_score (Math_min (map price mapped)) (Math_max (map price mapped))
                 (Math_min (map totalDurationMin mapped))
                 (Math_max (map totalDurationMin mapped)) m.

(** ** Shapes of upstream data *)

Definition nullish (v : JSValue) : bool :=
  match v with
  | JUndefined | JNull => true
  | _ => false
  end.

(** A value that converts to text: every value but an object that has an
    own property [toString] and an array that holds such an object. *)
Definition has_text (v : JSValue) : bool := negb (ToPrimitive_throws v).

(** The value of a property ([undefined] when it cannot be read). *)
Definition query_field (q : JSValue) (k : string) : JSValue :=
  match get q k with
  | Ok v => v
  | Threw _ => JUndefined
  end.

(** A segment the mapping can read: it has a [departure] and an [arrival],
    and its [carrierCode], [number] and [duration] convert to text. *)
Definition well_shaped_segment (seg : JSValue) : bool :=
  match get seg "departure", get seg "arrival" with
  | Ok d, Ok a =>
      negb (nullish d) && negb (nullish a)
      && has_text (query_field seg "carrierCode")
      && has_text (query_field seg "number")
      && has_text (query_field seg "duration")
  | _, _ => false
  end.

(** An offer the mapping can read: it has a [price] whose [total] converts
    to text, and a first itinerary whose [duration] converts to text and
    whose [segments] is a list of readable segments. *)
Definition well_shaped_offer (offer : JSValue) : bool :=
  match get offer "itineraries", get offer "price" with
  | Ok itineraries, Ok p =>
      negb (nullish p) && has_text (query_field p "total") &&
      match get0 itineraries with
      | Ok itin =>
          match get itin "segments" with
          | Ok (JArr segs) =>
              forallb well_shaped_segment segs && has_text (query_field itin "duration")
          | _ => false
          end
      | Threw _ => false
      end
  | _, _ => false
  end.

(** ** Upstream error entries *)







Definition is_substring (p s : string) : Prop :=
  exists pre post, s = (pre ++ p ++ post)%string.

(** ** Queries and requests *)

(** The text of a variable of the environment: [undefined] reads
    ["undefined"]. *)
Definition env_text (v : option string) : string :=
  match v with
  | Some s => s
  | None => "undefined"
  end.

(** The form the token exchange posts. *)
Definition token_request (w : World) : URLSearchParams :=
  [("grant_type", "client_credentials");
   ("client_id", env_text (AMADEUS_KEY w));
   ("client_secret", env_text (AMADEUS_SECRET w))]%string.

(** A query whose [from], [to] and [pax] convert to text. *)
Definition textual_query (q : JSValue) : bool :=
  has_text (query_field q "from") && has_text (query_field q "to")
  && has_text (query_field q "pax").

(** The parameters every search sends, before the optional [returnDate]. *)
Definition base_params (q : JSValue) (departureDate : string) : URLSearchParams :=
  [("originLocationCode", text_of (query_field q "from"));
   ("destinationLocationCode", text_of (query_field q "to"));
   ("departureDate", departureDate);
   ("adults", if truthy (query_field q "pax")
              then text_of (query_field q "pax") else "1");
   ("currencyCode", "USD");
   ("max", "30")]%string.

(** What [join] puts for an item: nothing for [undefined] and [null], and
    the text of any other item. *)
Definition joined_text (x : JSValue) : string :=
  if nullish x then EmptyString else text_of x.

(** ** Duration texts *)

(** A non-empty run of decimal digits. *)
Fixpoint all_digits (s : string) : bool :=
  match s with
  | EmptyString => true
  | String c s' => is_digit c && all_digits s'
  end.

Definition digit_run (s : string) : bool :=
  match s with
  | EmptyString => false
  | _ => all_digits s
  end.

Definition optional_run (o : option string) : bool :=
  match o with
  | Some ds => digit_run ds
  | None => true
  end.

(** One optional component of [PT<h>H<m>M]. *)
Definition component (o : option string) (suffix : string) : string :=
  match o with
  | Some ds => (ds ++ suffix)%string
  | None => EmptyString
  end.

(** The text [PT<h>H<m>M], either component optionally absent. *)
Definition duration_text (h m : option string) : string :=
  ("PT" ++ component h "H" ++ component m "M")%string.

(** The integer an optional component denotes. *)
Definition component_value (o : option string) : Z :=
  match o with
  | Some ds => decimal_value ds
  | None => 0
  end.

(** ** The order of numbers *)

(** The place of a number on the line of binary64 values, counted in units
    of the smallest positive one, [2^-1074]; the infinities lie beyond every
    finite number, and both zeros are at 0. *)
Definition rank (x : spec_float) : Z :=
  match x with
  | S754_finite s m e =>
      if s then - (Zpos m * 2 ^ (e + 1074)) else Zpos m * 2 ^ (e + 1074)
  | S754_infinity s => if s then - 2 ^ 2098 else 2 ^ 2098
  | S754_zero _ | S754_nan => 0
  end.

Definition frank (x : float) : Z := rank (Prim2SF x).

(** The order [Math.min] and [Math.max] follow: that of the numbers, with
    [-0] below [+0]. *)
Definition mkey (x : float) : Z := 2 * frank x + (if get_sign x then 0 else 1).

(** A finite number that is not below zero, and a number above zero. *)
Definition SF_finite_nonneg (x : spec_float) : bool :=
  match x with
  | S754_zero _ => true
  | S754_finite s _ _ => negb s
  | _ => false
  end.

Definition SF_positive (x : spec_float) : bool :=
  match x with
  | S754_finite s _ _ | S754_infinity s => negb s
  | _ => false
  end.

(** A number between 0 and [2^1000]: any price, and any duration. *)
Definition moderate (x : float) : bool := (0 <=? x)%float && (x <=? 0x1p1000)%float.

(** ** Options, legs and prices *)

(** What every returned option satisfies. *)
Definition sound_option (o : Option) : Prop :=
  truthy (id o) = true
  /\ provider o = "AMADEUS"%string
  /\ notes o = []
  /\ _score o = None
  /\ nonneg_number (totalDurationMin o) = true
  /\ Forall (fun l => nonneg_number (durationMin l) = true) (legs o)
  /\ transfers o = Z.max 0 (Z.of_nat (List.length (legs o)) - 1).

(** [offer.itineraries[0]] ([undefined] when it cannot be read). *)
Definition first_itinerary (offer : JSValue) : JSValue :=
  match get0 (query_field offer "itineraries") with
  | Ok itin => itin
  | Threw _ => JUndefined
  end.

(** The minutes of a duration that converts to text. *)
Definition minutes_of (iso : JSValue) : float :=
  match parseISODurationToMinutes iso with
  | Ok x => x
  | Threw _ => 0%float
  end.

(** The leg a readable segment stands for. *)
Definition leg_of (seg : JSValue) : Leg :=
  {| from := query_field (query_field seg "departure") "iataCode";
     to := query_field (query_field seg "arrival") "iataCode";
     depart := query_field (query_field seg "departure") "at";
     arrive := query_field (query_field seg "arrival") "at";
     airline := query_field seg "carrierCode";
     flightNo := (text_of (query_field seg "carrierCode")
                  ++ text_of (query_field seg "number"))%string;
     durationMin := minutes_of (query_field seg "duration") |}.

(** An offer cut down to what the mapping reads: its [id], its [price] and
    one itinerary. *)
Definition outbound_only (fields : list (string * JSValue)) (itin : JSValue) : JSValue :=
  JObj [("id", lookup "id" fields);
        ("itineraries", JArr [itin]);
        ("price", lookup "price" fields)]%string.

(** [offer.price.total], and whether it is a text that begins with a
    decimal digit, as an amount does. *)
Definition total_of (offer : JSValue) : JSValue :=
  query_field (query_field offer "price") "total".

Definition decimal_total (offer : JSValue) : bool :=
  match total_of offer with
  | JStr (String c _) => is_digit c
  | _ => false
  end.

(** A text without the letter [P]. *)
Fixpoint no_P (s : string) : bool :=
  match s with
  | EmptyString => true
  | String c s' => negb (Ascii.eqb c "P") && no_P s'
  end.

(** ** Requests and replies of the routes *)

(** [req.body || {}]: the query the handler works on. *)
Definition query_of (req_body : JSValue) : JSValue := js_or req_body (JObj []).

(** [errors?.length]. *)
Definition errors_length (errors : JSValue) : JSValue :=
  match errors with
  | JUndefined | JNull => JUndefined
  | _ => query_field errors "length"
  end.

(** The three replies of [POST /api/search]. *)
Definition incomplete_reply : Reply :=
  {| status_code := 400;
     json_body := JObj [("ok", JBool false);
                        ("error", JStr "from, to, start are required")]%string |}.

Definition options_reply (options : list Option) : Reply :=
  {| status_code := 200;
     json_body := JObj [("ok", JBool true);
                        ("options", JArr (map Option_value options))]%string |}.

Definition failure_reply (text : string) : Reply :=
  {| status_code := 500;
     json_body := JObj [("ok", JBool false); ("error", JStr text)]%string |}.

(** The text a 500 reply shows for an error: its message, or
    ["Server error"] when the message is empty. *)
Definition shown_message (library_message : JSError -> string) (e : JSError) : string :=
  match message library_message e with
  | JStr (String c text) => String c text
  | _ => "Server error"
  end.

(** ** Sample data *)

Definition sample_segment (origin destination duration : string) : JSValue :=
  JObj [("departure", JObj [("iataCode", JStr origin); ("at", JStr "2024-06-01T08:00:00")]);
        ("arrival", JObj [("iataCode", JStr destination); ("at", JStr "2024-06-01T11:00:00")]);
        ("carrierCode", JStr "AA");
        ("number", JStr "100");
        ("duration", JStr duration)]%string.

Definition sample_offer (offer_id total duration : string) (segments : list JSValue)
  : JSValue :=
  JObj [("id", JStr offer_id);
        ("itineraries", JArr [JObj [("duration", JStr duration);
                                    ("segments", JArr segments)]]);
        ("price", JObj [("total", JStr total); ("currency", JStr "USD")])]%string.

(** Two offers priced 200 and 150. *)
Definition sample_data : list JSValue :=
  [sample_offer "1" "200.00" "PT5H30M" [sample_segment "JFK" "LAX" "PT5H30M"];
   sample_offer "2" "150.00" "PT8H"
     [sample_segment "JFK" "ORD" "PT2H"; sample_segment "ORD" "LAX" "PT4H"]]%string.

Definition sample_mapped : list Option :=
  match map_offers sample_data with
  | Ok l => l
  | Threw _ => []
  end.

Definition sample_query (optimize : string) : JSValue :=
  JObj [("from", JStr "JFK"); ("to", JStr "LAX"); ("start", JStr "2024-06-01");
        ("optimize", JStr optimize)]%string.

Definition sample_return_query : JSValue :=
  JObj [("from", JStr "JFK"); ("to", JStr "LAX"); ("start", JStr "2024-06-01");
        ("end", JStr "2024-06-09"); ("pax", JNum 2)]%string.

(** A world whose token exchange succeeds and whose search answers [body];
    dates arrive already formatted. *)
Definition sample_world (token_body search_body : JSValue) : World :=
  {| AMADEUS_KEY := Some "key"%string;
     AMADEUS_SECRET := Some "secret"%string;
     token_endpoint := fun _ => Response 200 (Some token_body);
     offers_endpoint := fun _ _ => Response 200 (Some search_body);
     format_yyyy_MM_dd := fun v => match v with
                                   | JStr s => Some s
                                   | _ => None
                                   end |}.

Definition sample_token : JSValue := JObj [("access_token", JStr "tok")]%string.

(** An upstream error payload, beside data that could not be mapped. *)
Definition sample_error_entries : list JSValue :=
  [JObj [("status", JNum 400); ("detail", JStr "bad date")];
   JObj [("title", JStr "INVALID FORMAT")];
   JObj [("code", JNum 477)]]%string.

Definition sample_error_response : JSValue :=
  JObj [("errors", JArr sample_error_entries); ("data", JArr [JObj []])]%string.

(** The message of these entries; the third one has neither [detail] nor
    [title], and shows as its JSON text, [{"code":477}]. *)
Definition sample_error_message : string :=
  ("Amadeus error: bad date | INVALID FORMAT | {"
   ++ String dquote "code" ++ String dquote ":477}")%string.

(** An object that has no text: it has an own property [toString]. *)
Definition opaque : JSValue := JObj [("toString", JNum 1)]%string.

(** An error payload whose one entry has such an object for its
    [detail]. *)
Definition sample_opaque_error_response : JSValue :=
  JObj [("errors", JArr [JObj [("detail", opaque)]])]%string.

(** Offers priced 3, "N/A" and 1. *)
Definition unpriced_data : list JSValue :=
  [sample_offer "a" "3" "PT1H" [sample_segment "JFK" "LAX" "PT1H"];
   sample_offer "b" "N/A" "PT1H" [sample_segment "JFK" "LAX" "PT1H"];
   sample_offer "c" "1" "PT1H" [sample_segment "JFK" "LAX" "PT1H"]]%string.

Definition unpriced_mapped : list Option :=
  match map_offers unpriced_data with
  | Ok l => l
  | Threw _ => []
  end.

(** Two offers of one price, the longer flight first. *)
Definition same_price_data : list JSValue :=
  [sample_offer "slow" "100" "PT2H" [sample_segment "JFK" "LAX" "PT2H"];
   sample_offer "fast" "100" "PT1H" [sample_segment "JFK" "LAX" "PT1H"]]%string.

Definition same_price_mapped : list Option :=
  match map_offers same_price_data with
  | Ok l => l
  | Threw _ => []
  end.

(** Two offers of one price and one duration. *)
Definition twin_data : list JSValue :=
  [sample_offer "first" "100" "PT2H" [sample_segment "JFK" "LAX" "PT2H"];
   sample_offer "second" "100" "PT2H" [sample_segment "JFK" "BOS" "PT2H"]]%string.

Definition twin_mapped : list Option :=
  match map_offers twin_data with
  | Ok l => l
  | Threw _ => []
  end.

(** An offer that carries no [id]. *)
Definition anonymous_offer : JSValue :=
  JObj [("itineraries", JArr [JObj [("duration", JStr "PT1H"); ("segments", JArr [])]]);
        ("price", JObj [("total", JStr "80"); ("currency", JStr "USD")])]%string.

Definition blank_option : Option :=
  {| id := JUndefined; provider := EmptyString; price := 0%float;
     currency := JUndefined; legs := []; totalDurationMin := 0%float;
     transfers := 0; notes := []; _score := None |}.

Definition twin_first : Option := nth 0 twin_mapped blank_option.
Definition twin_second : Option := nth 1 twin_mapped blank_option.

(** An offer with no itinerary, and one whose itinerary has no segment. *)
Definition offer_without_itinerary : JSValue :=
  JObj [("id", JStr "1"); ("itineraries", JArr []);
        ("price", JObj [("total", JStr "100"); ("currency", JStr "USD")])]%string.

Definition offer_without_segment : JSValue := sample_offer "1" "100" "PT0M" [].

(** An offer whose total has no text. *)
Definition offer_without_total_text : JSValue :=
  JObj [("id", JStr "1");
        ("itineraries", JArr [JObj [("duration", JStr "PT1H"); ("segments", JArr [])]]);
        ("price", JObj [("total", opaque); ("currency", JStr "USD")])]%string.

(** The texts of the errors the libraries create. *)
Definition sample_messages (e : JSError) : string :=
  match e with
  | TypeError => "Cannot convert object to primitive value"
  | RangeError => "Invalid time value"
  | SyntaxError => "Unexpected token"
  | HTTPError _ => "Request failed"
  | FetchFailed => "fetch failed"
  | Error text => text
  end.

(** A world like [sample_world] in which only a text of ten characters is
    a date. *)
Definition dated_world (token_body search_body : JSValue) : World :=
  {| AMADEUS_KEY := Some "key"%string;
     AMADEUS_SECRET := Some "secret"%string;
     token_endpoint := fun _ => Response 200 (Some token_body);
     offers_endpoint := fun _ _ => Response 200 (Some search_body);
     format_yyyy_MM_dd := fun v => match v with
                                   | JStr s => if (String.length s =? 10)%nat
                                               then Some s else None
                                   | _ => None
                                   end |}.

(** A world whose token exchange is refused. *)
Definition refusing_world : World :=
  {| AMADEUS_KEY := None;
     AMADEUS_SECRET := None;
     token_endpoint := fun _ => Response 401 None;
     offers_endpoint := fun _ _ => NoResponse;
     format_yyyy_MM_dd := fun _ => None |}.

Definition sample_search_response : JSValue := JObj [("data", JArr sample_data)]%string.


Definition opaque_pax_query : JSValue :=
  JObj [("from", JStr "JFK"); ("to", JStr "LAX"); ("start", JStr "2024-06-01");
        ("end", JStr "someday"); ("pax", opaque)]%string.

(** A query whose [start] is no date, and one without [start]. *)
Definition undated_query : JSValue :=
  JObj [("from", JStr "JFK"); ("to", JStr "LAX"); ("start", JStr "tomorrow")]%string.

Definition startless_query : JSValue :=
  JObj [("from", JStr "JFK"); ("to", JStr "LAX"); ("start", JStr "")]%string.

(** A round-trip offer: an outbound and an inbound itinerary. *)
Definition sample_itinerary (duration : string) (segments : list JSValue) : JSValue :=
  JObj [("duration", JStr duration); ("segments", JArr segments)]%string.

Definition round_trip_fields : list (string * JSValue) :=
  [("id", JStr "7");
   ("itineraries", JArr [sample_itinerary "PT5H30M" [sample_segment "JFK" "LAX" "PT5H30M"];
                         sample_itinerary "PT5H" [sample_segment "LAX" "JFK" "PT5H"]]);
   ("price", JObj [("total", JStr "420.00"); ("currency", JStr "USD")]);
   ("numberOfBookableSeats", JNum 4)]%string.

(* ================================================================== *)
(** * Part IV.  Facts about binary64 arithmetic                         *)
(* ================================================================== *)

(** ** Shifting and rounding in the specification of the format *)

Lemma iter_pos_nat {A} (f : A -> A) (p : positive) (x : A) :
  iter_pos f p x = Nat.iter (Pos.to_nat p) f x.
Proof.
  revert x. induction p as [p IH | p IH | ]; intro x; cbn [iter_pos].
  - rewrite !IH, Pos2Nat.inj_xI.
    replace (S (2 * Pos.to_nat p)) with (Pos.to_nat p + S (Pos.to_nat p))%nat by lia.
    rewrite Nat.iter_add, Nat.iter_succ_r. reflexivity.
  - rewrite !IH, Pos2Nat.inj_xO.
    replace (2 * Pos.to_nat p)%nat with (Pos.to_nat p + Pos.to_nat p)%nat by lia.
    rewrite Nat.iter_add. reflexivity.
  - reflexivity.
Qed.

Lemma shr_1_m (mrs : shr_record) :
  0 <= shr_m mrs -> shr_m (shr_1 mrs) = shr_m mrs / 2.
Proof.
  destruct mrs as [m r s]. simpl. intros Hm.
  destruct m as [ | [p | p | ] | p ]; cbn [shr_m]; try lia; try reflexivity.
  - apply Z.div_unique with (r := 1); lia.
  - apply Z.div_unique with (r := 0); lia.
Qed.

Lemma shr_iter_m (n : nat) (mrs : shr_record) :
  0 <= shr_m mrs -> shr_m (Nat.iter n shr_1 mrs) = shr_m mrs / 2 ^ Z.of_nat n.
Proof.
  intros Hm. induction n as [ | n IH].
  - simpl. now rewrite Z.div_1_r.
  - assert (0 < 2 ^ Z.of_nat n) by (apply Z.pow_pos_nonneg; lia).
    rewrite Nat2Z.inj_succ, Z.pow_succ_r by lia.
    rewrite Nat.iter_succ, shr_1_m.
    + rewrite IH, Z.div_div by lia. f_equal. lia.
    + rewrite IH. apply Z.div_pos; lia.
Qed.

Lemma shr_m_value (mrs : shr_record) (e n : Z) :
  0 <= shr_m mrs ->
  shr_m (fst (shr mrs e n)) = shr_m mrs / 2 ^ Z.max 0 n /\
  snd (shr mrs e n) = e + Z.max 0 n.
Proof.
  intros Hm. destruct n as [ | p | p]; simpl.
  - rewrite Z.div_1_r. lia.
  - rewrite iter_pos_nat, shr_iter_m by assumption.
    rewrite positive_nat_Z. split; reflexivity.
  - rewrite Z.div_1_r. lia.
Qed.

Lemma shr_record_of_loc_m (m : Z) (l : location) : shr_m (shr_record_of_loc m l) = m.
Proof. destruct l as [ | [ | | ]]; reflexivity. Qed.

Lemma digits2_pos_bounds (m : positive) :
  2 ^ (Zpos (digits2_pos m) - 1) <= Zpos m < 2 ^ Zpos (digits2_pos m).
Proof.
  induction m as [m IH | m IH | ]; simpl digits2_pos.
  - rewrite Pos2Z.inj_succ. change (Zpos m~1) with (2 * Zpos m + 1).
    replace (Z.succ (Zpos (digits2_pos m)) - 1) with (Z.succ (Zpos (digits2_pos m) - 1)) by lia.
    rewrite !Z.pow_succ_r by lia. lia.
  - rewrite Pos2Z.inj_succ. change (Zpos m~0) with (2 * Zpos m).
    replace (Z.succ (Zpos (digits2_pos m)) - 1) with (Z.succ (Zpos (digits2_pos m) - 1)) by lia.
    rewrite !Z.pow_succ_r by lia. lia.
  - simpl. lia.
Qed.

(** After [shr_fexp], a positive mantissa whose exponent is not below [emin] is
    still positive, and the exponent still not below [emin]. *)
Lemma shr_fexp_positive (m : positive) (e : Z) (l : location) :
  emin64 <= e ->
  0 < shr_m (fst (shr_fexp prec emax (Zpos m) e l)) /\
  emin64 <= snd (shr_fexp prec emax (Zpos m) e l).
Proof.
  intros He. unfold shr_fexp.
  set (n := fexp prec emax (Zdigits2 (Zpos m) + e) - e).
  destruct (shr_m_value (shr_record_of_loc (Zpos m) l) e n) as [Hm He'].
  { rewrite shr_record_of_loc_m. lia. }
  rewrite Hm, He', shr_record_of_loc_m. split; [ | lia].
  apply Z.div_str_pos. split; [apply Z.pow_pos_nonneg; lia | ].
  pose proof (digits2_pos_bounds m) as [Hlo _].
  eapply Z.le_trans; [ | exact Hlo].
  apply Z.pow_le_mono_r; [lia | ].
  subst n. unfold fexp, emin64, SpecFloat.emin, Zdigits2 in *.
  change prec with 53 in *. change emax with 1024 in *. lia.
Qed.


Lemma round_nearest_even_positive (m : Z) (l : location) :
  0 < m -> 0 < round_nearest_even m l.
Proof.
  intros Hm. destruct l as [ | [ | | ]]; simpl; try lia.
  destruct (Z.even m); lia.
Qed.

Lemma binary_round_aux_nonzero (s : bool) (m : positive) (e : Z) (l : location) :
  emin64 <= e ->
  SF_nonzero_sign (binary_round_aux prec emax s (Zpos m) e l) = Some s.
Proof.
  intros He. unfold binary_round_aux.
  destruct (shr_fexp_positive m e l He) as [Hm1 He1].
  destruct (shr_fexp prec emax (Zpos m) e l) as [mrs1 e1]. cbn [fst snd] in Hm1, He1.
  pose proof (round_nearest_even_positive _ (loc_of_shr_record mrs1) Hm1) as Hr.
  destruct (round_nearest_even (shr_m mrs1) (loc_of_shr_record mrs1)) as [ | m2 | m2];
    try lia.
  destruct (shr_fexp_positive m2 e1 loc_Exact He1) as [Hm2 _].
  destruct (shr_fexp prec emax (Zpos m2) e1 loc_Exact) as [mrs2 e2]. cbn [fst] in Hm2.
  destruct (shr_m mrs2) as [ | m3 | m3]; try lia.
  destruct (e2 <=? emax - prec); reflexivity.
Qed.

Lemma fexp_emin (z : Z) : emin64 <= fexp prec emax z.
Proof. unfold fexp, emin64. lia. Qed.

Lemma binary_round_nonzero (s : bool) (m : positive) (e : Z) :
  emin64 <= e -> SF_nonzero_sign (binary_round prec emax s m e) = Some s.
Proof.
  intros He. unfold binary_round, shl_align.
  pose proof (fexp_emin (Zpos (digits2_pos m) + e)) as Hf.
  destruct (fexp prec emax (Zpos (digits2_pos m) + e) - e) eqn:Hd;
    apply binary_round_aux_nonzero; lia.
Qed.

Lemma pos_iter_xO (m d : positive) : Zpos (Pos.iter xO m d) = Zpos m * 2 ^ Zpos d.
Proof.
  induction d as [ | d IH] using Pos.peano_ind.
  - cbn [Pos.iter]. change (Zpos m~0) with (2 * Zpos m). change (2 ^ 1) with 2. ring.
  - rewrite Pos.iter_succ, Pos2Z.inj_succ, Z.pow_succ_r by lia.
    change (Zpos (Pos.iter xO m d)~0) with (2 * Zpos (Pos.iter xO m d)).
    rewrite IH. ring.
Qed.

Lemma shl_align_value (m : positive) (e e' : Z) :
  e' <= e -> Zpos (fst (shl_align m e e')) = Zpos m * 2 ^ (e - e').
Proof.
  intros He. unfold shl_align. destruct (e' - e) as [ | d | d] eqn:Hd; cbn [fst].
  - replace (e - e') with 0 by lia. rewrite Z.pow_0_r. ring.
  - lia.
  - rewrite pos_iter_xO. f_equal. f_equal. lia.
Qed.

(** On canonical mantissas, comparing exponents first is comparing values. *)
Lemma canonical_compare (m1 : positive) (e1 : Z) (m2 : positive) (e2 : Z) :
  canonical_mantissa prec emax m1 e1 = true ->
  canonical_mantissa prec emax m2 e2 = true ->
  match e1 ?= e2 with
  | Lt => Lt
  | Gt => Gt
  | Eq => Pos.compare_cont Eq m1 m2
  end = (Zpos m1 * 2 ^ (e1 - Z.min e1 e2) ?= Zpos m2 * 2 ^ (e2 - Z.min e1 e2)).
Proof.
  unfold canonical_mantissa, fexp. fold emin64. change prec with 53.
  intros H1 H2. apply Z.eqb_eq in H1, H2.
  pose proof (digits2_pos_bounds m1) as [L1 U1].
  pose proof (digits2_pos_bounds m2) as [L2 U2].
  destruct (Z.compare_spec e1 e2) as [E | E | E].
  - subst e2. rewrite Z.min_id, Z.sub_diag, Z.pow_0_r, !Z.mul_1_r. reflexivity.
  - symmetry. apply Z.compare_lt_iff.
    rewrite Z.min_l, Z.sub_diag, Z.pow_0_r, Z.mul_1_r by lia.
    assert (D2 : Zpos (digits2_pos m2) = 53) by lia.
    assert (D1 : Zpos (digits2_pos m1) <= 53) by lia.
    rewrite D2 in L2.
    assert (Zpos m1 < 2 ^ 53).
    { eapply Z.lt_le_trans; [exact U1 | apply Z.pow_le_mono_r; lia]. }
    assert (2 ^ 1 <= 2 ^ (e2 - e1)) by (apply Z.pow_le_mono_r; lia).
    change (2 ^ 1) with 2 in *. change (2 ^ (53 - 1)) with 4503599627370496 in L2.
    change (2 ^ 53) with 9007199254740992 in *. nia.
  - symmetry. apply Z.compare_gt_iff.
    rewrite Z.min_r, Z.sub_diag, Z.pow_0_r, Z.mul_1_r by lia.
    assert (D1 : Zpos (digits2_pos m1) = 53) by lia.
    assert (D2 : Zpos (digits2_pos m2) <= 53) by lia.
    rewrite D1 in L1.
    assert (Zpos m2 < 2 ^ 53).
    { eapply Z.lt_le_trans; [exact U2 | apply Z.pow_le_mono_r; lia]. }
    assert (2 ^ 1 <= 2 ^ (e1 - e2)) by (apply Z.pow_le_mono_r; lia).
    change (2 ^ 1) with 2 in *. change (2 ^ (53 - 1)) with 4503599627370496 in L1.
    change (2 ^ 53) with 9007199254740992 in *. nia.
Qed.

Lemma canonical_emin (m : positive) (e : Z) :
  canonical_mantissa prec emax m e = true -> emin64 <= e.
Proof.
  unfold canonical_mantissa. intros H. apply Z.eqb_eq in H. rewrite <- H. apply fexp_emin.
Qed.

Lemma SFltb_zero_nonzero (x : spec_float) (s : bool) :
  SF_nonzero_sign x = Some s -> SFltb (S754_zero false) x = negb s.
Proof. destruct x as [ | [ | ] | | [ | ] ? ?]; simpl; intros [= <-]; reflexivity. Qed.

(** The sign of a difference decides the comparison. *)
Lemma SFsub_positive (x y : spec_float) :
  valid_binary x = true -> valid_binary y = true ->
  x <> S754_nan -> y <> S754_nan ->
  SFltb (S754_zero false) (SF64sub x y) = SFltb y x.
Proof.
  intros Vx Vy Nx Ny.
  destruct x as [sx | sx | | sx mx ex], y as [sy | sy | | sy my ey];
    try congruence;
    try (destruct sx, sy; reflexivity);
    try (destruct sx; reflexivity);
    try (destruct sy; reflexivity).
  simpl in Vx, Vy. unfold bounded in Vx, Vy.
  apply andb_prop in Vx, Vy. destruct Vx as [Cx _], Vy as [Cy _].
  pose proof (canonical_emin _ _ Cx) as Ex. pose proof (canonical_emin _ _ Cy) as Ey.
  pose proof (canonical_compare my ey mx ex Cy Cx) as Hc.
  unfold SF64sub, SFsub.
  rewrite !shl_align_value by lia.
  rewrite (Z.min_comm ey ex) in Hc.
  set (ez := Z.min ex ey) in *.
  set (vx := Zpos mx * 2 ^ (ex - ez)) in *.
  set (vy := Zpos my * 2 ^ (ey - ez)) in *.
  assert (Px : 0 < vx) by (apply Z.mul_pos_pos; [lia | apply Z.pow_pos_nonneg; lia]).
  assert (Py : 0 < vy) by (apply Z.mul_pos_pos; [lia | apply Z.pow_pos_nonneg; lia]).
  assert (Hl : forall d, SFltb (S754_zero false) (binary_normalize prec emax d ez false)
                         = (0 <? d)).
  { intros [ | p | p]; simpl binary_normalize.
    - reflexivity.
    - rewrite (SFltb_zero_nonzero _ false) by (apply binary_round_nonzero; lia). reflexivity.
    - rewrite (SFltb_zero_nonzero _ true) by (apply binary_round_nonzero; lia). reflexivity. }
  rewrite Hl. unfold SFltb, SFcompare.
  destruct sx, sy; cbn [cond_Zopp].
  - replace (match ey ?= ex with
             | Eq => CompOpp (Pos.compare_cont Eq my mx)
             | Lt => Gt
             | Gt => Lt
             end)
      with (CompOpp (match ey ?= ex with
                     | Eq => Pos.compare_cont Eq my mx
                     | Lt => Lt
                     | Gt => Gt
                     end)) by (destruct (ey ?= ex); reflexivity).
    rewrite Hc. destruct (Z.compare_spec vy vx); simpl; lia.
  - destruct (Z.ltb_spec 0 (- vx - vy)); [lia | reflexivity].
  - destruct (Z.ltb_spec 0 (vx - - vy)); [reflexivity | lia].
  - rewrite Hc. destruct (Z.compare_spec vy vx); simpl; lia.
Qed.

(** ** Comparisons of primitive floats *)

Lemma Prim2SF_zero : Prim2SF 0%float = S754_zero false.
Proof. reflexivity. Qed.

Lemma SFcompare_refl (x : spec_float) : x <> S754_nan -> SFcompare x x = Some Eq.
Proof.
  destruct x as [s | s | | s m e]; intros H; try congruence;
    try (destruct s; reflexivity).
  simpl. rewrite Z.compare_refl, Pos.compare_cont_refl. destruct s; reflexivity.
Qed.

Lemma SFcompare_antisym (x y : spec_float) :
  SFcompare y x = option_map CompOpp (SFcompare x y).
Proof.
  destruct x as [sx | sx | | sx mx ex], y as [sy | sy | | sy my ey];
    try reflexivity;
    try (destruct sx, sy; reflexivity);
    try (destruct sx; reflexivity);
    try (destruct sy; reflexivity).
  simpl. rewrite (Z.compare_antisym ex ey).
  change (Pos.compare_cont Eq my mx) with (Pos.compare_cont (CompOpp Eq) my mx).
  rewrite <- Pos.compare_cont_antisym.
  destruct sx, sy; simpl; try reflexivity;
    destruct (ex ?= ey); simpl; try reflexivity;
    now rewrite ?CompOpp_involutive.
Qed.

Lemma is_nan_Prim2SF (x : float) : is_nan x = false <-> Prim2SF x <> S754_nan.
Proof.
  unfold is_nan. rewrite eqb_spec. unfold SFeqb. split.
  - intros H E. rewrite E in H. discriminate.
  - intros H. rewrite (SFcompare_refl _ H). reflexivity.
Qed.

(** The comparator [a - b] is positive exactly when [b < a]. *)
Lemma float_sub_positive (x y : float) :
  is_nan x = false -> is_nan y = false ->
  (0 <? x - y)%float = (y <? x)%float.
Proof.
  intros Hx Hy. rewrite !ltb_spec, sub_spec, Prim2SF_zero.
  apply SFsub_positive; try apply Prim2SF_valid; now apply is_nan_Prim2SF.
Qed.

Lemma float_not_lt_le (x y : float) :
  is_nan x = false -> is_nan y = false ->
  (y <? x)%float = false -> (x <=? y)%float = true.
Proof.
  intros Hx Hy. rewrite ltb_spec, leb_spec. unfold SFltb, SFleb.
  rewrite (SFcompare_antisym (Prim2SF x) (Prim2SF y)).
  apply is_nan_Prim2SF in Hx, Hy.
  destruct (SFcompare (Prim2SF x) (Prim2SF y)) as [[ | | ] | ] eqn:E;
    simpl; try congruence.
  destruct (Prim2SF x), (Prim2SF y); simpl in E; congruence.
Qed.

Lemma float_lt_le (x y : float) : (x <? y)%float = true -> (x <=? y)%float = true.
Proof.
  rewrite ltb_spec, leb_spec. unfold SFltb, SFleb.
  destruct (SFcompare _ _) as [[ | | ] | ]; congruence.
Qed.

(** A number minus itself is never positive. *)
Lemma float_sub_self (x : float) : (0 <? x - x)%float = false.
Proof.
  rewrite ltb_spec, sub_spec, Prim2SF_zero.
  destruct (Prim2SF x) as [s | s | | s m e]; try (destruct s; reflexivity); try reflexivity.
  unfold SF64sub, SFsub. rewrite Z.sub_diag. reflexivity.
Qed.

(** ** Numbers that are not below zero *)

Lemma shr_fexp_nonneg (m e : Z) (l : location) :
  0 <= m -> 0 <= shr_m (fst (shr_fexp prec emax m e l)).
Proof.
  intros Hm. unfold shr_fexp.
  destruct (shr_m_value (shr_record_of_loc m l) e
              (fexp prec emax (Zdigits2 m + e) - e)) as [H _].
  { now rewrite shr_record_of_loc_m. }
  rewrite H, shr_record_of_loc_m. apply Z.div_pos; [assumption | ].
  apply Z.pow_pos_nonneg; lia.
Qed.

Lemma round_nearest_even_nonneg (m : Z) (l : location) :
  0 <= m -> 0 <= round_nearest_even m l.
Proof.
  intros Hm. destruct l as [ | [ | | ]]; simpl; try lia.
  destruct (Z.even m); lia.
Qed.

Lemma binary_round_aux_nonneg (m e : Z) (l : location) :
  0 <= m -> SF_nonneg (binary_round_aux prec emax false m e l) = true.
Proof.
  intros Hm. unfold binary_round_aux.
  pose proof (shr_fexp_nonneg m e l Hm) as H1.
  destruct (shr_fexp prec emax m e l) as [mrs1 e1]. cbn [fst] in H1.
  pose proof (round_nearest_even_nonneg _ (loc_of_shr_record mrs1) H1) as Hr.
  pose proof (shr_fexp_nonneg _ e1 loc_Exact Hr) as H2.
  destruct (shr_fexp prec emax _ e1 loc_Exact) as [mrs2 e2]. cbn [fst] in H2.
  destruct (shr_m mrs2) as [ | m3 | m3]; try lia; try reflexivity.
  destruct (e2 <=? emax - prec); reflexivity.
Qed.

Lemma binary_round_nonneg (m : positive) (e : Z) :
  SF_nonneg (binary_round prec emax false m e) = true.
Proof.
  unfold binary_round. destruct (shl_align _ _ _) as [mz ez].
  apply binary_round_aux_nonneg. lia.
Qed.

Lemma binary_normalize_nonneg (n e : Z) :
  0 <= n -> SF_nonneg (binary_normalize prec emax n e false) = true.
Proof.
  intros Hn. destruct n as [ | p | p]; try lia; [reflexivity | ].
  apply binary_round_nonneg.
Qed.

Lemma SFldexp_nonneg (x : spec_float) (e : Z) :
  SF_nonneg x = true -> SF_nonneg (SFldexp prec emax x e) = true.
Proof.
  destruct x as [s | s | | s m ex]; simpl; try congruence.
  destruct s; [discriminate | ]. intros _. apply binary_round_nonneg.
Qed.

Lemma SF2Prim_nonneg (x : spec_float) :
  SF_nonneg x = true -> nonneg_number (SF2Prim x) = true.
Proof.
  unfold nonneg_number.
  destruct x as [[ | ] | [ | ] | | [ | ] m e]; try discriminate; try reflexivity.
  intros _. cbn [SF2Prim]. rewrite Z_ldexp_spec, of_uint63_spec.
  apply SFldexp_nonneg, binary_normalize_nonneg.
  apply Uint63.to_Z_bounded.
Qed.

Lemma float_of_Z_nonneg (n : Z) : 0 <= n -> nonneg_number (float_of_Z n) = true.
Proof. intros Hn. apply SF2Prim_nonneg, binary_normalize_nonneg, Hn. Qed.

Lemma SFmul_nonneg (x : spec_float) (m : positive) (e : Z) :
  SF_nonneg x = true -> SF_nonneg (SF64mul x (S754_finite false m e)) = true.
Proof.
  destruct x as [s | s | | s mx ex]; simpl; try congruence.
  - destruct s; [discriminate | reflexivity].
  - destruct s; [discriminate | ]. intros _. apply binary_round_aux_nonneg. lia.
Qed.

Lemma SFadd_nonneg (x y : spec_float) :
  SF_nonneg x = true -> SF_nonneg y = true -> SF_nonneg (SF64add x y) = true.
Proof.
  destruct x as [sx | sx | | sx mx ex], y as [sy | sy | | sy my ey]; simpl;
    try congruence;
    try (destruct sx, sy; simpl; congruence);
    try (destruct sx; simpl; congruence);
    try (destruct sy; simpl; congruence).
  destruct sx, sy; try discriminate. intros _ _.
  cbn [cond_Zopp]. apply binary_normalize_nonneg. lia.
Qed.

Lemma nonneg_number_not_nan (x : float) : nonneg_number x = true -> is_nan x = false.
Proof.
  unfold nonneg_number. intros H. apply is_nan_Prim2SF. intros E. rewrite E in H. discriminate.
Qed.

(** ** Integers below [2^53] are computed with exactly *)

Lemma fexp64 (z : Z) : fexp prec emax z = Z.max (z - 53) (-1074).
Proof. reflexivity. Qed.

Lemma emin64_value : emin64 = -1074.
Proof. reflexivity. Qed.

Lemma digits2_pos_unique (m : positive) (d : Z) :
  2 ^ (d - 1) <= Zpos m < 2 ^ d -> Zpos (digits2_pos m) = d.
Proof.
  intros [Hlo Hhi]. pose proof (digits2_pos_bounds m) as [Dlo Dhi].
  set (D := Zpos (digits2_pos m)) in *.
  assert (1 <= d).
  { destruct (Z_lt_le_dec d 1) as [Hd | Hd]; [ | assumption].
    assert (2 ^ d <= 2 ^ 0) by (apply Z.pow_le_mono_r; lia).
    change (2 ^ 0) with 1 in *. lia. }
  destruct (Z.lt_trichotomy D d) as [Hlt | [Heq | Hgt]]; [ | assumption | ].
  - assert (2 ^ D <= 2 ^ (d - 1)) by (apply Z.pow_le_mono_r; lia). lia.
  - assert (2 ^ d <= 2 ^ (D - 1)) by (apply Z.pow_le_mono_r; lia). lia.
Qed.

(** The 53-bit mantissa of an integer [0 < x < 2^53]. *)
Lemma exact_mantissa (p : positive) :
  Zpos p < 2 ^ 53 ->
  let d := Zpos (digits2_pos p) in
  let k := Z.to_pos (Zpos p * 2 ^ (53 - d)) in
  1 <= d <= 53 /\ Zpos k = Zpos p * 2 ^ (53 - d) /\ Zpos (digits2_pos k) = 53.
Proof.
  intros Hp d k. pose proof (digits2_pos_bounds p) as [Dlo Dhi]. fold d in Dlo, Dhi.
  assert (Hd : 1 <= d <= 53).
  { split; [unfold d; lia | ].
    destruct (Z_le_gt_dec d 53) as [H | H]; [assumption | ].
    assert (2 ^ 53 <= 2 ^ (d - 1)) by (apply Z.pow_le_mono_r; lia). lia. }
  assert (Hpow : 0 < 2 ^ (53 - d)) by (apply Z.pow_pos_nonneg; lia).
  assert (Hk : Zpos k = Zpos p * 2 ^ (53 - d)).
  { unfold k. rewrite Z2Pos.id; [reflexivity | ]. apply Z.mul_pos_pos; lia. }
  repeat split; try lia; try assumption.
  apply digits2_pos_unique. rewrite Hk.
  replace (2 ^ (53 - 1)) with (2 ^ (d - 1) * 2 ^ (53 - d))
    by (rewrite <- Z.pow_add_r by lia; f_equal; lia).
  replace (2 ^ 53) with (2 ^ d * 2 ^ (53 - d))
    by (rewrite <- Z.pow_add_r by lia; f_equal; lia).
  split.
  - apply Z.mul_le_mono_nonneg_r; lia.
  - apply Z.mul_lt_mono_pos_r; lia.
Qed.

Lemma shr_1_even (j : Z) :
  0 <= j ->
  shr_1 {| shr_m := 2 * j; shr_r := false; shr_s := false |} =
  {| shr_m := j; shr_r := false; shr_s := false |}.
Proof. destruct j as [ | p | p]; [reflexivity | reflexivity | lia]. Qed.

Lemma shr_iter_exact (n : nat) (k : Z) :
  0 <= k ->
  Nat.iter n shr_1 {| shr_m := k * 2 ^ Z.of_nat n; shr_r := false; shr_s := false |} =
  {| shr_m := k; shr_r := false; shr_s := false |}.
Proof.
  intros Hk. induction n as [ | n IH].
  - simpl. now rewrite Z.mul_1_r.
  - rewrite Nat.iter_succ_r.
    replace (k * 2 ^ Z.of_nat (S n)) with (2 * (k * 2 ^ Z.of_nat n))
      by (rewrite Nat2Z.inj_succ, Z.pow_succ_r by lia; ring).
    rewrite shr_1_even; [exact IH | ].
    apply Z.mul_nonneg_nonneg; [assumption | apply Z.pow_nonneg; lia].
Qed.

Lemma shr_exact (k e n : Z) :
  0 <= k -> 0 <= n ->
  shr {| shr_m := k * 2 ^ n; shr_r := false; shr_s := false |} e n =
  ({| shr_m := k; shr_r := false; shr_s := false |}, e + n).
Proof.
  intros Hk Hn. destruct n as [ | p | p]; [ | | lia].
  - simpl. now rewrite Z.mul_1_r, Z.add_0_r.
  - cbn [shr]. rewrite iter_pos_nat.
    rewrite <- (positive_nat_Z p) at 1. now rewrite shr_iter_exact.
Qed.

Lemma Zdigits2_shift (k : positive) (n : Z) :
  0 <= n -> Zdigits2 (Zpos k * 2 ^ n) = Zpos (digits2_pos k) + n.
Proof.
  intros Hn. pose proof (digits2_pos_bounds k) as [Dlo Dhi].
  assert (Hpow : 0 < 2 ^ n) by (apply Z.pow_pos_nonneg; lia).
  destruct (Zpos k * 2 ^ n) as [ | q | q] eqn:E; try nia.
  cbn [Zdigits2]. apply digits2_pos_unique. rewrite <- E.
  replace (Zpos (digits2_pos k) + n - 1) with ((Zpos (digits2_pos k) - 1) + n) by lia.
  rewrite !Z.pow_add_r by lia. split.
  - apply Z.mul_le_mono_nonneg_r; lia.
  - apply Z.mul_lt_mono_pos_r; lia.
Qed.

(** Rounding a number that fits the format returns it. *)
Lemma binary_round_aux_exact (s : bool) (k : positive) (E n : Z) :
  0 <= n ->
  Zpos (digits2_pos k) = 53 ->
  emin64 <= E + n <= emax - prec ->
  binary_round_aux prec emax s (Zpos k * 2 ^ n) E loc_Exact = S754_finite s k (E + n).
Proof.
  intros Hn Hk [Hlo Hhi]. unfold binary_round_aux, shr_fexp.
  rewrite Zdigits2_shift, Hk by assumption.
  assert (F1 : fexp prec emax (53 + n + E) - E = n).
  { rewrite fexp64. rewrite emin64_value in Hlo. lia. }
  rewrite F1. cbn [shr_record_of_loc]. rewrite shr_exact by lia.
  cbn [shr_m loc_of_shr_record round_nearest_even Zdigits2]. rewrite Hk.
  assert (F2 : fexp prec emax (53 + (E + n)) - (E + n) = 0).
  { rewrite fexp64. rewrite emin64_value in Hlo. lia. }
  rewrite F2. cbn [shr_record_of_loc shr shr_m].
  apply Z.leb_le in Hhi. now rewrite Hhi.
Qed.

Lemma SF64_exact_valid (n : Z) : 0 <= n < 2 ^ 53 -> valid_binary (SF64_exact n) = true.
Proof.
  intros [Hn Hb]. destruct n as [ | p | p]; [reflexivity | | lia].
  destruct (exact_mantissa p Hb) as (Hd & Hk & Hk53).
  cbn [SF64_exact valid_binary]. unfold bounded, canonical_mantissa.
  rewrite Hk53, fexp64. change (emax - prec) with 971.
  apply andb_true_intro. split; [apply Z.eqb_eq | apply Z.leb_le]; lia.
Qed.

Lemma SF64_of_Z_exact (n : Z) : 0 <= n < 2 ^ 53 -> SF64_of_Z n = SF64_exact n.
Proof.
  intros [Hn Hb]. destruct n as [ | p | p]; [reflexivity | | lia].
  destruct (exact_mantissa p Hb) as (Hd & Hk & Hk53).
  unfold SF64_of_Z. cbn [binary_normalize SF64_exact]. unfold binary_round.
  set (d := Zpos (digits2_pos p)) in *.
  set (k := Z.to_pos (Zpos p * 2 ^ (53 - d))) in *.
  assert (F : fexp prec emax (d + 0) = d - 53).
  { rewrite fexp64. lia. }
  rewrite F.
  pose proof (shl_align_value p 0 (d - 53) ltac:(lia)) as Hs.
  assert (He : snd (shl_align p 0 (d - 53)) = d - 53).
  { unfold shl_align. destruct (d - 53 - 0) eqn:Eq; cbn [snd]; lia. }
  destruct (shl_align p 0 (d - 53)) as [mz ez]. cbn [fst snd] in Hs, He. subst ez.
  replace (Zpos mz) with (Zpos k * 2 ^ 0)
    by (rewrite Hs, Hk, Z.pow_0_r, Z.mul_1_r; do 2 f_equal; lia).
  rewrite binary_round_aux_exact; try lia; try assumption.
  - f_equal. lia.
  - rewrite emin64_value. change (emax - prec) with 971. lia.
Qed.

Lemma digits2_pos_le (p q : positive) :
  Zpos p <= Zpos q -> Zpos (digits2_pos p) <= Zpos (digits2_pos q).
Proof.
  intros H. pose proof (digits2_pos_bounds p) as [Plo _].
  pose proof (digits2_pos_bounds q) as [_ Qhi].
  destruct (Z_le_gt_dec (Zpos (digits2_pos p)) (Zpos (digits2_pos q))) as [L | G];
    [assumption | ].
  assert (2 ^ Zpos (digits2_pos q) <= 2 ^ (Zpos (digits2_pos p) - 1))
    by (apply Z.pow_le_mono_r; lia).
  lia.
Qed.

Lemma digits2_pos_mul (p q : positive) :
  Zpos (digits2_pos p) + Zpos (digits2_pos q) - 1 <= Zpos (digits2_pos (p * q)).
Proof.
  pose proof (digits2_pos_bounds p) as [Plo _].
  pose proof (digits2_pos_bounds q) as [Qlo _].
  pose proof (digits2_pos_bounds (p * q)) as [_ Hhi].
  set (dp := Zpos (digits2_pos p)) in *. set (dq := Zpos (digits2_pos q)) in *.
  set (d := Zpos (digits2_pos (p * q))) in *.
  assert (1 <= dp) by (unfold dp; lia). assert (1 <= dq) by (unfold dq; lia).
  destruct (Z_le_gt_dec (dp + dq - 1) d) as [L | G]; [assumption | ].
  assert (Hm : 2 ^ (dp - 1) * 2 ^ (dq - 1) <= Zpos p * Zpos q).
  { apply Z.mul_le_mono_nonneg; try assumption; apply Z.pow_nonneg; lia. }
  rewrite <- Z.pow_add_r in Hm by lia.
  assert (2 ^ d <= 2 ^ (dp - 1 + (dq - 1))) by (apply Z.pow_le_mono_r; lia).
  rewrite Pos2Z.inj_mul in Hhi. lia.
Qed.

Lemma SF64mul_exact (a b : Z) :
  0 <= a -> 0 <= b -> a * b < 2 ^ 53 ->
  SF64mul (SF64_exact a) (SF64_exact b) = SF64_exact (a * b).
Proof.
  intros Ha Hb Hab.
  destruct a as [ | pa | pa]; [ | | lia].
  { destruct b; reflexivity. }
  destruct b as [ | pb | pb]; [ | | lia].
  { rewrite Z.mul_0_r. reflexivity. }
  assert (Ba : Zpos pa < 2 ^ 53) by nia.
  assert (Bb : Zpos pb < 2 ^ 53) by nia.
  change (Zpos pa * Zpos pb) with (Zpos (pa * pb)) in *.
  destruct (exact_mantissa pa Ba) as (Hda & Hka & Hka53).
  destruct (exact_mantissa pb Bb) as (Hdb & Hkb & Hkb53).
  destruct (exact_mantissa (pa * pb) Hab) as (Hdab & Hkab & Hkab53).
  pose proof (digits2_pos_mul pa pb) as Hmul.
  cbn [SF64_exact]. unfold SF64mul, SFmul. cbn [xorb].
  set (da := Zpos (digits2_pos pa)) in *. set (db := Zpos (digits2_pos pb)) in *.
  set (dab := Zpos (digits2_pos (pa * pb))) in *.
  set (ka := Z.to_pos (Zpos pa * 2 ^ (53 - da))) in *.
  set (kb := Z.to_pos (Zpos pb * 2 ^ (53 - db))) in *.
  set (kab := Z.to_pos (Zpos (pa * pb) * 2 ^ (53 - dab))) in *.
  remember (53 + dab - da - db) as n eqn:Hn.
  assert (Hprod : Zpos (ka * kb) = Zpos kab * 2 ^ n).
  { rewrite Pos2Z.inj_mul, Hka, Hkb, Hkab, Pos2Z.inj_mul.
    transitivity (Zpos pa * Zpos pb * (2 ^ (53 - da) * 2 ^ (53 - db))); [ring | ].
    rewrite <- (Z.pow_add_r 2 (53 - da) (53 - db)) by lia.
    rewrite <- (Z.mul_assoc (Zpos pa * Zpos pb)), <- (Z.pow_add_r 2 (53 - dab) n) by lia.
    do 2 f_equal. lia. }
  rewrite Hprod, binary_round_aux_exact; try assumption; try lia.
  - f_equal. lia.
  - rewrite emin64_value. change (emax - prec) with 971. lia.
Qed.

Lemma SF64add_exact (a b : Z) :
  0 <= a -> 0 <= b -> a + b < 2 ^ 53 ->
  SF64add (SF64_exact a) (SF64_exact b) = SF64_exact (a + b).
Proof.
  intros Ha Hb Hab.
  destruct a as [ | pa | pa]; [ | | lia].
  { destruct b; reflexivity. }
  destruct b as [ | pb | pb]; [ | | lia].
  { rewrite Z.add_0_r. reflexivity. }
  assert (Ba : Zpos pa < 2 ^ 53) by lia.
  assert (Bb : Zpos pb < 2 ^ 53) by lia.
  change (Zpos pa + Zpos pb) with (Zpos (pa + pb)) in *.
  destruct (exact_mantissa pa Ba) as (Hda & Hka & Hka53).
  destruct (exact_mantissa pb Bb) as (Hdb & Hkb & Hkb53).
  destruct (exact_mantissa (pa + pb) Hab) as (Hds & Hks & Hks53).
  pose proof (digits2_pos_le pa (pa + pb) ltac:(lia)) as Hle1.
  pose proof (digits2_pos_le pb (pa + pb) ltac:(lia)) as Hle2.
  cbn [SF64_exact]. unfold SF64add, SFadd. cbn [cond_Zopp].
  set (da := Zpos (digits2_pos pa)) in *. set (db := Zpos (digits2_pos pb)) in *.
  set (ds := Zpos (digits2_pos (pa + pb))) in *.
  set (ka := Z.to_pos (Zpos pa * 2 ^ (53 - da))) in *.
  set (kb := Z.to_pos (Zpos pb * 2 ^ (53 - db))) in *.
  set (ks := Z.to_pos (Zpos (pa + pb) * 2 ^ (53 - ds))) in *.
  remember (Z.min (da - 53) (db - 53)) as ez eqn:Hez.
  rewrite !shl_align_value by lia.
  remember (ds - 53 - ez) as n eqn:Hn.
  assert (Hsum : Zpos ka * 2 ^ (da - 53 - ez) + Zpos kb * 2 ^ (db - 53 - ez)
                 = Zpos ks * 2 ^ n).
  { rewrite Hka, Hkb, Hks, Pos2Z.inj_add.
    rewrite <- !Z.mul_assoc, <- !Z.pow_add_r by lia.
    replace (53 - da + (da - 53 - ez)) with (- ez) by lia.
    replace (53 - db + (db - 53 - ez)) with (- ez) by lia.
    replace (53 - ds + n) with (- ez) by lia. ring. }
  rewrite Hsum.
  assert (Hpos : 0 < Zpos ks * 2 ^ n) by (apply Z.mul_pos_pos; [lia | apply Z.pow_pos_nonneg; lia]).
  destruct (Zpos ks * 2 ^ n) as [ | S | S] eqn:ES; try lia.
  cbn [binary_normalize]. unfold binary_round.
  assert (HdS : Zpos (digits2_pos S) = 53 + n).
  { change (Zpos (digits2_pos S)) with (Zdigits2 (Zpos S)).
    rewrite <- ES, Zdigits2_shift by lia. lia. }
  rewrite HdS, fexp64.
  assert (Hal : shl_align S ez (Z.max (53 + n + ez - 53) (-1074)) = (S, ez)).
  { unfold shl_align. destruct (Z.max (53 + n + ez - 53) (-1074) - ez) eqn:E; try reflexivity.
    lia. }
  rewrite Hal, <- ES, binary_round_aux_exact; try assumption; try lia.
  - f_equal. lia.
  - rewrite emin64_value. change (emax - prec) with 971. lia.
Qed.

Lemma Prim2SF_float_of_Z (n : Z) :
  0 <= n < 2 ^ 53 -> Prim2SF (float_of_Z n) = SF64_exact n.
Proof.
  intros Hn. unfold float_of_Z. rewrite SF64_of_Z_exact by assumption.
  apply Prim2SF_SF2Prim, SF64_exact_valid, Hn.
Qed.

(** [h * 60 + min] is the integer [60 h + min] as long as that is below
    [2^53]. *)
Lemma minutes_exact (h m : Z) :
  0 <= h -> 0 <= m -> 60 * h + m < 2 ^ 53 ->
  (float_of_Z h * 60 + float_of_Z m)%float = float_of_Z (60 * h + m).
Proof.
  intros Hh Hm Hb. apply Prim2SF_inj.
  rewrite add_spec, mul_spec, !Prim2SF_float_of_Z by lia.
  change (Prim2SF 60%float) with (SF64_exact 60).
  rewrite SF64mul_exact, SF64add_exact by lia.
  f_equal. lia.
Qed.

(** ** Every integer converts to a valid number *)

Lemma div_pow2_bounds (p : positive) (k : Z) :
  0 <= k -> k < Zpos (digits2_pos p) ->
  2 ^ (Zpos (digits2_pos p) - k - 1) <= Zpos p / 2 ^ k < 2 ^ (Zpos (digits2_pos p) - k).
Proof.
  intros Hk Hd. pose proof (digits2_pos_bounds p) as [Lo Hi].
  set (d := Zpos (digits2_pos p)) in *.
  assert (Hp : 0 < 2 ^ k) by (apply Z.pow_pos_nonneg; lia).
  split.
  - apply Z.div_le_lower_bound; [assumption | ].
    rewrite <- Z.pow_add_r by lia. replace (k + (d - k - 1)) with (d - 1) by lia. assumption.
  - apply Z.div_lt_upper_bound; [assumption | ].
    rewrite <- Z.pow_add_r by lia. replace (k + (d - k)) with d by lia. assumption.
Qed.

(** A mantissa of 53 bits or more, at an exponent the format has, rounds to
    a valid number. *)
Lemma binary_round_aux_valid (s : bool) (p : positive) (e : Z) (l : location) :
  53 <= Zpos (digits2_pos p) -> emin64 <= e ->
  valid_binary (binary_round_aux prec emax s (Zpos p) e l) = true.
Proof.
  intros Hd He. rewrite emin64_value in He.
  unfold binary_round_aux, shr_fexp. cbn [Zdigits2]. rewrite fexp64.
  set (d := Zpos (digits2_pos p)) in *.
  set (k := Z.max (d + e - 53) (-1074) - e).
  assert (Hk : k = d - 53) by (unfold k; lia).
  destruct (shr_m_value (shr_record_of_loc (Zpos p) l) e k) as [Hm1 He1].
  { rewrite shr_record_of_loc_m. lia. }
  destruct (shr (shr_record_of_loc (Zpos p) l) e k) as [mrs1 e1].
  cbn [fst snd] in Hm1, He1. rewrite shr_record_of_loc_m in Hm1.
  rewrite Z.max_r in Hm1, He1 by lia.
  pose proof (div_pow2_bounds p k ltac:(lia) ltac:(fold d; lia)) as [Lo Hi].
  fold d in Lo, Hi. rewrite <- Hm1 in Lo, Hi.
  replace (d - k - 1) with 52 in Lo by lia. replace (d - k) with 53 in Hi by lia.
  set (m2 := round_nearest_even (shr_m mrs1) (loc_of_shr_record mrs1)).
  assert (Hm2 : 2 ^ 52 <= m2 <= 2 ^ 53).
  { unfold m2. destruct (loc_of_shr_record mrs1) as [ | [ | | ]]; cbn [round_nearest_even];
      try lia. destruct (Z.even (shr_m mrs1)); lia. }
  destruct m2 as [ | q | q] eqn:Eq; try lia.
  destruct (Z.eq_dec (Zpos q) (2 ^ 53)) as [Etop | Ntop].
  - (* the rounding carried into a 54th bit *)
    assert (Hq : digits2_pos q = 54%positive).
    { apply Pos2Z.inj. apply digits2_pos_unique. rewrite Etop.
      change (2 ^ (54 - 1)) with (2 ^ 53). change (2 ^ 54) with (2 * 2 ^ 53). lia. }
    cbn [Zdigits2]. rewrite Hq, fexp64.
    replace (Z.max (54 + e1 - 53) (-1074) - e1) with 1 by lia.
    cbn [shr_record_of_loc shr iter_pos]. rewrite Etop.
    change (2 ^ 53) with 9007199254740992. cbn [shr_1 shr_m].
    match goal with
    | |- context [if ?c then _ else _] => destruct c eqn:Eb; [ | reflexivity]
    end.
    cbn [valid_binary]. unfold bounded, canonical_mantissa. rewrite Eb, fexp64.
    cbn [digits2_pos Pos.succ]. apply andb_true_intro. split; [ | reflexivity].
    apply Z.eqb_eq. lia.
  - assert (Hq : Zpos (digits2_pos q) = 53).
    { apply digits2_pos_unique. change (53 - 1) with 52. lia. }
    cbn [Zdigits2]. rewrite Hq, fexp64.
    replace (Z.max (53 + e1 - 53) (-1074) - e1) with 0 by lia.
    cbn [shr_record_of_loc shr shr_m].
    match goal with
    | |- context [if ?c then _ else _] => destruct c eqn:Eb; [ | reflexivity]
    end.
    cbn [valid_binary]. unfold bounded, canonical_mantissa. rewrite Eb, Hq, fexp64.
    apply andb_true_intro. split; [ | reflexivity]. apply Z.eqb_eq. lia.
Qed.

Lemma SF64_of_Z_valid (n : Z) : 0 <= n -> valid_binary (SF64_of_Z n) = true.
Proof.
  intros Hn. destruct (Z_lt_le_dec n (2 ^ 53)) as [Small | Large].
  - rewrite SF64_of_Z_exact by lia. apply SF64_exact_valid. lia.
  - destruct n as [ | p | p]; try lia; try (exfalso; apply Large; reflexivity).
    unfold SF64_of_Z. cbn [binary_normalize]. unfold binary_round.
    assert (Hd : 54 <= Zpos (digits2_pos p)).
    { pose proof (digits2_pos_bounds p) as [_ Hi].
      destruct (Z_le_gt_dec 54 (Zpos (digits2_pos p))) as [H | H]; [assumption | ].
      assert (2 ^ Zpos (digits2_pos p) <= 2 ^ 53) by (apply Z.pow_le_mono_r; lia). lia. }
    rewrite fexp64.
    assert (Hal : shl_align p 0 (Z.max (Zpos (digits2_pos p) + 0 - 53) (-1074)) = (p, 0)).
    { unfold shl_align.
      destruct (Z.max (Zpos (digits2_pos p) + 0 - 53) (-1074) - 0) eqn:E; try reflexivity.
      lia. }
    rewrite Hal. apply binary_round_aux_valid; [lia | rewrite emin64_value; lia].
Qed.

Lemma Prim2SF_float_of_Z_any (n : Z) : 0 <= n -> Prim2SF (float_of_Z n) = SF64_of_Z n.
Proof. intros Hn. apply Prim2SF_SF2Prim, SF64_of_Z_valid, Hn. Qed.

(** A positive integer is a truthy number. *)
Lemma float_of_Z_truthy (n : Z) : 1 <= n -> truthy (JNum (float_of_Z n)) = true.
Proof.
  intros Hn. cbn [truthy]. apply negb_true_iff, orb_false_intro.
  - unfold is_zero. rewrite eqb_spec, Prim2SF_float_of_Z_any by lia.
    destruct n as [ | p | p]; try lia. unfold SF64_of_Z. cbn [binary_normalize].
    pose proof (binary_round_nonzero false p 0 ltac:(rewrite emin64_value; lia)) as H.
    change (Prim2SF zero) with (S754_zero false).
    destruct (binary_round prec emax false p 0) as [ | [ | ] | | [ | ] ? ?];
      try discriminate; reflexivity.
  - apply nonneg_number_not_nan, float_of_Z_nonneg. lia.
Qed.

(* ================================================================== *)
(** * Part V.  Facts about the sort                                     *)
(* ================================================================== *)

Section SortFacts.
Context {A : Type} (comparefn : A -> A -> float).

Lemma sort_insert_perm (x : A) (l : list A) :
  Permutation (x :: l) (sort_insert comparefn x l).
Proof.
  induction l as [ | y l IH]; simpl.
  - apply Permutation_refl.
  - destruct (0 <? comparefn x y)%float.
    + eapply perm_trans; [apply perm_swap | apply perm_skip, IH].
    + apply Permutation_refl.
Qed.

Lemma array_sort_perm (l : list A) : Permutation l (array_sort comparefn l).
Proof.
  induction l as [ | x l IH]; simpl.
  - apply perm_nil.
  - eapply perm_trans; [apply perm_skip, IH | apply sort_insert_perm].
Qed.

(** Elements the comparator never puts after one another stay as they are. *)
Lemma array_sort_id (l : list A) :
  (forall x y, In x l -> In y l -> (0 <? comparefn x y)%float = false) ->
  array_sort comparefn l = l.
Proof.
  induction l as [ | x l IH]; intros H; simpl; [reflexivity | ].
  fold (array_sort comparefn l). rewrite IH by (intros; apply H; now right).
  destruct l as [ | y l']; [reflexivity | ]. simpl.
  rewrite H; [reflexivity | now left | right; now left].
Qed.

Section Sortedness.
Variables (P : A -> Prop) (R : A -> A -> Prop).
Hypothesis not_after : forall x y, P x -> P y -> (0 <? comparefn x y)%float = false -> R x y.
Hypothesis after : forall x y, P x -> P y -> (0 <? comparefn x y)%float = true -> R y x.

Lemma sort_insert_HdRel (x y : A) (l : list A) :
  R y x -> HdRel R y l -> HdRel R y (sort_insert comparefn x l).
Proof.
  intros Hyx Hl. destruct l as [ | z l]; simpl.
  - now constructor.
  - destruct (0 <? comparefn x z)%float; constructor; [ | assumption].
    now inversion Hl.
Qed.

Lemma sort_insert_sorted (x : A) (l : list A) :
  P x -> Forall P l -> Sorted R l -> Sorted R (sort_insert comparefn x l).
Proof.
  intros Px Pl Hs. induction l as [ | y l IH]; simpl.
  - repeat constructor.
  - inversion Pl as [ | ? ? Py Pl']; subst. inversion Hs as [ | ? ? Hs' Hd]; subst.
    destruct (0 <? comparefn x y)%float eqn:E.
    + constructor; [now apply IH | ].
      apply sort_insert_HdRel; [now apply after | assumption].
    + constructor; [assumption | ]. constructor. now apply not_after.
Qed.

Lemma array_sort_sorted (l : list A) :
  Forall P l -> Sorted R (array_sort comparefn l).
Proof.
  induction l as [ | x l IH]; intros Pl; simpl.
  - constructor.
  - inversion Pl as [ | ? ? Px Pl']; subst.
    apply sort_insert_sorted; [assumption | | now apply IH].
    eapply Permutation_Forall; [apply array_sort_perm | assumption].
Qed.
End Sortedness.

(** *** Stability *)

Lemma sort_insert_split (x : A) (l : list A) :
  exists l1 l2,
    l = (l1 ++ l2)%list /\
    sort_insert comparefn x l = (l1 ++ x :: l2)%list /\
    forall y, In y l1 -> (0 <? comparefn x y)%float = true.
Proof.
  induction l as [ | y l (l1 & l2 & E & Es & H)]; simpl.
  - exists [], []. repeat split. intros y [].
  - destruct (0 <? comparefn x y)%float eqn:T.
    + exists (y :: l1), l2. simpl. rewrite Es, <- E. repeat split.
      intros z [<- | Hz]; [assumption | now apply H].
    + exists [], (y :: l). repeat split. intros z [].
Qed.

Lemma before_sort_insert_other (a b x : A) (l : list A) :
  before a b l -> before a b (sort_insert comparefn x l).
Proof.
  intros (k1 & k2 & k3 & E).
  destruct (sort_insert_split x l) as (l1 & l2 & El & Es & _).
  rewrite Es. clear Es. subst l. revert k1 El.
  induction l1 as [ | y l1 IH]; intros k1 El; simpl in *.
  - subst l2. exists (x :: k1), k2, k3. reflexivity.
  - destruct k1 as [ | z k1]; simpl in El.
    + injection El as <- El.
      (* a is the head; b is in l1 ++ l2 *)
      assert (Hb : In b (l1 ++ x :: l2)).
      { assert (In b (l1 ++ l2)) by (rewrite <- El; apply in_or_app; right; now left).
        apply in_app_or in H. apply in_or_app. destruct H; [now left | right; now right]. }
      apply in_split in Hb. destruct Hb as (m1 & m2 & Hb).
      exists [], m1, m2. simpl. now rewrite Hb.
    + injection El as <- El.
      destruct (IH k1 El) as (n1 & n2 & n3 & En).
      exists (z :: n1), n2, n3. simpl. now rewrite En.
Qed.

Lemma before_sort_insert_self (a b : A) (l : list A) :
  In b l -> (0 <? comparefn a b)%float = false ->
  before a b (sort_insert comparefn a l).
Proof.
  intros Hb T.
  destruct (sort_insert_split a l) as (l1 & l2 & El & Es & H).
  rewrite Es. subst l. apply in_app_or in Hb. destruct Hb as [Hb | Hb].
  - rewrite (H b Hb) in T. discriminate.
  - apply in_split in Hb. destruct Hb as (m1 & m2 & ->).
    exists l1, m1, m2. reflexivity.
Qed.

(** Two elements the comparator does not put in the other order keep
    their order. *)
Lemma array_sort_stable (a b : A) (l : list A) :
  before a b l -> (0 <? comparefn a b)%float = false ->
  before a b (array_sort comparefn l).
Proof.
  intros Hab T. induction l as [ | x l IH]; simpl.
  - destruct Hab as ([ | ? ?] & ? & ? & E); discriminate.
  - fold (array_sort comparefn l).
    destruct Hab as ([ | y k1] & k2 & k3 & E); simpl in E; injection E as -> ->.
    + apply before_sort_insert_self; [ | assumption].
      eapply Permutation_in; [apply array_sort_perm | ].
      apply in_or_app. right. now left.
    + apply before_sort_insert_other, IH. now exists k1, k2, k3.
Qed.
End SortFacts.

Lemma before_map {A B : Type} (f : A -> B) (a b : A) (l : list A) :
  before a b l -> before (f a) (f b) (map f l).
Proof.
  intros (l1 & l2 & l3 & ->). exists (map f l1), (map f l2), (map f l3).
  now rewrite map_app, (map_cons f a), map_app, (map_cons f b).
Qed.

Lemma Sorted_map {A B : Type} (R : A -> A -> Prop) (R' : B -> B -> Prop)
      (f : A -> B) (l : list A) :
  (forall a b, R a b -> R' (f a) (f b)) -> Sorted R l -> Sorted R' (map f l).
Proof.
  intros H Hs. induction Hs as [ | a l Hs IH Hd]; simpl; constructor.
  - assumption.
  - destruct Hd; simpl; constructor. now apply H.
Qed.

Lemma nondecreasingb_spec {A : Type} (key : A -> float) (l : list A) :
  nondecreasingb key l = true <-> nondecreasing key l.
Proof.
  unfold nondecreasing. induction l as [ | a l IH].
  - split; [constructor | reflexivity].
  - destruct l as [ | b l'].
    + split; [repeat constructor | reflexivity].
    + cbn [nondecreasingb]. rewrite andb_true_iff, IH. split.
      * intros [H1 H2]. constructor; [assumption | now constructor].
      * intros H. inversion H as [ | ? ? Hs Hd]; subst. inversion Hd; subst. now split.
Qed.

(* ================================================================== *)
(** * Part VI.  Facts about the duration parser                         *)
(* ================================================================== *)

Lemma string_app_assoc (a b c : string) : ((a ++ b) ++ c = a ++ (b ++ c))%string.
Proof. induction a as [ | x a IH]; simpl; [reflexivity | now rewrite IH]. Qed.

Lemma string_app_nil_r (a : string) : (a ++ EmptyString)%string = a.
Proof. induction a as [ | x a IH]; simpl; [reflexivity | now rewrite IH]. Qed.

Lemma span_digits_all_digits (s : string) : all_digits (fst (span_digits s)) = true.
Proof.
  induction s as [ | c s IH]; simpl; [reflexivity | ].
  destruct (is_digit c) eqn:E; [ | reflexivity].
  destruct (span_digits s) as [ds rest]. simpl in *. now rewrite E.
Qed.

(** A run of digits followed by a character that is not a digit is the
    whole span. *)
Lemma span_digits_run (ds : string) (c : ascii) (rest : string) :
  all_digits ds = true -> is_digit c = false ->
  span_digits (ds ++ String c rest) = (ds, String c rest).
Proof.
  intros Hd Hc. induction ds as [ | d ds IH]; simpl in *.
  - now rewrite Hc.
  - apply andb_prop in Hd. destruct Hd as [Hd1 Hd2].
    rewrite Hd1, (IH Hd2). reflexivity.
Qed.

Lemma match_group_run (suffix : ascii) (ds rest : string) :
  digit_run ds = true -> is_digit suffix = false ->
  match_group suffix (ds ++ String suffix rest) = (Some ds, rest).
Proof.
  intros Hd Hs. unfold match_group.
  destruct ds as [ | d ds]; [discriminate | ].
  rewrite span_digits_run by assumption.
  now rewrite Ascii.eqb_refl.
Qed.

Lemma match_group_other (suffix c : ascii) (ds rest : string) :
  all_digits ds = true -> is_digit c = false -> Ascii.eqb c suffix = false ->
  match_group suffix (ds ++ String c rest) = (None, (ds ++ String c rest)%string).
Proof.
  intros Hd Hc Hs. unfold match_group.
  rewrite span_digits_run by assumption.
  destruct ds; [reflexivity | now rewrite Hs].
Qed.

Lemma match_group_captures (suffix : ascii) (s : string) :
  optional_run (fst (match_group suffix s)) = true.
Proof.
  unfold match_group. pose proof (span_digits_all_digits s) as H.
  destruct (span_digits s) as [[ | d ds] [ | c rest]]; try reflexivity.
  destruct (Ascii.eqb c suffix); [exact H | reflexivity].
Qed.

Lemma match_duration_captures (s : string) (h m : option string) :
  match_duration s = Some (h, m) -> optional_run h = true /\ optional_run m = true.
Proof.
  unfold match_duration. destruct (after_first_PT s) as [rest | ]; [ | discriminate].
  pose proof (match_group_captures "H" rest) as Hh.
  destruct (match_group "H" rest) as [h' rest'].
  pose proof (match_group_captures "M" rest') as Hm.
  destruct (match_group "M" rest') as [m' rest''].
  intros [= <- <-]. now split.
Qed.

(** The pattern matches a text of the shape [PT<h>H<m>M] in full. *)
Lemma match_duration_text (h m : option string) :
  optional_run h = true -> optional_run m = true ->
  match_duration (duration_text h m) = Some (h, m).
Proof.
  intros Hh Hm. unfold match_duration, duration_text. cbn [append after_first_PT].
  destruct h as [hs | ], m as [ms | ]; cbn [component optional_run] in *.
  - rewrite string_app_assoc. cbn [append].
    rewrite match_group_run by (assumption || reflexivity).
    rewrite match_group_run by (assumption || reflexivity). reflexivity.
  - rewrite string_app_nil_r.
    rewrite match_group_run by (assumption || reflexivity).
    reflexivity.
  - cbn [append].
    assert (Ha : all_digits ms = true) by (destruct ms; [discriminate | assumption]).
    rewrite match_group_other by (assumption || reflexivity).
    rewrite match_group_run by (assumption || reflexivity). reflexivity.
  - reflexivity.
Qed.

Lemma after_first_PT_step (c : ascii) (s : string) :
  after_first_PT (String c s) =
  match s with
  | String c' s' =>
      if Ascii.eqb c "P" && Ascii.eqb c' "T" then Some s' else after_first_PT s
  | EmptyString => None
  end.
Proof.
  destruct s as [ | c' s'];
    destruct c as [[ | ] [ | ] [ | ] [ | ] [ | ] [ | ] [ | ] [ | ]]; try reflexivity.
  destruct c' as [[ | ] [ | ] [ | ] [ | ] [ | ] [ | ] [ | ] [ | ]]; reflexivity.
Qed.

(** The pattern finds no match exactly when the text contains no [PT]. *)
Lemma after_first_PT_none (s : string) :
  after_first_PT s = None <-> ~ is_substring "PT" s.
Proof.
  split.
  - intros H (pre & post & E). subst s. revert H.
    induction pre as [ | c pre IH]; [simpl; discriminate | ].
    change (after_first_PT (String c (pre ++ "PT" ++ post)) = None -> False).
    rewrite after_first_PT_step.
    destruct (pre ++ "PT" ++ post)%string as [ | c' s'] eqn:E.
    { destruct pre; discriminate. }
    destruct (Ascii.eqb c "P" && Ascii.eqb c' "T"); [intros [=] | exact IH].
  - intros H. induction s as [ | c s IH]; [reflexivity | ].
    assert (Hs : ~ is_substring "PT" s).
    { intros (pre & post & E). apply H. exists (String c pre), post. simpl. now rewrite E. }
    specialize (IH Hs). rewrite after_first_PT_step.
    destruct s as [ | c' s']; [reflexivity | ].
    destruct (Ascii.eqb c "P" && Ascii.eqb c' "T") eqn:E; [ | exact IH].
    apply andb_prop in E. destruct E as [E1 E2].
    apply Ascii.eqb_eq in E1, E2. subst c c'.
    exfalso. apply H. exists EmptyString, s'. reflexivity.
Qed.

Lemma digit_value_nonneg (c : ascii) : is_digit c = true -> 0 <= digit_value c <= 9.
Proof.
  unfold is_digit, digit_value. intros H. apply andb_prop in H. destruct H as [H1 H2].
  apply Nat.leb_le in H1, H2. lia.
Qed.

Lemma decimal_value_from_nonneg (s : string) (acc : Z) :
  all_digits s = true -> 0 <= acc -> 0 <= decimal_value_from acc s.
Proof.
  revert acc. induction s as [ | c s IH]; intros acc Hd Ha;
    cbn [decimal_value_from all_digits] in *; [assumption | ].
  apply andb_prop in Hd. destruct Hd as [Hc Hs].
  apply IH; [assumption | ]. pose proof (digit_value_nonneg c Hc). lia.
Qed.

Lemma capture_value_nonneg (c : option string) :
  optional_run c = true -> nonneg_number (capture_value c) = true.
Proof.
  destruct c as [ds | ]; simpl; intros H; [ | reflexivity].
  apply float_of_Z_nonneg, decimal_value_from_nonneg; [ | lia].
  destruct ds; [discriminate | assumption].
Qed.

Lemma Prim2SF_sixty : Prim2SF 60%float = S754_finite false 8444249301319680 (-47).
Proof. reflexivity. Qed.

(** The sum [h * 60 + min] of two numbers that are not below zero is not
    below zero; in particular it is not [NaN]. *)
Lemma minutes_nonneg (h min : float) :
  nonneg_number h = true -> nonneg_number min = true ->
  nonneg_number (h * 60 + min) = true.
Proof.
  unfold nonneg_number. intros Hh Hm.
  rewrite add_spec, mul_spec, Prim2SF_sixty.
  apply SFadd_nonneg; [ | assumption]. now apply SFmul_nonneg.
Qed.

(** The conversion to text throws nothing but a [TypeError], and throws it
    exactly on the values that have no text. *)
Lemma ToString_has_text (v : JSValue) : has_text v = true -> ToString v = Ok (text_of v).
Proof. unfold has_text, ToString. now destruct (ToPrimitive_throws v). Qed.

Lemma ToString_no_text (v : JSValue) : has_text v = false -> ToString v = Threw TypeError.
Proof. unfold has_text, ToString. now destruct (ToPrimitive_throws v). Qed.

Lemma ToString_Ok (v : JSValue) (s : string) :
  ToString v = Ok s -> has_text v = true /\ s = text_of v.
Proof.
  unfold has_text, ToString. destruct (ToPrimitive_throws v); [discriminate | ].
  intros [= <-]. now split.
Qed.

Lemma ToString_Threw (v : JSValue) (e : JSError) :
  ToString v = Threw e -> has_text v = false /\ e = TypeError.
Proof.
  unfold has_text, ToString. destruct (ToPrimitive_throws v); [ | discriminate].
  intros [= <-]. now split.
Qed.

Lemma parseISODurationToMinutes_text (s : string) :
  parseISODurationToMinutes (JStr s) =
  Ok (capture_value (match match_duration s with Some (h, _) => h | None => None end) * 60
      + capture_value (match match_duration s with Some (_, m) => m | None => None end))%float.
Proof. reflexivity. Qed.

Lemma parseISODurationToMinutes_has_text (iso : JSValue) :
  has_text iso = true ->
  parseISODurationToMinutes iso = parseISODurationToMinutes (JStr (text_of iso)).
Proof.
  intros H. unfold parseISODurationToMinutes. now rewrite (ToString_has_text iso H).
Qed.

Lemma parseISODurationToMinutes_no_text (iso : JSValue) :
  has_text iso = false -> parseISODurationToMinutes iso = Threw TypeError.
Proof.
  intros H. unfold parseISODurationToMinutes. now rewrite (ToString_no_text iso H).
Qed.

Lemma parseISODurationToMinutes_nonneg (iso : JSValue) (x : float) :
  parseISODurationToMinutes iso = Ok x -> nonneg_number x = true.
Proof.
  unfold parseISODurationToMinutes. destruct (ToString iso) as [text | e]; [ | discriminate].
  cbn [bind]. intros [= <-].
  destruct (match_duration text) as [[h m] | ] eqn:E.
  - apply match_duration_captures in E. destruct E as [Hh Hm].
    apply minutes_nonneg; now apply capture_value_nonneg.
  - reflexivity.
Qed.

Lemma parseISODurationToMinutes_total (iso : JSValue) :
  has_text iso = true -> parseISODurationToMinutes iso = Ok (minutes_of iso).
Proof.
  intros H. unfold minutes_of. rewrite (parseISODurationToMinutes_has_text iso H).
  now rewrite parseISODurationToMinutes_text.
Qed.

Lemma parseISODurationToMinutes_Ok (iso : JSValue) (x : float) :
  parseISODurationToMinutes iso = Ok x -> has_text iso = true /\ x = minutes_of iso.
Proof.
  intros H. destruct (has_text iso) eqn:E.
  - split; [reflexivity | ]. rewrite (parseISODurationToMinutes_total iso E) in H. congruence.
  - rewrite (parseISODurationToMinutes_no_text iso E) in H. discriminate.
Qed.

Lemma parseISODurationToMinutes_Threw (iso : JSValue) (e : JSError) :
  parseISODurationToMinutes iso = Threw e -> has_text iso = false /\ e = TypeError.
Proof.
  intros H. destruct (has_text iso) eqn:E.
  - rewrite (parseISODurationToMinutes_total iso E) in H. discriminate.
  - rewrite (parseISODurationToMinutes_no_text iso E) in H. injection H as <-. now split.
Qed.

Lemma minutes_of_nonneg (iso : JSValue) : nonneg_number (minutes_of iso) = true.
Proof.
  unfold minutes_of. destruct (parseISODurationToMinutes iso) as [x | e] eqn:E.
  - exact (parseISODurationToMinutes_nonneg iso x E).
  - reflexivity.
Qed.

(* ================================================================== *)
(** * Part VII.  Facts about the mapping and the ranking                *)
(* ================================================================== *)

(** ** The result monad *)

Lemma bind_Ok {A B : Type} (r : result A) (k : A -> result B) (b : B) :
  bind r k = Ok b -> exists a, r = Ok a /\ k a = Ok b.
Proof. destruct r as [a | e]; simpl; [eauto | discriminate]. Qed.

Ltac bind_inv H :=
  let a := fresh "v" in
  let E := fresh "E" in
  apply bind_Ok in H; destruct H as (a & E & H).

Lemma mapM_idx_nth {A B : Type} (f : nat -> A -> result B) (l : list A) (i : nat)
      (bs : list B) :
  mapM_idx f i l = Ok bs ->
  List.length bs = List.length l /\
  forall n a, nth_error l n = Some a ->
              exists b, nth_error bs n = Some b /\ f (i + n)%nat a = Ok b.
Proof.
  revert i bs. induction l as [ | a l IH]; intros i bs H; simpl in H.
  - injection H as <-. split; [reflexivity | ]. intros [ | n] ? [=].
  - bind_inv H. bind_inv H. injection H as <-.
    destruct (IH _ _ E0) as [Hlen Hnth]. split; [simpl; now f_equal | ].
    intros [ | n] a' Hn; simpl in Hn.
    + injection Hn as <-. exists v. rewrite Nat.add_0_r. now split.
    + destruct (Hnth n a' Hn) as (b & Hb & Hf). exists b. split; [assumption | ].
      now rewrite <- Nat.add_succ_comm.
Qed.

Lemma mapM_idx_Forall {A B : Type} (f : nat -> A -> result B) (P : B -> Prop)
      (l : list A) (i : nat) (bs : list B) :
  (forall n a b, f n a = Ok b -> P b) -> mapM_idx f i l = Ok bs -> Forall P bs.
Proof.
  intros Hf. revert i bs. induction l as [ | a l IH]; intros i bs H; simpl in H.
  - injection H as <-. constructor.
  - bind_inv H. bind_inv H. injection H as <-. constructor; eauto.
Qed.

Lemma mapM_idx_total {A B : Type} (f : nat -> A -> result B) (l : list A) (i : nat) :
  Forall (fun a => forall n, exists b, f n a = Ok b) l ->
  exists bs, mapM_idx f i l = Ok bs.
Proof.
  intros H. revert i. induction H as [ | a l Ha _ IH]; intros i; simpl.
  - now exists [].
  - destruct (Ha i) as (b & ->). destruct (IH (S i)) as (bs & ->). simpl. now exists (b :: bs).
Qed.

(** ** What the mapping stage establishes *)

Lemma map_offer_fields (idx : nat) (offer : JSValue) (o : Option) :
  map_offer idx offer = Ok o ->
  _score o = None /\
  nonneg_number (totalDurationMin o) = true /\
  transfers o = Z.max 0 (Z.of_nat (List.length (legs o)) - 1) /\
  provider o = "AMADEUS"%string /\ notes o = [].
Proof.
  unfold map_offer. intros H.
  apply bind_Ok in H. destruct H as (itineraries & E1 & H).
  apply bind_Ok in H. destruct H as (itin & E2 & H).
  apply bind_Ok in H. destruct H as (segments & E3 & H).
  apply bind_Ok in H. destruct H as (segs & E4 & H).
  apply bind_Ok in H. destruct H as (legs_ & E5 & H).
  apply bind_Ok in H. destruct H as (duration & E6 & H).
  apply bind_Ok in H. destruct H as (total_minutes & E7 & H).
  repeat bind_inv H. injection H as <-. cbn.
  repeat split. exact (parseISODurationToMinutes_nonneg _ _ E7).
Qed.

Lemma map_offers_fields (data : list JSValue) (mapped : list Option) :
  map_offers data = Ok mapped ->
  Forall (fun o => _score o = None /\ nonneg_number (totalDurationMin o) = true) mapped.
Proof.
  apply mapM_idx_Forall. intros n a b H.
  destruct (map_offer_fields n a b H) as (H1 & H2 & _). now split.
Qed.

Lemma delete_set_score (s : option float) (m : Option) :
  _score m = None -> delete_score (set_score s m) = m.
Proof. destruct m; cbn; intros ->; reflexivity. Qed.

(** ** The three branches of the ranking *)

Lemma local_sort_shortest (mapped : list Option) :
  local_sort (JStr "shortest") mapped = array_sort by_duration mapped.
Proof. reflexivity. Qed.

Lemma local_sort_cheapest (mapped : list Option) :
  local_sort (JStr "cheapest") mapped = array_sort by_price mapped.
Proof. reflexivity. Qed.

Lemma strict_equals_string_false (v : JSValue) (text : string) :
  v <> JStr text -> strict_equals_string v text = false.
Proof.
  destruct v as [ | | | | s | | | ]; try reflexivity. intros H. simpl.
  apply String.eqb_neq. congruence.
Qed.

Lemma local_sort_balanced (q_optimize : JSValue) (mapped : list Option) :
  q_optimize <> JStr "shortest" -> q_optimize <> JStr "cheapest" ->
  local_sort q_optimize mapped =
  map delete_score
    (array_sort by_score
       (map (fun m => set_score (Some (score_in mapped m)) m) mapped)).
Proof.
  intros H1 H2. unfold local_sort, js_or.
  destruct (truthy q_optimize).
  - now rewrite !strict_equals_string_false by assumption.
  - reflexivity.
Qed.

Lemma comparator_sorts {A : Type} (key : A -> float) (l : list A) :
  Forall (fun a => is_nan (key a) = false) l ->
  nondecreasing key (array_sort (fun a b => (key a - key b)%float) l).
Proof.
  intros H. unfold nondecreasing.
  apply array_sort_sorted with (P := fun a => is_nan (key a) = false); [ | | assumption].
  - intros x y Hx Hy T. rewrite float_sub_positive in T by assumption.
    now apply float_not_lt_le.
  - intros x y Hx Hy T. rewrite float_sub_positive in T by assumption.
    now apply float_lt_le.
Qed.

Lemma balanced_sorted (mapped : list Option) :
  Forall (fun o => _score o = None) mapped ->
  Forall (fun o => is_nan (score_in mapped o) = false) mapped ->
  nondecreasing (score_in mapped)
    (map delete_score
       (array_sort by_score (map (fun m => set_score (Some (score_in mapped m)) m) mapped))).
Proof.
  intros Hs Hn. unfold nondecreasing.
  apply Sorted_map
    with (R := fun a b => (score_in mapped (delete_score a)
                           <=? score_in mapped (delete_score b))%float = true);
    [trivial | ].
  apply array_sort_sorted
    with (P := fun e => score_or_zero e = score_in mapped (delete_score e)
                        /\ is_nan (score_or_zero e) = false).
  - intros x y [Ex Nx] [Ey Ny] T. unfold by_score in T.
    rewrite float_sub_positive in T by assumption.
    rewrite <- Ex, <- Ey. now apply float_not_lt_le.
  - intros x y [Ex Nx] [Ey Ny] T. unfold by_score in T.
    rewrite float_sub_positive in T by assumption.
    rewrite <- Ex, <- Ey. now apply float_lt_le.
  - apply Forall_forall. intros e He. apply in_map_iff in He.
    destruct He as (m & <- & Hm). split; [reflexivity | ].
    rewrite Forall_forall in Hn. exact (Hn m Hm).
Qed.

Lemma local_sort_no_score (q_optimize : JSValue) (mapped : list Option) :
  Forall (fun o => _score o = None) mapped ->
  Forall (fun o => _score o = None) (local_sort q_optimize mapped).
Proof.
  intros H. unfold local_sort.
  destruct (strict_equals_string _ "shortest").
  { eapply Permutation_Forall; [apply array_sort_perm | assumption]. }
  destruct (strict_equals_string _ "cheapest").
  { eapply Permutation_Forall; [apply array_sort_perm | assumption]. }
  apply Forall_forall. intros o Ho. apply in_map_iff in Ho.
  destruct Ho as (e & <- & _). reflexivity.
Qed.

Lemma local_sort_perm (q_optimize : JSValue) (mapped : list Option) :
  Forall (fun o => _score o = None) mapped ->
  Permutation mapped (local_sort q_optimize mapped).
Proof.
  intros H. unfold local_sort.
  destruct (strict_equals_string _ "shortest"); [apply array_sort_perm | ].
  destruct (strict_equals_string _ "cheapest"); [apply array_sort_perm | ].
  match goal with
  | |- Permutation _ (map delete_score (array_sort ?c (map ?f mapped))) =>
      apply perm_trans with (map delete_score (map f mapped));
      [ | apply Permutation_map, array_sort_perm]
  end.
  rewrite map_map. rewrite <- (map_id mapped) at 1.
  rewrite Forall_forall in H.
  erewrite map_ext_in; [reflexivity | ].
  intros m Hm. cbn beta. symmetry. apply delete_set_score. now apply H.
Qed.

(* ================================================================== *)
(** * Part VIII.  The claims                                            *)
(* ================================================================== *)

(** ** The ranking *)

(** C2 (as amended).  On the options the mapping stage produced: under
    ["shortest"] the ranking returns a sequence non-decreasing in
    [totalDurationMin]; under ["cheapest"], provided no price is [NaN], one
    non-decreasing in [price]; under any other value of [optimize]
    (["balanced"], an unknown value or none), provided no score is [NaN],
    one non-decreasing in the score
    [0.5 * ((price - minP) / max(1, maxP - minP))
     + 0.5 * ((duration - minT) / max(1, maxT - minT))];
    and in every case no returned option carries a [_score]. *)
Theorem local_sort_nondecreasing
        (data : list JSValue) (mapped : list Option) (q_optimize : JSValue) :
  map_offers data = Ok mapped ->
  (q_optimize = JStr "shortest" ->
   nondecreasing totalDurationMin (local_sort q_optimize mapped))
  /\ (q_optimize = JStr "cheapest" ->
      Forall (fun o => is_nan (price o) = false) mapped ->
      nondecreasing price (local_sort q_optimize mapped))
  /\ (q_optimize <> JStr "shortest" -> q_optimize <> JStr "cheapest" ->
      Forall (fun o => is_nan (score_in mapped o) = false) mapped ->
      nondecreasing (score_in mapped) (local_sort q_optimize mapped))
  /\ (forall o,
        score_in mapped o =
        (0.5 * ((price o - Math_min (map price mapped))
                / Math_max [1; Math_max (map price mapped) - Math_min (map price mapped)])
         + 0.5 * ((totalDurationMin o - Math_min (map totalDurationMin mapped))
                  / Math_max [1; Math_max (map totalDurationMin mapped)
                                 - Math_min (map totalDurationMin mapped)]))%float)
  /\ Forall (fun o => _score o = None) (local_sort q_optimize mapped).
Proof.
  intros Hmap. pose proof (map_offers_fields _ _ Hmap) as Hf.
  assert (Hs : Forall (fun o => _score o = None) mapped).
  { eapply Forall_impl; [ | exact Hf]. now intros o [H _]. }
  assert (Hd : Forall (fun o => is_nan (totalDurationMin o) = false) mapped).
  { eapply Forall_impl; [ | exact Hf]. intros o [_ H]. now apply nonneg_number_not_nan. }
  repeat split.
  - intros ->. rewrite local_sort_shortest. now apply comparator_sorts.
  - intros -> Hp. rewrite local_sort_cheapest. now apply comparator_sorts.
  - intros H1 H2 Hn. rewrite local_sort_balanced by assumption. now apply balanced_sorted.
  - now apply local_sort_no_score.
Qed.

Lemma local_sort_nondecreasing_witness :
  nondecreasing price (local_sort (JStr "cheapest") sample_mapped)
  /\ nondecreasing totalDurationMin (local_sort (JStr "shortest") sample_mapped)
  /\ nondecreasing (score_in sample_mapped) (local_sort (JStr "balanced") sample_mapped).
Proof.
  assert (H : map_offers sample_data = Ok sample_mapped) by reflexivity.
  split; [ | split].
  - apply (proj1 (proj2 (local_sort_nondecreasing _ _ (JStr "cheapest") H)) eq_refl).
    repeat constructor.
  - apply (proj1 (local_sort_nondecreasing _ _ (JStr "shortest") H) eq_refl).
  - apply (proj1 (proj2 (proj2 (local_sort_nondecreasing _ _ (JStr "balanced") H))));
      try discriminate.
    repeat constructor.
Defined.

(** C2, as stated, fails: of three options priced 3, [NaN] (the upstream
    total was ["N/A"]) and 1, the ["cheapest"] ranking returns them in that
    order, which is not non-decreasing in price. *)
Lemma local_sort_cheapest_with_NaN :
  map_offers unpriced_data = Ok unpriced_mapped
  /\ map price unpriced_mapped = [3; nan; 1]%float
  /\ map price (local_sort (JStr "cheapest") unpriced_mapped) = [3; nan; 1]%float
  /\ nondecreasingb price (local_sort (JStr "cheapest") unpriced_mapped) = false.
Proof. repeat split. Qed.

Lemma before_In {A : Type} (a b : A) (l : list A) : before a b l -> In a l /\ In b l.
Proof.
  intros (l1 & l2 & l3 & ->). split; apply in_or_app; right.
  - now left.
  - right. apply in_or_app. right. now left.
Qed.

Lemma score_in_ext (mapped : list Option) (a b : Option) :
  price a = price b -> totalDurationMin a = totalDurationMin b ->
  score_in mapped a = score_in mapped b.
Proof. unfold score_in, balanced_score. now intros -> ->. Qed.

(** C5 (as amended).  When all mapped options have the same price, the
    ["cheapest"] ranking returns them in exactly the mapping order; the
    balanced ranking keeps every two options of equal [totalDurationMin] in
    their mapping order, and so returns exactly the mapping order when all
    durations are equal too. *)
Theorem same_price_keeps_order
        (data : list JSValue) (mapped : list Option) (p : float) :
  map_offers data = Ok mapped ->
  Forall (fun o => price o = p) mapped ->
  local_sort (JStr "cheapest") mapped = mapped
  /\ (forall q_optimize a b,
        q_optimize <> JStr "shortest" -> q_optimize <> JStr "cheapest" ->
        before a b mapped -> totalDurationMin a = totalDurationMin b ->
        before a b (local_sort q_optimize mapped))
  /\ (forall q_optimize t,
        q_optimize <> JStr "shortest" -> q_optimize <> JStr "cheapest" ->
        Forall (fun o => totalDurationMin o = t) mapped ->
        local_sort q_optimize mapped = mapped).
Proof.
  intros Hmap Hp. pose proof (map_offers_fields _ _ Hmap) as Hf.
  assert (Hs : forall o, In o mapped -> _score o = None).
  { rewrite Forall_forall in Hf. intros o Ho. now destruct (Hf o Ho). }
  rewrite Forall_forall in Hp.
  split; [ | split].
  - rewrite local_sort_cheapest. apply array_sort_id. intros x y Hx Hy.
    unfold by_price. rewrite (Hp x Hx), (Hp y Hy). apply float_sub_self.
  - intros q a b H1 H2 Hab Ht. rewrite local_sort_balanced by assumption.
    destruct (before_In _ _ _ Hab) as [Ha Hb].
    assert (Hsorted :
              before (set_score (Some (score_in mapped a)) a)
                     (set_score (Some (score_in mapped b)) b)
                     (array_sort by_score
                        (map (fun m => set_score (Some (score_in mapped m)) m) mapped))).
    { apply array_sort_stable.
      - now apply (before_map (fun m => set_score (Some (score_in mapped m)) m)).
      - unfold by_score, score_or_zero. cbn [_score set_score].
        rewrite (score_in_ext mapped a b); [apply float_sub_self | | assumption].
        now rewrite (Hp a Ha), (Hp b Hb). }
    apply (before_map delete_score) in Hsorted.
    now rewrite !delete_set_score in Hsorted by now apply Hs.
  - intros q t H1 H2 Ht. rewrite Forall_forall in Ht.
    rewrite local_sort_balanced by assumption.
    rewrite array_sort_id.
    + rewrite map_map. transitivity (map (fun m => m) mapped); [ | apply map_id].
      apply map_ext_in. intros m Hm. apply delete_set_score. now apply Hs.
    + intros x y Hx Hy. apply in_map_iff in Hx, Hy.
      destruct Hx as (m & <- & Hm), Hy as (m' & <- & Hm').
      unfold by_score, score_or_zero. cbn [_score set_score].
      rewrite (score_in_ext mapped m m'); [apply float_sub_self | | ].
      * now rewrite (Hp m Hm), (Hp m' Hm').
      * now rewrite (Ht m Hm), (Ht m' Hm').
Qed.

Lemma same_price_keeps_order_witness :
  local_sort (JStr "cheapest") twin_mapped = twin_mapped
  /\ local_sort (JStr "balanced") twin_mapped = twin_mapped.
Proof.
  assert (H : map_offers twin_data = Ok twin_mapped) by reflexivity.
  assert (Hp : Forall (fun o => price o = 100%float) twin_mapped) by (repeat constructor).
  split.
  - apply (proj1 (same_price_keeps_order _ _ _ H Hp)).
  - apply (proj2 (proj2 (same_price_keeps_order _ _ _ H Hp)) (JStr "balanced") 120%float);
      try discriminate.
    repeat constructor.
Defined.

(** C5, as stated, fails for the balanced ranking: two options of price 100
    mapped in the order slow (120 minutes), fast (60 minutes) come back in
    the order fast, slow. *)
Lemma same_price_balanced_reorders :
  map_offers same_price_data = Ok same_price_mapped
  /\ map price same_price_mapped = [100; 100]%float
  /\ map id same_price_mapped = [JStr "slow"; JStr "fast"]
  /\ map id (local_sort (JStr "balanced") same_price_mapped) = [JStr "fast"; JStr "slow"].
Proof. repeat split. Qed.

(** C10.  The ranking returns a permutation of the mapped options: the
    same records, every field as the mapping set it, in a new order, and
    none with a [_score]. *)
Theorem local_sort_permutation
        (data : list JSValue) (mapped : list Option) (q_optimize : JSValue) :
  map_offers data = Ok mapped ->
  Permutation mapped (local_sort q_optimize mapped)
  /\ Forall (fun o => _score o = None) (local_sort q_optimize mapped).
Proof.
  intros Hmap. pose proof (map_offers_fields _ _ Hmap) as Hf.
  assert (Hs : Forall (fun o => _score o = None) mapped).
  { eapply Forall_impl; [ | exact Hf]. now intros o [H _]. }
  split; [now apply local_sort_perm | now apply local_sort_no_score].
Qed.

Lemma local_sort_permutation_witness :
  Permutation sample_mapped (local_sort (JStr "cheapest") sample_mapped)
  /\ Forall (fun o => _score o = None) (local_sort (JStr "cheapest") sample_mapped).
Proof. apply (local_sort_permutation sample_data). reflexivity. Defined.

(** ** The duration parser *)

Lemma capture_value_component (c : option string) :
  capture_value c = float_of_Z (component_value c).
Proof. destruct c; reflexivity. Qed.

Lemma component_value_nonneg (c : option string) :
  optional_run c = true -> 0 <= component_value c.
Proof.
  destruct c as [ds | ]; simpl; [ | lia]. intros H.
  apply decimal_value_from_nonneg; [ | lia]. destruct ds; [discriminate | assumption].
Qed.

(** C3 (as amended).  [parseISODurationToMinutes] returns a number, never
    [NaN] and never below zero, for every input that converts to text:
    every text, number and boolean, [undefined], [null], and every object
    and array but an object that has an own property [toString] and an
    array that holds one; on these it throws a [TypeError].  On a text of
    the shape [PT<h>H<m>M], either component optionally absent, it returns
    [60*h + m] whenever that is below [2^53] (so 150, 45 and 180 on the
    three examples).  On an input whose text contains no [PT], such as
    ["garbage"], [undefined] or [null], it returns 0. *)
Theorem parseISODurationToMinutes_spec :
  (forall h m : option string,
      optional_run h = true -> optional_run m = true ->
      60 * component_value h + component_value m < 2 ^ 53 ->
      parseISODurationToMinutes (JStr (duration_text h m))
      = Ok (float_of_Z (60 * component_value h + component_value m)))
  /\ parseISODurationToMinutes (JStr "PT2H30M") = Ok 150%float
  /\ parseISODurationToMinutes (JStr "PT45M") = Ok 45%float
  /\ parseISODurationToMinutes (JStr "PT3H") = Ok 180%float
  /\ parseISODurationToMinutes (JStr "garbage") = Ok 0%float
  /\ parseISODurationToMinutes JUndefined = Ok 0%float
  /\ parseISODurationToMinutes JNull = Ok 0%float
  /\ (forall iso : JSValue,
         has_text iso = true -> ~ is_substring "PT" (text_of iso) ->
         parseISODurationToMinutes iso = Ok 0%float)
  /\ (forall iso : JSValue,
         has_text iso = true ->
         exists x, parseISODurationToMinutes iso = Ok x /\ nonneg_number x = true)
  /\ (forall iso : JSValue,
         has_text iso = false -> parseISODurationToMinutes iso = Threw TypeError)
  /\ (forall iso : JSValue,
         has_text iso =
         match iso with
         | JObj fields => negb (has_own "toString" fields)
         | JArr items => forallb has_text items
         | _ => true
         end).
Proof.
  repeat split.
  - intros h m Hh Hm Hb. rewrite parseISODurationToMinutes_text.
    rewrite match_duration_text by assumption.
    rewrite !capture_value_component. f_equal.
    apply minutes_exact; try assumption; now apply component_value_nonneg.
  - intros iso Ht H. apply after_first_PT_none in H.
    rewrite (parseISODurationToMinutes_has_text iso Ht), parseISODurationToMinutes_text.
    unfold match_duration. now rewrite H.
  - intros iso Ht. exists (minutes_of iso).
    split; [now apply parseISODurationToMinutes_total | apply minutes_of_nonneg].
  - apply parseISODurationToMinutes_no_text.
  - intros iso. unfold has_text. destruct iso as [ | | b | x | s | items | fields | name];
      try reflexivity.
    cbn [ToPrimitive_throws]. induction items as [ | v items IH]; [reflexivity | ].
    cbn [existsb forallb]. rewrite negb_orb. now rewrite IH.
Qed.

Lemma parseISODurationToMinutes_spec_witness :
  parseISODurationToMinutes (JStr (duration_text (Some "2"%string) (Some "30"%string)))
  = Ok (float_of_Z (60 * 2 + 30))
  /\ parseISODurationToMinutes (JNum 90) = Ok 0%float
  /\ parseISODurationToMinutes (JArr [JObj [("toString", JStr "PT1H")]%string])
     = Threw TypeError.
Proof.
  split; [ | split].
  - apply (proj1 parseISODurationToMinutes_spec (Some "2"%string) (Some "30"%string));
      reflexivity.
  - apply (proj1 (proj2 (proj2 (proj2 (proj2 (proj2 (proj2 (proj2
             parseISODurationToMinutes_spec)))))))); [reflexivity | ].
    apply after_first_PT_none. reflexivity.
  - apply (proj1 (proj2 (proj2 (proj2 (proj2 (proj2 (proj2 (proj2 (proj2 (proj2
             parseISODurationToMinutes_spec)))))))))).
    reflexivity.
Defined.

(** C3, as stated, fails on malformed input that merely contains a
    duration: ["xPT5M"] is not of the shape [PT<h>H<m>M], yet the result is
    5, not 0.  And it fails on an input that has no text: on the object
    [{toString: 1}] the conversion [String(iso)] throws a [TypeError]. *)
Lemma parseISODurationToMinutes_unanchored :
  parseISODurationToMinutes (JStr "xPT5M") = Ok 5%float
  /\ is_zero 5 = false
  /\ parseISODurationToMinutes (JStr "2 days, PT3H") = Ok 180%float
  /\ parseISODurationToMinutes (JObj [("toString", JNum 1)]%string) = Threw TypeError.
Proof. repeat split. Qed.

(** ** The mapping *)

Lemma get_nullish (v : JSValue) (k : string) :
  nullish v = true -> get v k = Threw TypeError.
Proof. destruct v; try discriminate; reflexivity. Qed.

Lemma get_not_nullish (v : JSValue) (k : string) :
  nullish v = false -> exists x, get v k = Ok x.
Proof.
  destruct v as [ | | b | x | s | items | fields | name]; try discriminate; intros _;
    cbn [get]; eauto;
    destruct (String.eqb k "length"); eauto; destruct (String.eqb k "at"); eauto.
Qed.

Lemma get_Ok_not_nullish (v : JSValue) (k : string) (x : JSValue) :
  get v k = Ok x -> nullish v = false.
Proof. destruct v; try discriminate; reflexivity. Qed.

Lemma get_Threw (v : JSValue) (k : string) (e : JSError) :
  get v k = Threw e -> e = TypeError /\ nullish v = true.
Proof.
  destruct v as [ | | b | x | s | items | fields | name]; cbn [get];
    try (intros [= <-]; now split); try discriminate;
    destruct (String.eqb k "length"); try discriminate;
    destruct (String.eqb k "at"); discriminate.
Qed.

Lemma bind_Threw {A B : Type} (r : result A) (k : A -> result B) (e : JSError) :
  bind r k = Threw e -> r = Threw e \/ exists a, r = Ok a /\ k a = Threw e.
Proof.
  destruct r as [a | e']; simpl; intros H;
    [right; exists a; now split | left; now injection H as ->].
Qed.

Lemma as_array_for_map_Threw (v : JSValue) (e : JSError) :
  as_array_for_map v = Threw e -> e = TypeError.
Proof. destruct v; cbn [as_array_for_map]; congruence. Qed.

Lemma get0_Threw (v : JSValue) (e : JSError) : get0 v = Threw e -> e = TypeError.
Proof. destruct v as [ | | | | [ | ? ?] | | | ]; cbn [get0]; congruence. Qed.

Lemma mapM_Threw {A B : Type} (f : A -> result B) (l : list A) (e : JSError) :
  (forall a e', f a = Threw e' -> e' = TypeError) ->
  mapM f l = Threw e -> e = TypeError.
Proof.
  intros Hf. induction l as [ | a l IH]; cbn [mapM]; [discriminate | ].
  intros H. apply bind_Threw in H. destruct H as [H | (b & _ & H)]; [now apply (Hf a) | ].
  apply bind_Threw in H. destruct H as [H | (bs & _ & H)]; [now apply IH | discriminate].
Qed.

Lemma mapM_idx_Threw {A B : Type} (f : nat -> A -> result B) (l : list A) (i : nat)
      (e : JSError) :
  (forall n a e', f n a = Threw e' -> e' = TypeError) ->
  mapM_idx f i l = Threw e -> e = TypeError.
Proof.
  intros Hf. revert i. induction l as [ | a l IH]; intros i; cbn [mapM_idx]; [discriminate | ].
  intros H. apply bind_Threw in H. destruct H as [H | (b & _ & H)]; [now apply (Hf i a) | ].
  apply bind_Threw in H. destruct H as [H | (bs & _ & H)]; [now apply (IH (S i)) | discriminate].
Qed.

Lemma mapM_Ok_Forall {A B : Type} (f : A -> result B) (l : list A) (bs : list B) :
  mapM f l = Ok bs -> Forall (fun a => exists b, f a = Ok b) l.
Proof.
  revert bs. induction l as [ | a l IH]; intros bs H; [constructor | ].
  cbn [mapM] in H. apply bind_Ok in H. destruct H as (b & E & H).
  apply bind_Ok in H. destruct H as (bs' & E' & _). constructor; eauto.
Qed.

Lemma mapM_idx_Ok_Forall {A B : Type} (f : nat -> A -> result B) (l : list A) (i : nat)
      (bs : list B) :
  mapM_idx f i l = Ok bs -> Forall (fun a => exists n b, f n a = Ok b) l.
Proof.
  revert i bs. induction l as [ | a l IH]; intros i bs H; [constructor | ].
  cbn [mapM_idx] in H. apply bind_Ok in H. destruct H as (b & E & H).
  apply bind_Ok in H. destruct H as (bs' & E' & _). constructor; eauto.
Qed.

(** Whatever a step of the mapping throws is a [TypeError]. *)
Ltac type_error H :=
  first [ now destruct (get_Threw _ _ _ H)
        | now destruct (ToString_Threw _ _ H)
        | now destruct (parseISODurationToMinutes_Threw _ _ H)
        | now apply (get0_Threw _ _ H)
        | now apply (as_array_for_map_Threw _ _ H) ].

Ltac bind_threw H :=
  let a := fresh "v" in
  let E := fresh "E" in
  apply bind_Threw in H; destruct H as [H | (a & E & H)]; [type_error H | ].

Lemma map_segment_Threw (seg : JSValue) (e : JSError) :
  map_segment seg = Threw e -> e = TypeError.
Proof. unfold map_segment. intros H. repeat bind_threw H. discriminate. Qed.

Lemma map_offer_Threw (idx : nat) (offer : JSValue) (e : JSError) :
  map_offer idx offer = Threw e -> e = TypeError.
Proof.
  unfold map_offer. intros H. do 4 bind_threw H.
  apply bind_Threw in H. destruct H as [H | (legs_ & _ & H)].
  { apply (mapM_Threw map_segment _ e map_segment_Threw H). }
  repeat bind_threw H. discriminate.
Qed.

Lemma map_segment_total (seg : JSValue) :
  well_shaped_segment seg = true -> map_segment seg = Ok (leg_of seg).
Proof.
  unfold well_shaped_segment, map_segment, leg_of, query_field. intros H.
  destruct (get seg "departure") as [d | ] eqn:Ed; [ | discriminate].
  destruct (get seg "arrival") as [a | ] eqn:Ea; [ | discriminate].
  pose proof (get_Ok_not_nullish _ _ _ Ed) as Hs.
  destruct (get_not_nullish seg "carrierCode" Hs) as (cc & E5).
  destruct (get_not_nullish seg "number" Hs) as (num & E6).
  destruct (get_not_nullish seg "duration" Hs) as (dur & E7).
  rewrite E5, E6, E7 in *.
  apply andb_prop in H. destruct H as [H H7].
  apply andb_prop in H. destruct H as [H H6].
  apply andb_prop in H. destruct H as [H H5].
  apply andb_prop in H. destruct H as [Hd Ha]. apply negb_true_iff in Hd, Ha.
  destruct (get_not_nullish d "iataCode" Hd) as (? & E1).
  destruct (get_not_nullish a "iataCode" Ha) as (? & E2).
  destruct (get_not_nullish d "at" Hd) as (? & E3).
  destruct (get_not_nullish a "at" Ha) as (? & E4).
  cbn [bind]. rewrite E1, E2. cbn [bind]. rewrite E3, E4. cbn [bind].
  rewrite (ToString_has_text cc H5), (ToString_has_text num H6). cbn [bind].
  rewrite (parseISODurationToMinutes_total dur H7). reflexivity.
Qed.

Lemma map_segment_Ok (seg : JSValue) (leg : Leg) :
  map_segment seg = Ok leg -> well_shaped_segment seg = true.
Proof.
  unfold map_segment, well_shaped_segment, query_field. intros H.
  apply bind_Ok in H. destruct H as (departure & E1 & H).
  apply bind_Ok in H. destruct H as (from_ & E2 & H).
  apply bind_Ok in H. destruct H as (arrival & E3 & H).
  apply bind_Ok in H. destruct H as (to_ & E4 & H).
  apply bind_Ok in H. destruct H as (depart_ & E5 & H).
  apply bind_Ok in H. destruct H as (arrive_ & E6 & H).
  apply bind_Ok in H. destruct H as (carrierCode & E7 & H).
  apply bind_Ok in H. destruct H as (carrier_text & E8 & H).
  apply bind_Ok in H. destruct H as (number & E9 & H).
  apply bind_Ok in H. destruct H as (number_text & E10 & H).
  apply bind_Ok in H. destruct H as (duration & E11 & H).
  apply bind_Ok in H. destruct H as (minutes & E12 & H).
  rewrite E1, E3, E7, E9, E11.
  rewrite (get_Ok_not_nullish _ _ _ E2), (get_Ok_not_nullish _ _ _ E4).
  rewrite (proj1 (ToString_Ok _ _ E8)), (proj1 (ToString_Ok _ _ E10)).
  now rewrite (proj1 (parseISODurationToMinutes_Ok _ _ E12)).
Qed.

Lemma mapM_map_segment_total (segs : list JSValue) :
  forallb well_shaped_segment segs = true -> mapM map_segment segs = Ok (map leg_of segs).
Proof.
  induction segs as [ | seg segs IH]; [reflexivity | ].
  cbn [forallb mapM map]. intros H. apply andb_prop in H. destruct H as [Hs H].
  now rewrite (map_segment_total seg Hs), (IH H).
Qed.

Lemma mapM_map_segment_Ok (segs : list JSValue) (legs_ : list Leg) :
  mapM map_segment segs = Ok legs_ -> forallb well_shaped_segment segs = true.
Proof.
  intros H. apply mapM_Ok_Forall in H. apply forallb_forall.
  rewrite Forall_forall in H. intros seg Hseg.
  destruct (H seg Hseg) as (leg & E). exact (map_segment_Ok seg leg E).
Qed.

Lemma map_offer_total (idx : nat) (offer : JSValue) :
  well_shaped_offer offer = true -> exists o, map_offer idx offer = Ok o.
Proof.
  unfold well_shaped_offer, map_offer, query_field. intros H.
  destruct (get offer "itineraries") as [its | ] eqn:Ei; [ | discriminate].
  destruct (get offer "price") as [p | ] eqn:Ep; [ | discriminate].
  apply andb_prop in H. destruct H as [Hp H].
  apply andb_prop in Hp. destruct Hp as [Hp Ht]. apply negb_true_iff in Hp.
  destruct (get0 its) as [itin | ] eqn:E0; [ | discriminate].
  destruct (get itin "segments") as [[ | | | | | segs | | ] | ] eqn:Es; try discriminate.
  apply andb_prop in H. destruct H as [H Hdur].
  pose proof (get_Ok_not_nullish _ _ _ Ei) as Ho.
  pose proof (get_Ok_not_nullish _ _ _ Es) as Hi.
  destruct (get_not_nullish itin "duration" Hi) as (dur & E1).
  destruct (get_not_nullish offer "id" Ho) as (? & E2).
  destruct (get_not_nullish p "total" Hp) as (total & E3).
  destruct (get_not_nullish p "currency" Hp) as (? & E4).
  rewrite E1 in Hdur. rewrite E3 in Ht.
  cbn [bind]. rewrite ?E0. cbn [bind]. rewrite ?Es. cbn [bind as_array_for_map].
  rewrite (mapM_map_segment_total segs H). cbn [bind].
  rewrite E1. cbn [bind]. rewrite (parseISODurationToMinutes_total dur Hdur). cbn [bind].
  rewrite E2. cbn [bind]. rewrite E3. cbn [bind]. rewrite (ToString_has_text total Ht).
  cbn [bind]. rewrite E4. cbn [bind]. eauto.
Qed.

Lemma map_offer_Ok (idx : nat) (offer : JSValue) (o : Option) :
  map_offer idx offer = Ok o -> well_shaped_offer offer = true.
Proof.
  unfold map_offer, well_shaped_offer, query_field. intros H.
  apply bind_Ok in H. destruct H as (itineraries & E1 & H).
  apply bind_Ok in H. destruct H as (itin & E2 & H).
  apply bind_Ok in H. destruct H as (segments & E3 & H).
  apply bind_Ok in H. destruct H as (segs & E4 & H).
  apply bind_Ok in H. destruct H as (legs_ & E5 & H).
  apply bind_Ok in H. destruct H as (duration & E6 & H).
  apply bind_Ok in H. destruct H as (minutes & E7 & H).
  apply bind_Ok in H. destruct H as (offer_id & E8 & H).
  apply bind_Ok in H. destruct H as (offer_price & E9 & H).
  apply bind_Ok in H. destruct H as (total & E10 & H).
  apply bind_Ok in H. destruct H as (total_text & E11 & H).
  rewrite E1, E9, E2, E3, E10, E6.
  destruct segments as [ | | | | | items | | ]; try discriminate. injection E4 as <-.
  rewrite (get_Ok_not_nullish _ _ _ E10), (proj1 (ToString_Ok _ _ E11)).
  rewrite (mapM_map_segment_Ok _ _ E5).
  now rewrite (proj1 (parseISODurationToMinutes_Ok _ _ E7)).
Qed.

Lemma map_offers_ill_shaped (data : list JSValue) :
  forallb well_shaped_offer data = false -> map_offers data = Threw TypeError.
Proof.
  intros H. unfold map_offers. destruct (mapM_idx map_offer 0 data) as [mapped | e] eqn:E.
  - apply mapM_idx_Ok_Forall in E. rewrite Forall_forall in E.
    assert (Hall : forallb well_shaped_offer data = true).
    { apply forallb_forall. intros offer Ho. destruct (E offer Ho) as (n & o & Eo).
      exact (map_offer_Ok n offer o Eo). }
    congruence.
  - f_equal. exact (mapM_idx_Threw map_offer data 0 e map_offer_Threw E).
Qed.

(** C4 (as amended).  When every offer of the upstream [data] list has the
    shape the mapping reads (a price whose total converts to text, and a
    first itinerary whose duration converts to text and whose segments
    each have a departure, an arrival, and a carrier code, a number and a
    duration that convert to text), the mapping stage produces exactly one
    option per offer, the i-th option being the image of the i-th offer;
    when some offer has not, the mapping throws a [TypeError] and produces
    no option at all. *)
Theorem map_offers_total (data : list JSValue) :
  (forallb well_shaped_offer data = true ->
   exists mapped,
     map_offers data = Ok mapped
     /\ List.length mapped = List.length data
     /\ forall i offer,
         nth_error data i = Some offer ->
         exists o, nth_error mapped i = Some o /\ map_offer i offer = Ok o)
  /\ (forallb well_shaped_offer data = false -> map_offers data = Threw TypeError).
Proof.
  split.
  - intros H. destruct (mapM_idx_total map_offer data 0) as (mapped & Hm).
    { rewrite forallb_forall in H. apply Forall_forall. intros offer Ho n.
      apply map_offer_total. now apply H. }
    exists mapped. split; [exact Hm | ].
    exact (mapM_idx_nth map_offer data 0 mapped Hm).
  - apply map_offers_ill_shaped.
Qed.

Lemma map_offers_total_witness :
  exists mapped,
    map_offers sample_data = Ok mapped
    /\ List.length mapped = List.length sample_data
    /\ forall i offer,
        nth_error sample_data i = Some offer ->
        exists o, nth_error mapped i = Some o /\ map_offer i offer = Ok o.
Proof. apply (proj1 (map_offers_total sample_data)). reflexivity. Defined.

(** C4, as stated, fails: a non-empty [data] list whose offer has an empty
    list of itineraries makes the mapping throw, and no option is
    produced; so does an offer whose [price.total] is an object with an own
    property [toString]. *)
Lemma map_offers_not_total :
  map_offers [offer_without_itinerary] = Threw TypeError
  /\ well_shaped_offer offer_without_itinerary = false
  /\ map_offers [offer_without_total_text] = Threw TypeError
  /\ well_shaped_offer offer_without_total_text = false.
Proof. repeat split. Qed.

(** C9 (as amended).  For every option the mapping stage produces,
    [transfers] is [max(0, legs.length - 1)]: it is never negative, equals
    [legs.length - 1] whenever there is at least one leg, and is 0 for a
    single leg. *)
Theorem transfers_spec (idx : nat) (offer : JSValue) (o : Option) :
  map_offer idx offer = Ok o ->
  let n := Z.of_nat (List.length (legs o)) in
  transfers o = Z.max 0 (n - 1)
  /\ 0 <= transfers o
  /\ (1 <= n -> transfers o = n - 1)
  /\ (n = 1 -> transfers o = 0).
Proof.
  intros H n. destruct (map_offer_fields _ _ _ H) as (_ & _ & Ht & _).
  fold n in Ht. rewrite Ht. lia.
Qed.

Lemma transfers_spec_witness :
  Forall (fun o => transfers o = Z.of_nat (List.length (legs o)) - 1) sample_mapped.
Proof.
  apply Forall_cons; [ | apply Forall_cons; [ | apply Forall_nil]].
  - refine (proj1 (proj2 (proj2 (transfers_spec 0 (nth 0 sample_data JNull) _ eq_refl))) _).
    vm_compute. discriminate.
  - refine (proj1 (proj2 (proj2 (transfers_spec 1 (nth 1 sample_data JNull) _ eq_refl))) _).
    vm_compute. discriminate.
Defined.

(** C9, as stated, fails on an itinerary without segments: the option has
    no leg, so [legs.length - 1] is -1, and [transfers] is 0. *)
Lemma transfers_of_no_leg :
  match map_offer 0 offer_without_segment with
  | Ok o => (Z.of_nat (List.length (legs o)) - 1, transfers o)
  | Threw _ => (0, 0)
  end = (-1, 0).
Proof. reflexivity. Qed.

(** ** Upstream errors *)





Lemma error_text_total (e : JSValue) :
  nullish e = false -> exists t, error_text e = Ok t.
Proof.
  intros H. unfold error_text.
  destruct (get_not_nullish e "detail" H) as (d & ->).
  destruct (get_not_nullish e "title" H) as (t & ->).
  cbn [bind]. destruct (truthy d); [eauto | ]. destruct (truthy t); eauto.
Qed.

Lemma error_text_nullish (e : JSValue) : nullish e = true -> error_text e = Threw TypeError.
Proof. intros H. unfold error_text. now rewrite (get_nullish e "detail" H). Qed.

Lemma mapM_error_text_cases (entries : list JSValue) :
  if existsb nullish entries
  then mapM error_text entries = Threw TypeError
  else exists texts, mapM error_text entries = Ok texts.
Proof.
  induction entries as [ | e l IH]; cbn [existsb mapM]; [eauto | ].
  destruct (nullish e) eqn:He; cbn [orb].
  - now rewrite (error_text_nullish e He).
  - destruct (error_text_total e He) as (t & ->). cbn [bind].
    destruct (existsb nullish l).
    + now rewrite IH.
    + destruct IH as (texts & ->). cbn [bind]. eauto.
Qed.

(** On a non-empty list of entries the check goes on to build the
    message. *)
Lemma check_errors_list (fields : list (string * JSValue)) (entries : list JSValue) :
  lookup "errors" fields = JArr entries ->
  entries <> [] ->
  check_errors (JObj fields) =
  (let* texts := mapM error_text entries in
   let* msg := array_join " | " texts in
   Threw (Error ("Amadeus error: " ++ msg))).
Proof.
  intros He Hne. unfold check_errors. cbn [get bind]. rewrite He. cbn [get bind].
  change (String.eqb "length" "length") with true. cbn [bind].
  rewrite float_of_Z_truthy by (destruct entries; [congruence | cbn [List.length]; lia]).
  reflexivity.
Qed.











(** ** The upstream request *)

Lemma validated_object (q : JSValue) :
  validated q = true -> exists fields, q = JObj fields.
Proof.
  destruct q as [ | | b | x | s | items | fields | name]; try discriminate; eauto.
Qed.

Lemma query_field_object (fields : list (string * JSValue)) (k : string) :
  query_field (JObj fields) k = lookup k fields.
Proof. reflexivity. Qed.

(** A falsy value is a primitive: it converts to text. *)
Lemma falsy_has_text (v : JSValue) : truthy v = false -> has_text v = true.
Proof. destruct v; try discriminate; reflexivity. Qed.

Lemma ToString_text (s : string) : ToString (JStr s) = Ok s.
Proof. reflexivity. Qed.

Lemma build_params_object
      (w : World) (fields : list (string * JSValue)) (departure : string) :
  format_date w (lookup "start" fields) = Ok departure ->
  build_params w (JObj fields) =
  if textual_query (JObj fields) then
    if truthy (lookup "end" fields) then
      let* returnDate := format_date w (lookup "end" fields) in
      Ok (base_params (JObj fields) departure ++ [("returnDate"%string, returnDate)])%list
    else Ok (base_params (JObj fields) departure)
  else Threw TypeError.
Proof.
  intros Hs. unfold build_params, base_params, textual_query, query_field, js_or.
  cbn [get bind]. rewrite Hs. cbn [bind].
  assert (Hpax : (if truthy (lookup "pax" fields)
                  then ToString (lookup "pax" fields) else ToString (JNum 1))
                 = if has_text (lookup "pax" fields)
                   then Ok (if truthy (lookup "pax" fields)
                            then text_of (lookup "pax" fields) else "1"%string)
                   else Threw TypeError).
  { destruct (truthy (lookup "pax" fields)) eqn:Ep.
    - destruct (has_text (lookup "pax" fields)) eqn:Et;
        [now apply ToString_has_text | now apply ToString_no_text].
    - now rewrite (falsy_has_text _ Ep). }
  match goal with
  | |- context [ToString (if ?c then ?a else ?b)] =>
      replace (ToString (if c then a else b)) with (if c then ToString a else ToString b)
        by (now destruct c)
  end.
  rewrite Hpax. clear Hpax.
  destruct (has_text (lookup "pax" fields)); cbn [bind andb];
    [ | now rewrite !andb_false_r].
  rewrite andb_true_r. cbn [new_URLSearchParams].
  destruct (has_text (lookup "from" fields)) eqn:Ef.
  2: { now rewrite (ToString_no_text _ Ef). }
  rewrite (ToString_has_text _ Ef). cbn [bind andb].
  destruct (has_text (lookup "to" fields)) eqn:Et.
  2: { now rewrite (ToString_no_text _ Et). }
  rewrite (ToString_has_text _ Et). cbn [bind]. rewrite !ToString_text. cbn [bind].
  destruct (truthy (lookup "end" fields)); [ | reflexivity].
  destruct (format_date w (lookup "end" fields)); reflexivity.
Qed.




(** ** The token exchange *)

(** The form is built without fail: a credential is a text, or is not
    set and reads ["undefined"]. *)
Lemma getAccessToken_request (w : World) :
  getAccessToken w =
  (let* res := ky_json (token_endpoint w (token_request w)) in get res "access_token").
Proof.
  unfold getAccessToken, token_request.
  destruct (AMADEUS_KEY w), (AMADEUS_SECRET w); reflexivity.
Qed.

(** C7 (as amended).  [getAccessToken] fails, with the HTTP client's
    [HTTPError], whenever the credential exchange answers with a status
    outside 200..299; when the exchange succeeds with a JSON object it
    returns that object's [access_token], whatever it is: the token string
    when there is one, and [undefined], without failing, when the field is
    missing. *)
Theorem getAccessToken_spec (w : World) (status : Z) (body : option JSValue) :
  token_endpoint w (token_request w) = Response status body ->
  (~ (200 <= status < 300) -> getAccessToken w = Threw (HTTPError status))
  /\ (forall fields,
         200 <= status < 300 -> status <> 204 -> body = Some (JObj fields) ->
         getAccessToken w = Ok (lookup "access_token" fields))
  /\ (forall fields token,
         200 <= status < 300 -> status <> 204 -> body = Some (JObj fields) ->
         lookup "access_token" fields = JStr token ->
         getAccessToken w = Ok (JStr token)).
Proof.
  intros Hr. rewrite getAccessToken_request, Hr. cbn [ky_json].
  assert (Hsome : forall fields,
             200 <= status < 300 -> status <> 204 -> body = Some (JObj fields) ->
             (let* res := (if (200 <=? status) && (status <? 300)
                           then if status =? 204 then Ok (JStr "")
                                else match body with
                                     | Some v => Ok v
                                     | None => Threw SyntaxError
                                     end
                           else Threw (HTTPError status)) in
              get res "access_token") = Ok (lookup "access_token" fields)).
  { intros fields [H1 H2] H3 ->.
    apply Z.leb_le in H1. apply Z.ltb_lt in H2. apply Z.eqb_neq in H3.
    now rewrite H1, H2, H3. }
  split; [ | split].
  - intros Hn.
    destruct (200 <=? status) eqn:E1; [ | reflexivity].
    destruct (status <? 300) eqn:E2; [ | reflexivity].
    apply Z.leb_le in E1. apply Z.ltb_lt in E2. lia.
  - exact Hsome.
  - intros fields token H1 H2 H3 H4. rewrite <- H4. now apply Hsome.
Qed.

Lemma getAccessToken_spec_witness :
  getAccessToken (sample_world sample_token JNull) = Ok (JStr "tok").
Proof.
  refine (proj2 (proj2 (getAccessToken_spec (sample_world sample_token JNull)
                          200 (Some sample_token) eq_refl))
                _ "tok"%string _ _ eq_refl eq_refl); lia.
Defined.

(** C7, as stated, fails: when the exchange succeeds but the response omits
    the access token, [getAccessToken] does not fail; it returns
    [undefined], and [searchAmadeus] goes on to send the search request
    (here answered with the two sample offers). *)
Lemma getAccessToken_without_token :
  getAccessToken (sample_world (JObj []) JNull) = Ok JUndefined
  /\ match searchAmadeus (sample_world (JObj []) (JObj [("data", JArr sample_data)]%string))
                         (sample_query "cheapest") with
     | Ok options => List.length options
     | Threw _ => 0%nat
     end = 2%nat.
Proof. split; reflexivity. Qed.

(** ** Responses without data *)

Lemma local_sort_nil (q_optimize : JSValue) : local_sort q_optimize [] = [].
Proof.
  unfold local_sort.
  destruct (strict_equals_string _ "shortest"); [reflexivity | ].
  destruct (strict_equals_string _ "cheapest"); reflexivity.
Qed.

Lemma build_params_not_nullish (w : World) (q : JSValue) (params : URLSearchParams) :
  build_params w q = Ok params -> nullish q = false.
Proof.
  unfold build_params. intros H. bind_inv H. exact (get_Ok_not_nullish _ _ _ E).
Qed.

(** C8.  When the upstream response has an empty (or no) errors list and
    its [data] is absent or not a list, [searchAmadeus] returns the empty
    sequence of options. *)
Theorem no_data_no_options
        (w : World) (q token : JSValue) (params : URLSearchParams)
        (fields : list (string * JSValue)) :
  getAccessToken w = Ok token ->
  build_params w q = Ok params ->
  request_offers w token params = Ok (JObj fields) ->
  lookup "errors" fields = JArr [] \/ lookup "errors" fields = JUndefined ->
  (forall items, lookup "data" fields <> JArr items) ->
  searchAmadeus w q = Ok [].
Proof.
  intros Ht Hp Hr He Hd. unfold searchAmadeus.
  rewrite Ht. cbn [bind]. rewrite Hp. cbn [bind]. rewrite Hr. cbn [bind].
  unfold process_response, check_errors. cbn [get bind].
  assert (Hc : (let* len := match lookup "errors" fields with
                            | JUndefined | JNull => Ok JUndefined
                            | _ => get (lookup "errors" fields) "length"
                            end in
                if truthy len
                then let* entries := as_array_for_map (lookup "errors" fields) in
                     let* texts := mapM error_text entries in
                     let* msg := array_join " | " texts in
                     Threw (Error ("Amadeus error: " ++ msg))
                else Ok tt) = Ok tt).
  { destruct He as [-> | ->]; reflexivity. }
  rewrite Hc. cbn [bind].
  assert (Hdata : array_or_empty (lookup "data" fields) = []).
  { destruct (lookup "data" fields) as [ | | | | | items | | ]; try reflexivity.
    now destruct (Hd items). }
  rewrite Hdata. cbn [map_offers mapM_idx bind].
  destruct (get_not_nullish q "optimize" (build_params_not_nullish _ _ _ Hp)) as (o & ->).
  cbn [bind]. now rewrite local_sort_nil.
Qed.

Lemma no_data_no_options_witness :
  searchAmadeus (sample_world sample_token (JObj [("errors", JArr [])]%string))
                (sample_query "balanced") = Ok [].
Proof.
  refine (no_data_no_options
            (sample_world sample_token (JObj [("errors", JArr [])]%string))
            (sample_query "balanced") (JStr "tok") _ _ eq_refl eq_refl eq_refl _ _).
  - now left.
  - discriminate.
Defined.

(* ================================================================== *)
(** * Part IX.  Further properties of the pipeline                      *)
(* ================================================================== *)

(** ** The earlier revision *)



(** X2.  The earlier revision always sends a [sort] parameter, [DURATION]
    for ["shortest"] and [PRICE] otherwise, and never a [returnDate]. *)
Theorem earlier_sends_sort (w : World) (q : JSValue) (params : URLSearchParams) :
  Earlier.build_params w q = Ok params ->
  In ("sort", if strict_equals_string (query_field q "optimize") "shortest"
              then "DURATION" else "PRICE")%string params
  /\ ~ In "returnDate"%string (map fst params).
Proof.
  unfold Earlier.build_params. intros H.
  apply bind_Ok in H. destruct H as (q_from & E1 & H).
  apply bind_Ok in H. destruct H as (q_to & E2 & H).
  apply bind_Ok in H. destruct H as (q_start & E3 & H).
  apply bind_Ok in H. destruct H as (departureDate & E4 & H).
  apply bind_Ok in H. destruct H as (q_pax & E5 & H).
  apply bind_Ok in H. destruct H as (adults & E6 & H).
  apply bind_Ok in H. destruct H as (q_optimize & E7 & H).
  cbn [new_URLSearchParams] in H.
  apply bind_Ok in H. destruct H as (from_text & E8 & H).
  apply bind_Ok in H. destruct H as (rest & H & H').
  apply bind_Ok in H. destruct H as (to_text & E9 & H).
  rewrite !ToString_text in H. cbn [bind] in H.
  injection H as <-. injection H' as <-.
  unfold query_field. rewrite E7. split.
  - cbn. tauto.
  - cbn. intros [H | [H | [H | [H | [H | [H | [H | []]]]]]]]; discriminate.
Qed.

Lemma earlier_sends_sort_witness :
  In ("sort", "PRICE")%string
     (match Earlier.build_params (sample_world sample_token JNull) sample_return_query with
      | Ok params => params
      | Threw _ => []
      end).
Proof.
  exact (proj1 (earlier_sends_sort (sample_world sample_token JNull) sample_return_query
                  _ eq_refl)).
Defined.

(** ** Ties, identifiers and durations *)

(** X3.  The ranking is stable: under ["cheapest"], when no price is
    [NaN], two options of the same price come back in their mapping order;
    so do, under ["shortest"], when no duration is [NaN] (none is, after the
    mapping), two options of the same [totalDurationMin]. *)
Theorem local_sort_stable (mapped : list Option) (a b : Option) :
  before a b mapped ->
  (Forall (fun o => is_nan (price o) = false) mapped ->
   price a = price b -> before a b (local_sort (JStr "cheapest") mapped))
  /\ (Forall (fun o => is_nan (totalDurationMin o) = false) mapped ->
      totalDurationMin a = totalDurationMin b ->
      before a b (local_sort (JStr "shortest") mapped))
  /\ (forall data,
         map_offers data = Ok mapped ->
         totalDurationMin a = totalDurationMin b ->
         before a b (local_sort (JStr "shortest") mapped)).
Proof.
  intros Hab. split; [ | split].
  - intros _ He. rewrite local_sort_cheapest. apply array_sort_stable; [assumption | ].
    unfold by_price. rewrite He. apply float_sub_self.
  - intros _ He. rewrite local_sort_shortest. apply array_sort_stable; [assumption | ].
    unfold by_duration. rewrite He. apply float_sub_self.
  - intros data _ He. rewrite local_sort_shortest. apply array_sort_stable; [assumption | ].
    unfold by_duration. rewrite He. apply float_sub_self.
Qed.

Lemma local_sort_stable_witness :
  before twin_first twin_second (local_sort (JStr "cheapest") twin_mapped)
  /\ before twin_first twin_second (local_sort (JStr "shortest") twin_mapped).
Proof.
  assert (H : before twin_first twin_second twin_mapped) by (exists [], [], []; reflexivity).
  split.
  - refine (proj1 (local_sort_stable twin_mapped twin_first twin_second H) _ eq_refl).
    repeat constructor.
  - refine (proj2 (proj2 (local_sort_stable twin_mapped twin_first twin_second H))
                  twin_data eq_refl eq_refl).
Defined.

(** X4.  The identifier of an option is the offer's own [id] when that is
    truthy, and otherwise ["am-"] followed by the offer's index in the
    upstream list. *)
Theorem option_identifier (idx : nat) (offer : JSValue) (o : Option) :
  map_offer idx offer = Ok o ->
  id o = if truthy (query_field offer "id") then query_field offer "id"
         else JStr ("am-" ++ string_of_N (N.of_nat idx)).
Proof.
  unfold map_offer. intros H.
  apply bind_Ok in H. destruct H as (itineraries & E1 & H).
  apply bind_Ok in H. destruct H as (itin & E2 & H).
  apply bind_Ok in H. destruct H as (segments & E3 & H).
  apply bind_Ok in H. destruct H as (segs & E4 & H).
  apply bind_Ok in H. destruct H as (legs_ & E5 & H).
  apply bind_Ok in H. destruct H as (duration & E6 & H).
  apply bind_Ok in H. destruct H as (minutes & E7 & H).
  apply bind_Ok in H. destruct H as (offer_id & E8 & H).
  repeat bind_inv H. injection H as <-.
  unfold query_field. rewrite E8. reflexivity.
Qed.

Lemma option_identifier_witness :
  match map_offer 3 anonymous_offer with
  | Ok o => id o
  | Threw _ => JUndefined
  end = JStr "am-3".
Proof.
  pose proof (option_identifier 3 anonymous_offer) as H.
  destruct (map_offer 3 anonymous_offer) as [o | e] eqn:E.
  - exact (H o eq_refl).
  - vm_compute in E. discriminate E.
Defined.

(** The end-to-end scenario of the specification: the query
    [{from: "JFK", to: "LAX", start: "2024-06-01", optimize: "cheapest"}]
    against an upstream returning two offers priced 200 and 150 yields two
    options priced 150 and 200, in that order.  The second offer also shows
    that [totalDurationMin] is the itinerary's own duration (480), not the
    sum of its legs' durations (120 + 240). *)
Theorem cheapest_scenario :
  match searchAmadeus (sample_world sample_token (JObj [("data", JArr sample_data)]%string))
                      (sample_query "cheapest") with
  | Ok options =>
      map price options = [150; 200]%float
      /\ map totalDurationMin options = [480; 330]%float
      /\ map (fun o => map durationMin (legs o)) options = [[120; 240]; [330]]%float
      /\ map transfers options = [1; 0]
  | Threw _ => False
  end.
Proof. cbn. repeat split. Qed.

(* ================================================================== *)
(** * Part X.  The options a search returns                             *)
(* ================================================================== *)

(** ** A successful search, step by step *)

Lemma searchAmadeus_Ok (w : World) (q : JSValue) (options : list Option) :
  searchAmadeus w q = Ok options ->
  exists token params res mapped,
    getAccessToken w = Ok token
    /\ build_params w q = Ok params
    /\ request_offers w token params = Ok res
    /\ check_errors res = Ok tt
    /\ map_offers (array_or_empty (query_field res "data")) = Ok mapped
    /\ options = local_sort (query_field q "optimize") mapped.
Proof.
  unfold searchAmadeus. intros H.
  apply bind_Ok in H. destruct H as (token & Ht & H).
  apply bind_Ok in H. destruct H as (params & Hp & H).
  apply bind_Ok in H. destruct H as (res & Hr & H).
  unfold process_response in H.
  apply bind_Ok in H. destruct H as ([] & Hc & H).
  apply bind_Ok in H. destruct H as (res_data & Hd & H).
  apply bind_Ok in H. destruct H as (mapped & Hm & H).
  apply bind_Ok in H. destruct H as (q_optimize & Ho & H).
  injection H as <-.
  exists token, params, res, mapped. unfold query_field. rewrite Hd, Ho.
  repeat split; assumption.
Qed.

Lemma mapM_idx_Forall2 {A B : Type} (f : nat -> A -> result B) (P : A -> Prop) (Q : B -> Prop)
      (l : list A) (i : nat) (bs : list B) :
  (forall n a b, P a -> f n a = Ok b -> Q b) ->
  Forall P l -> mapM_idx f i l = Ok bs -> Forall Q bs.
Proof.
  intros Hf Hl. revert i bs. induction Hl as [ | a l Ha _ IH]; intros i bs H; simpl in H.
  - injection H as <-. constructor.
  - bind_inv H. bind_inv H. injection H as <-. constructor; eauto.
Qed.

(** ** What every option satisfies *)

Lemma mapM_map_segment (segs : list JSValue) (legs_ : list Leg) :
  mapM map_segment segs = Ok legs_ -> legs_ = map leg_of segs.
Proof.
  intros H. pose proof (mapM_map_segment_total segs (mapM_map_segment_Ok segs legs_ H)) as E.
  congruence.
Qed.

Lemma js_or_truthy (a b : JSValue) : truthy b = true -> truthy (js_or a b) = true.
Proof. unfold js_or. intros H. destruct (truthy a) eqn:E; assumption. Qed.

Lemma map_offer_parts (idx : nat) (offer : JSValue) (o : Option) :
  map_offer idx offer = Ok o ->
  exists segs,
    query_field (first_itinerary offer) "segments" = JArr segs
    /\ forallb well_shaped_segment segs = true
    /\ has_text (query_field (first_itinerary offer) "duration") = true
    /\ has_text (total_of offer) = true
    /\ o = {| id := js_or (query_field offer "id")
                          (JStr ("am-" ++ string_of_N (N.of_nat idx)));
              provider := "AMADEUS";
              price := parseFloat_string (text_of (total_of offer));
              currency := query_field (query_field offer "price") "currency";
              legs := map leg_of segs;
              totalDurationMin :=
                minutes_of (query_field (first_itinerary offer) "duration");
              transfers := Z.max 0 (Z.of_nat (List.length (map leg_of segs)) - 1);
              notes := [];
              _score := None |}.
Proof.
  unfold map_offer, first_itinerary, total_of, query_field. intros H.
  apply bind_Ok in H. destruct H as (itineraries & E1 & H).
  apply bind_Ok in H. destruct H as (itin & E2 & H).
  apply bind_Ok in H. destruct H as (segments & E3 & H).
  apply bind_Ok in H. destruct H as (segs & E4 & H).
  apply bind_Ok in H. destruct H as (legs_ & E5 & H).
  apply bind_Ok in H. destruct H as (duration & E6 & H).
  apply bind_Ok in H. destruct H as (minutes & E7 & H).
  apply bind_Ok in H. destruct H as (offer_id & E8 & H).
  apply bind_Ok in H. destruct H as (offer_price & E9 & H).
  apply bind_Ok in H. destruct H as (total & E10 & H).
  apply bind_Ok in H. destruct H as (total_text & E11 & H).
  apply bind_Ok in H. destruct H as (currency_ & E12 & H).
  injection H as <-.
  rewrite E1, E2, E3, E6, E8, E9, E10, E12.
  destruct segments as [ | | | | | items | | ]; try discriminate. injection E4 as <-.
  destruct (parseISODurationToMinutes_Ok _ _ E7) as [Hd ->].
  destruct (ToString_Ok _ _ E11) as [Ht ->].
  exists items. rewrite (mapM_map_segment _ _ E5).
  repeat split; try assumption. exact (mapM_map_segment_Ok _ _ E5).
Qed.

Lemma map_offer_sound (idx : nat) (offer : JSValue) (o : Option) :
  map_offer idx offer = Ok o -> sound_option o.
Proof.
  intros H. destruct (map_offer_parts _ _ _ H) as (segs & _ & _ & _ & _ & ->).
  unfold sound_option. cbn. repeat split.
  - now apply js_or_truthy.
  - apply minutes_of_nonneg.
  - apply Forall_forall. intros l Hl. apply in_map_iff in Hl. destruct Hl as (seg & <- & _).
    apply minutes_of_nonneg.
Qed.

Lemma searchAmadeus_sound (w : World) (q : JSValue) (options : list Option) :
  searchAmadeus w q = Ok options -> Forall sound_option options.
Proof.
  intros H.
  destruct (searchAmadeus_Ok _ _ _ H)
    as (token & params & res & mapped & _ & _ & _ & _ & Hm & ->).
  assert (Hs : Forall sound_option mapped).
  { eapply mapM_idx_Forall; [ | exact Hm]. intros n a b. apply map_offer_sound. }
  eapply Permutation_Forall; [ | exact Hs].
  apply local_sort_perm. eapply Forall_impl; [ | exact Hs]. intros o Ho. apply Ho.
Qed.

(** X5.  Every option a successful search returns has a truthy [id], the
    provider ["AMADEUS"], no note and no [_score]; its total duration and the
    duration of each of its legs are numbers that are neither [NaN] nor
    negative; and its [transfers] is [max(0, legs.length - 1)]. *)
Theorem searchAmadeus_options_sound (w : World) (q : JSValue) (options : list Option) :
  searchAmadeus w q = Ok options ->
  Forall (fun o =>
            truthy (id o) = true
            /\ provider o = "AMADEUS"%string
            /\ notes o = []
            /\ _score o = None
            /\ nonneg_number (totalDurationMin o) = true
            /\ Forall (fun l => nonneg_number (durationMin l) = true) (legs o)
            /\ transfers o = Z.max 0 (Z.of_nat (List.length (legs o)) - 1)) options.
Proof. apply searchAmadeus_sound. Qed.

Lemma searchAmadeus_options_sound_witness :
  Forall sound_option (local_sort (JStr "cheapest") sample_mapped).
Proof.
  exact (searchAmadeus_options_sound
           (sample_world sample_token sample_search_response)
           (sample_query "cheapest") _ eq_refl).
Defined.

(** X6.  The legs of an option are the segments of the offer's first
    itinerary, one leg per segment and in the segments' order, each leg
    being what the mapping of its segment gives; the total duration is
    what [parseISODurationToMinutes] gives on the itinerary's own
    [duration], whatever the durations of the legs. *)
Theorem map_offer_legs (idx : nat) (offer : JSValue) (o : Option) :
  map_offer idx offer = Ok o ->
  exists segs,
    query_field (first_itinerary offer) "segments" = JArr segs
    /\ legs o = map leg_of segs
    /\ Forall (fun seg => map_segment seg = Ok (leg_of seg)) segs
    /\ List.length (legs o) = List.length segs
    /\ parseISODurationToMinutes (query_field (first_itinerary offer) "duration")
       = Ok (totalDurationMin o).
Proof.
  intros H. destruct (map_offer_parts _ _ _ H) as (segs & Hs & Hw & Hd & _ & ->).
  exists segs. cbn [legs totalDurationMin]. rewrite length_map.
  split; [exact Hs | ]. split; [reflexivity | ]. split; [ | split; [reflexivity | ]].
  - apply Forall_forall. intros seg Hseg. apply map_segment_total.
    rewrite forallb_forall in Hw. now apply Hw.
  - now apply parseISODurationToMinutes_total.
Qed.

Lemma map_offer_legs_witness :
  exists segs,
    query_field (first_itinerary (nth 1 sample_data JNull)) "segments" = JArr segs
    /\ map (fun o => legs o) (skipn 1 sample_mapped) = [map leg_of segs].
Proof.
  destruct (map_offer_legs 1 (nth 1 sample_data JNull) (nth 1 sample_mapped blank_option) eq_refl)
    as (segs & H1 & H2 & _).
  exists segs. split; [exact H1 | ]. cbn [skipn sample_mapped]. now rewrite <- H2.
Defined.

(** X7.  The mapping reads nothing of an offer but its [id], its [price]
    and its first itinerary: every later itinerary (the return flight of a
    round trip) and every other property is ignored. *)
Theorem map_offer_first_itinerary
        (idx : nat) (fields : list (string * JSValue)) (itin : JSValue) (others : list JSValue) :
  lookup "itineraries" fields = JArr (itin :: others) ->
  map_offer idx (JObj fields) = map_offer idx (outbound_only fields itin).
Proof.
  intros H. unfold map_offer, outbound_only. cbn [get]. rewrite H. reflexivity.
Qed.

Lemma map_offer_first_itinerary_witness :
  map_offer 0 (JObj round_trip_fields)
  = map_offer 0 (sample_offer "7" "420.00" "PT5H30M" [sample_segment "JFK" "LAX" "PT5H30M"]).
Proof.
  exact (map_offer_first_itinerary 0 round_trip_fields _ _ eq_refl).
Defined.

(** ** Prices *)

Lemma SFdiv_core_binary_nonneg (m1 e1 m2 e2 : Z) :
  0 <= m1 -> 0 < m2 ->
  0 <= fst (fst (SFdiv_core_binary prec emax m1 e1 m2 e2)).
Proof.
  intros H1 H2. unfold SFdiv_core_binary.
  match goal with
  | |- context [Z.div_eucl ?a m2] =>
      assert (Ha : 0 <= a);
      [ | pose proof (Z.div_pos a m2 Ha H2) as Hq; unfold Z.div in Hq;
          destruct (Z.div_eucl a m2) as [q r]; exact Hq ]
  end.
  match goal with
  | |- 0 <= match ?s with _ => _ end => destruct s as [ | p | p]
  end; try lia.
  rewrite Z.shiftl_mul_pow2 by lia. apply Z.mul_nonneg_nonneg; [lia | ].
  apply Z.pow_nonneg. lia.
Qed.

Lemma SF64_of_decimal_nonneg (m e10 : Z) : SF_nonneg (SF64_of_decimal m e10) = true.
Proof.
  unfold SF64_of_decimal. destruct m as [ | p | p]; try reflexivity.
  destruct (0 <=? e10) eqn:E.
  - apply binary_normalize_nonneg. apply Z.mul_nonneg_nonneg; [lia | ].
    apply Z.pow_nonneg. lia.
  - apply Z.leb_gt in E.
    pose proof (SFdiv_core_binary_nonneg (Zpos p) 0 (10 ^ (- e10)) 0) as H.
    destruct (SFdiv_core_binary prec emax (Zpos p) 0 (10 ^ (- e10)) 0) as [[q e'] l].
    apply binary_round_aux_nonneg. apply H; [lia | ]. apply Z.pow_pos_nonneg; lia.
Qed.

Lemma float_of_decimal_nonneg (m e10 : Z) :
  nonneg_number (float_of_decimal false m e10) = true.
Proof. unfold float_of_decimal. apply SF2Prim_nonneg, SF64_of_decimal_nonneg. Qed.

Lemma is_digit_cases (c : ascii) :
  is_digit c = true ->
  In c ["0"; "1"; "2"; "3"; "4"; "5"; "6"; "7"; "8"; "9"]%char.
Proof.
  destruct c as [[ | ] [ | ] [ | ] [ | ] [ | ] [ | ] [ | ] [ | ]];
    intros H; try (vm_compute in H; discriminate H); cbn; tauto.
Qed.

Ltac each_digit H :=
  apply is_digit_cases in H; cbn [In] in H;
  repeat (destruct H as [<- | H]; [reflexivity | ]); destruct H.

Lemma skip_whitespace_digit (fuel : nat) (c : ascii) (rest : string) :
  is_digit c = true -> skip_whitespace fuel (String c rest) = String c rest.
Proof.
  intros H. destruct fuel as [ | fuel]; [reflexivity | ].
  destruct rest as [ | c1 [ | c2 s3]]; each_digit H.
Qed.

Lemma take_sign_digit (c : ascii) (rest : string) :
  is_digit c = true -> take_sign (String c rest) = (false, String c rest).
Proof. intros H. each_digit H. Qed.

Lemma strip_prefix_Infinity_digit (c : ascii) (rest : string) :
  is_digit c = true -> strip_prefix "Infinity" (String c rest) = None.
Proof. intros H. each_digit H. Qed.

(** [parseFloat] on a text that begins with a digit: the value of the
    digits read, scaled by a power of ten. *)
Lemma parseFloat_string_digit (c : ascii) (rest : string) :
  is_digit c = true ->
  exists m e10, parseFloat_string (String c rest) = float_of_decimal false m e10.
Proof.
  intros H. unfold parseFloat_string.
  rewrite skip_whitespace_digit, take_sign_digit, strip_prefix_Infinity_digit by assumption.
  cbn [span_digits]. rewrite H.
  destruct (span_digits rest) as [ds r1].
  match goal with
  | |- context [let (fp, r2) := ?x in _] => destruct x as [fp r2]
  end.
  cbn [append]. eauto.
Qed.

Lemma span_digits_digits (ds : string) :
  all_digits ds = true -> span_digits ds = (ds, EmptyString).
Proof.
  induction ds as [ | c ds IH]; [reflexivity | ].
  cbn [all_digits span_digits]. intros H. apply andb_prop in H. destruct H as [Hc Hd].
  now rewrite Hc, (IH Hd).
Qed.

Lemma SF64_of_decimal_integer (n : Z) : 0 <= n -> SF64_of_decimal n 0 = SF64_of_Z n.
Proof.
  intros H. unfold SF64_of_decimal. destruct n as [ | p | p]; [reflexivity | | lia].
  cbn [Z.leb Z.compare]. now rewrite Z.pow_0_r, Z.mul_1_r.
Qed.

(** On a run of digits [parseFloat] and [parseInt] agree. *)
Lemma parseFloat_string_digits (ds : string) :
  digit_run ds = true -> parseFloat_string ds = float_of_Z (decimal_value ds).
Proof.
  destruct ds as [ | c ds]; [discriminate | ]. cbn [digit_run]. intros H.
  pose proof H as Hall. cbn [all_digits] in H. apply andb_prop in H. destruct H as [Hc Hd].
  unfold parseFloat_string.
  rewrite skip_whitespace_digit, take_sign_digit, strip_prefix_Infinity_digit by assumption.
  rewrite (span_digits_digits _ Hall). rewrite string_app_nil_r.
  cbn [exponent_part String.length Z.of_nat Z.sub Z.opp Z.add].
  unfold float_of_decimal, float_of_Z. rewrite SF64_of_decimal_integer; [reflexivity | ].
  apply decimal_value_from_nonneg; [assumption | lia].
Qed.

Lemma map_offer_price (idx : nat) (offer : JSValue) (o : Option) :
  map_offer idx offer = Ok o -> price o = parseFloat_string (text_of (total_of offer)).
Proof.
  intros H. destruct (map_offer_parts _ _ _ H) as (segs & _ & _ & _ & _ & ->). reflexivity.
Qed.

Lemma decimal_total_price (idx : nat) (offer : JSValue) (o : Option) :
  map_offer idx offer = Ok o -> decimal_total offer = true ->
  nonneg_number (price o) = true.
Proof.
  intros Hm Hd. rewrite (map_offer_price _ _ _ Hm). unfold decimal_total in Hd.
  destruct (total_of offer) as [ | | | | [ | c rest] | | | ]; try discriminate.
  cbn [text_of]. destruct (parseFloat_string_digit c rest Hd) as (m & e10 & ->).
  apply float_of_decimal_nonneg.
Qed.

(** X8.  The price of an option whose offer's [price.total] is a text
    beginning with a decimal digit is a number that is neither [NaN] nor
    negative; when the total is a plain run of digits the price is the
    number written (the binary64 value nearest to it); when the total is
    absent the price is [NaN].  So when every offer's total begins with a
    digit, the ["cheapest"] ranking is non-decreasing in price. *)
Theorem price_of_decimal_total :
  (forall idx offer o,
      map_offer idx offer = Ok o -> decimal_total offer = true ->
      nonneg_number (price o) = true)
  /\ (forall idx offer o ds,
         map_offer idx offer = Ok o -> total_of offer = JStr ds -> digit_run ds = true ->
         price o = float_of_Z (decimal_value ds))
  /\ (forall idx offer o,
         map_offer idx offer = Ok o -> nullish (total_of offer) = true ->
         is_nan (price o) = true)
  /\ (forall data mapped,
         map_offers data = Ok mapped -> forallb decimal_total data = true ->
         nondecreasing price (local_sort (JStr "cheapest") mapped)).
Proof.
  split; [exact decimal_total_price | ]. split; [ | split].
  - intros idx offer o ds Hm Ht Hd. rewrite (map_offer_price _ _ _ Hm), Ht. cbn [text_of].
    now apply parseFloat_string_digits.
  - intros idx offer o Hm Hn. rewrite (map_offer_price _ _ _ Hm).
    destruct (total_of offer); try discriminate; reflexivity.
  - intros data mapped Hm Hd. rewrite local_sort_cheapest. apply comparator_sorts.
    eapply (mapM_idx_Forall2 map_offer (fun a => decimal_total a = true)); [ | | exact Hm].
    + intros n a b Ha Hb. apply nonneg_number_not_nan. now apply (decimal_total_price n a b).
    + apply Forall_forall. now apply forallb_forall.
Qed.

Lemma price_of_decimal_total_witness :
  Forall (fun o => nonneg_number (price o) = true) sample_mapped
  /\ nondecreasing price (local_sort (JStr "cheapest") sample_mapped).
Proof.
  split.
  - apply Forall_cons; [ | apply Forall_cons; [ | apply Forall_nil]].
    + exact (proj1 price_of_decimal_total 0%nat (nth 0 sample_data JNull) _ eq_refl eq_refl).
    + exact (proj1 price_of_decimal_total 1%nat (nth 1 sample_data JNull) _ eq_refl eq_refl).
  - exact (proj2 (proj2 (proj2 price_of_decimal_total)) sample_data _ eq_refl eq_refl).
Defined.

(* ================================================================== *)
(** * Part XI.  Durations and upstream payloads off the expected shape  *)
(* ================================================================== *)

(** ** Text around a duration *)

Lemma after_first_PT_prefix (pre s : string) :
  no_P pre = true -> after_first_PT (pre ++ s) = after_first_PT s.
Proof.
  induction pre as [ | c pre IH]; [reflexivity | ].
  cbn [no_P]. intros H. apply andb_prop in H. destruct H as [Hc Hp].
  apply negb_true_iff in Hc.
  change (String c pre ++ s)%string with (String c (pre ++ s)).
  rewrite after_first_PT_step, Hc. cbn [andb].
  specialize (IH Hp).
  destruct (pre ++ s)%string as [ | c' s'] eqn:E; [ | exact IH].
  rewrite <- IH. reflexivity.
Qed.

Lemma after_first_PT_no_P (s : string) : no_P s = true -> after_first_PT s = None.
Proof.
  intros H. rewrite <- (string_app_nil_r s). now rewrite after_first_PT_prefix.
Qed.

Lemma no_P_app (a b : string) : no_P (a ++ b) = no_P a && no_P b.
Proof.
  induction a as [ | c a IH]; [reflexivity | ].
  cbn [append no_P]. now rewrite IH, andb_assoc.
Qed.

Lemma is_digit_not_P (c : ascii) : is_digit c = true -> Ascii.eqb c "P" = false.
Proof.
  destruct (Ascii.eqb c "P") eqn:E; [ | reflexivity].
  apply Ascii.eqb_eq in E. subst c. discriminate.
Qed.

Lemma all_digits_no_P (s : string) : all_digits s = true -> no_P s = true.
Proof.
  induction s as [ | c s IH]; [reflexivity | ].
  cbn [all_digits no_P]. intros H. apply andb_prop in H. destruct H as [Hc Hs].
  now rewrite (is_digit_not_P c Hc), IH.
Qed.

Lemma optional_run_no_P (o : option string) (suffix : string) :
  optional_run o = true -> no_P suffix = true -> no_P (component o suffix) = true.
Proof.
  destruct o as [ds | ]; cbn [optional_run component]; [ | reflexivity].
  intros H Hs. rewrite no_P_app, Hs, andb_true_r. apply all_digits_no_P.
  destruct ds; [discriminate | assumption].
Qed.

Lemma digit_run_all_digits (ds : string) : digit_run ds = true -> all_digits ds = true.
Proof. destruct ds; [discriminate | trivial]. Qed.

Lemma match_duration_followed (h : option string) (m post : string) :
  optional_run h = true -> digit_run m = true ->
  match_duration (duration_text h (Some m) ++ post) = Some (h, Some m).
Proof.
  intros Hh Hm. unfold duration_text, match_duration. cbn [component].
  rewrite !string_app_assoc.
  change (after_first_PT ("PT" ++ component h "H" ++ m ++ "M" ++ post))
    with (Some (component h "H" ++ m ++ "M" ++ post)%string).
  destruct h as [hs | ]; cbn [component].
  - rewrite string_app_assoc.
    change ("H" ++ m ++ "M" ++ post)%string with (String "H" (m ++ "M" ++ post)).
    rewrite match_group_run by (assumption || reflexivity).
    change ("M" ++ post)%string with (String "M" post).
    now rewrite match_group_run by (assumption || reflexivity).
  - change (EmptyString ++ m ++ "M" ++ post)%string with (m ++ String "M" post)%string.
    rewrite match_group_other by (try reflexivity; now apply digit_run_all_digits).
    now rewrite match_group_run by (assumption || reflexivity).
Qed.

(** X9.  [parseISODurationToMinutes] ignores what surrounds a duration:
    text before it that holds no letter [P] does not change the result, and
    a text [PT<h>H<m>M] (the hours optional) followed by anything at all,
    seconds for one, gives [60*h + m] (below [2^53]). *)
Theorem parseISODurationToMinutes_context :
  (forall pre s : string,
      no_P pre = true ->
      parseISODurationToMinutes (JStr (pre ++ s)) = parseISODurationToMinutes (JStr s))
  /\ (forall (h : option string) (m post : string),
         optional_run h = true -> digit_run m = true ->
         60 * component_value h + decimal_value m < 2 ^ 53 ->
         parseISODurationToMinutes (JStr (duration_text h (Some m) ++ post))
         = Ok (float_of_Z (60 * component_value h + decimal_value m))).
Proof.
  split.
  - intros pre s H. rewrite !parseISODurationToMinutes_text. unfold match_duration.
    now rewrite after_first_PT_prefix.
  - intros h m post Hh Hm Hb. rewrite parseISODurationToMinutes_text.
    rewrite match_duration_followed by assumption.
    rewrite !capture_value_component. cbn [component_value]. f_equal.
    apply minutes_exact; try assumption.
    + now apply component_value_nonneg.
    + apply (component_value_nonneg (Some m)). exact Hm.
Qed.

Lemma parseISODurationToMinutes_context_witness :
  parseISODurationToMinutes (JStr ("about " ++ "PT2H30M"))
  = parseISODurationToMinutes (JStr "PT2H30M")
  /\ parseISODurationToMinutes
       (JStr (duration_text (Some "2"%string) (Some "30"%string) ++ "15S"))
     = Ok (float_of_Z (60 * 2 + 30)).
Proof.
  split.
  - apply (proj1 parseISODurationToMinutes_context). reflexivity.
  - apply (proj2 parseISODurationToMinutes_context (Some "2"%string)); reflexivity.
Defined.

(** ** Durations the pattern does not cover *)

Lemma parse_no_PT (s : string) :
  after_first_PT s = None -> parseISODurationToMinutes (JStr s) = Ok 0%float.
Proof.
  intros H. rewrite parseISODurationToMinutes_text. unfold match_duration. now rewrite H.
Qed.

(** X10.  Durations outside the pattern read as 0 minutes, without any
    error: a duration with a day part, [P<d>DT<h>H<m>M], whatever its hours
    and minutes; and a text in which [PT] is followed by digits and then by
    anything but [H] or [M] (seconds alone, a decimal fraction). *)
Theorem parseISODurationToMinutes_unsupported :
  (forall (d : string) (h m : option string),
      digit_run d = true -> optional_run h = true -> optional_run m = true ->
      parseISODurationToMinutes
        (JStr ("P" ++ d ++ "DT" ++ component h "H" ++ component m "M")) = Ok 0%float)
  /\ (forall (ds : string) (c : ascii) (rest : string),
         all_digits ds = true -> is_digit c = false ->
         c <> "H"%char -> c <> "M"%char ->
         parseISODurationToMinutes (JStr ("PT" ++ ds ++ String c rest)) = Ok 0%float).
Proof.
  split.
  - intros d h m Hd Hh Hm. apply parse_no_PT.
    destruct d as [ | c d]; [discriminate | ].
    cbn [digit_run all_digits] in Hd. apply andb_prop in Hd. destruct Hd as [Hc Hd].
    change ("P" ++ String c d ++ "DT" ++ component h "H" ++ component m "M")%string
      with (String "P" (String c (d ++ "DT" ++ component h "H" ++ component m "M"))).
    rewrite after_first_PT_step.
    assert (Hct : Ascii.eqb c "T" = false).
    { destruct (Ascii.eqb c "T") eqn:E; [ | reflexivity].
      apply Ascii.eqb_eq in E. subst c. discriminate. }
    rewrite Hct. cbn [andb Ascii.eqb].
    apply after_first_PT_no_P. cbn [no_P]. rewrite (is_digit_not_P c Hc). cbn [negb andb].
    rewrite !no_P_app, (all_digits_no_P d Hd).
    rewrite (optional_run_no_P h "H" Hh eq_refl), (optional_run_no_P m "M" Hm eq_refl).
    reflexivity.
  - intros ds c rest Hd Hc HH HM.
    rewrite parseISODurationToMinutes_text. unfold match_duration.
    change (after_first_PT ("PT" ++ ds ++ String c rest))
      with (Some (ds ++ String c rest)%string).
    cbv beta iota.
    rewrite match_group_other; [ | assumption | assumption | now apply Ascii.eqb_neq].
    rewrite match_group_other; [ | assumption | assumption | now apply Ascii.eqb_neq].
    reflexivity.
Qed.

Lemma parseISODurationToMinutes_unsupported_witness :
  parseISODurationToMinutes
    (JStr ("P" ++ "1" ++ "DT" ++ component (Some "2"%string) "H"
               ++ component (Some "30"%string) "M")) = Ok 0%float
  /\ parseISODurationToMinutes (JStr ("PT" ++ "45" ++ String "S" EmptyString)) = Ok 0%float.
Proof.
  split.
  - apply (proj1 parseISODurationToMinutes_unsupported "1"%string
                 (Some "2"%string) (Some "30"%string)); reflexivity.
  - apply (proj2 parseISODurationToMinutes_unsupported "45"%string "S"%char EmptyString);
      try reflexivity; discriminate.
Defined.

(** ** The check of the upstream errors *)

Lemma check_errors_length (fields : list (string * JSValue)) :
  truthy (errors_length (lookup "errors" fields)) = false ->
  check_errors (JObj fields) = Ok tt.
Proof.
  unfold check_errors, errors_length, query_field. cbn [get bind].
  destruct (lookup "errors" fields) as [ | | b | x | s | items | fs | name] eqn:E;
    cbn [get bind]; try reflexivity;
    change (String.eqb "length" "length") with true; cbn [bind]; try (now intros ->).
Qed.

Lemma array_join_cases (sep : string) (items : list JSValue) :
  array_join sep items =
  if forallb has_text items then Ok (join sep (map joined_text items)) else Threw TypeError.
Proof.
  unfold array_join.
  assert (H : mapM (fun x => match x with
                             | JUndefined | JNull => Ok EmptyString
                             | _ => ToString x
                             end) items
              = if forallb has_text items then Ok (map joined_text items)
                else Threw TypeError).
  { induction items as [ | x items IH]; [reflexivity | ].
    cbn [mapM forallb map]. rewrite IH.
    destruct (has_text x) eqn:Ex.
    - replace (match x with
               | JUndefined | JNull => Ok EmptyString
               | _ => ToString x
               end) with (Ok (A := string) (joined_text x)).
      + cbn [bind andb]. now destruct (forallb has_text items).
      + destruct x; try reflexivity; symmetry; now apply ToString_has_text.
    - destruct x; try discriminate; now rewrite (ToString_no_text _ Ex). }
  rewrite H. now destruct (forallb has_text items).
Qed.

(** X11.  The check of the upstream [errors] on a response object: it
    passes exactly when [errors?.length] is falsy ([errors] absent, [null],
    an empty list, an empty text, a number); a value that is not a list but
    has a truthy [length] (a text, for one) makes it throw a [TypeError], not
    an upstream error; a non-empty list makes it throw: a [TypeError] when
    an entry is [null], or when what is shown for an entry (its truthy
    [detail], else its truthy [title], else its dump) does not convert to
    text; and otherwise the upstream error, whose message is
    ["Amadeus error: "] followed by the texts shown, joined by [" | "]. *)
Theorem check_errors_cases (fields : list (string * JSValue)) (errors : JSValue) :
  lookup "errors" fields = errors ->
  (truthy (errors_length errors) = false -> check_errors (JObj fields) = Ok tt)
  /\ (truthy (errors_length errors) = true ->
      (forall entries, errors <> JArr entries) ->
      check_errors (JObj fields) = Threw TypeError)
  /\ (forall entries,
         errors = JArr entries -> entries <> [] ->
         if existsb nullish entries
         then check_errors (JObj fields) = Threw TypeError
         else exists shown,
             mapM error_text entries = Ok shown
             /\ if forallb has_text shown
                then check_errors (JObj fields)
                     = Threw (Error ("Amadeus error: " ++ join " | " (map joined_text shown)))
                else check_errors (JObj fields) = Threw TypeError).
Proof.
  intros He. split; [ | split].
  - intros H. apply check_errors_length. now rewrite He.
  - intros H Hn. unfold check_errors. cbn [get bind]. rewrite He.
    unfold errors_length, query_field in H.
    destruct errors as [ | | b | x | s | items | fs | name]; try discriminate;
      try (now destruct (Hn items));
      cbn [get bind] in *; change (String.eqb "length" "length") with true in *;
      cbn [bind]; try rewrite H; reflexivity.
  - intros entries -> Hne. rewrite (check_errors_list fields entries He Hne).
    pose proof (mapM_error_text_cases entries) as H.
    destruct (existsb nullish entries).
    + now rewrite H.
    + destruct H as (shown & ->). exists shown. split; [reflexivity | ].
      cbn [bind]. rewrite array_join_cases.
      destruct (forallb has_text shown); reflexivity.
Qed.

Lemma check_errors_cases_witness :
  check_errors (JObj [("errors", JArr [])]%string) = Ok tt
  /\ check_errors (JObj [("errors", JStr "quota exceeded")]%string) = Threw TypeError
  /\ check_errors (JObj [("errors", JArr [JNull])]%string) = Threw TypeError
  /\ check_errors sample_opaque_error_response = Threw TypeError
  /\ check_errors sample_error_response = Threw (Error sample_error_message).
Proof.
  split; [ | split; [ | split; [ | split]]].
  - exact (proj1 (check_errors_cases [("errors", JArr [])]%string _ eq_refl) eq_refl).
  - refine (proj1 (proj2 (check_errors_cases [("errors", JStr "quota exceeded")]%string _
                            eq_refl)) eq_refl _).
    discriminate.
  - refine (proj2 (proj2 (check_errors_cases [("errors", JArr [JNull])]%string _ eq_refl))
                  [JNull] eq_refl _).
    discriminate.
  - pose proof (proj2 (proj2 (check_errors_cases
                                [("errors", JArr [JObj [("detail", opaque)]])]%string _ eq_refl))
                      [JObj [("detail", opaque)]%string] eq_refl) as H.
    cbn [existsb nullish orb] in H. destruct H as (shown & Hs & H); [discriminate | ].
    injection Hs as <-. exact H.
  - pose proof (proj2 (proj2 (check_errors_cases
                                [("errors", JArr sample_error_entries);
                                 ("data", JArr [JObj []])]%string _ eq_refl))
                      sample_error_entries eq_refl) as H.
    cbn [existsb nullish orb sample_error_entries] in H.
    destruct H as (shown & Hs & H); [discriminate | ].
    injection Hs as <-. exact H.
Defined.

(** ** A response that is not an object *)

(** X12.  When the body of the upstream response is not an object: a JSON
    [null] makes the processing throw a [TypeError]; a list, a text (the
    empty text [ky] yields for a 204), a number or a boolean is taken for a
    response without errors and without data, and gives no option. *)
Theorem process_response_not_object (q res : JSValue) :
  nullish q = false ->
  (forall fields, res <> JObj fields) ->
  (nullish res = true -> process_response q res = Threw TypeError)
  /\ (nullish res = false -> process_response q res = Ok []).
Proof.
  intros Hq Hn. destruct (get_not_nullish q "optimize" Hq) as (o & Ho).
  split; intros Hr; unfold process_response, check_errors;
    destruct res as [ | | b | x | s | items | fields | name]; try discriminate;
    try (now destruct (Hn fields)); try reflexivity;
    cbn [get bind]; try change (String.eqb "errors" "length") with false;
    try change (String.eqb "errors" "at") with false;
    try change (String.eqb "data" "length") with false;
    try change (String.eqb "data" "at") with false;
    cbn [bind truthy array_or_empty map_offers mapM_idx]; rewrite Ho; cbn [bind];
    now rewrite local_sort_nil.
Qed.

Lemma process_response_not_object_witness :
  process_response (sample_query "cheapest") (JStr EmptyString) = Ok []
  /\ process_response (sample_query "cheapest") JNull = Threw TypeError.
Proof.
  split.
  - refine (proj2 (process_response_not_object (sample_query "cheapest") (JStr EmptyString)
                     eq_refl _) eq_refl).
    discriminate.
  - refine (proj1 (process_response_not_object (sample_query "cheapest") JNull
                     eq_refl _) eq_refl).
    discriminate.
Defined.

(* ================================================================== *)
(** * Part XII.  The order of numbers and the ranking                   *)
(* ================================================================== *)

(** ** Comparison of binary64 numbers, on a line of integers *)

Lemma valid_finite_bounds (s : bool) (m : positive) (e : Z) :
  valid_binary (S754_finite s m e) = true ->
  canonical_mantissa prec emax m e = true
  /\ -1074 <= e <= 971
  /\ 0 < Zpos m * 2 ^ (e + 1074) < 2 ^ 2098.
Proof.
  cbn [valid_binary]. unfold bounded. intros H. apply andb_prop in H. destruct H as [Hc Hb].
  split; [exact Hc | ].
  pose proof (canonical_emin m e Hc) as Hmin. rewrite emin64_value in Hmin.
  apply Z.leb_le in Hb. change (emax - prec) with 971 in Hb.
  split; [lia | ].
  unfold canonical_mantissa in Hc. apply Z.eqb_eq in Hc. rewrite fexp64 in Hc.
  pose proof (digits2_pos_bounds m) as [_ Hm].
  assert (Hd : Zpos (digits2_pos m) <= 53) by lia.
  assert (H53 : Zpos m < 2 ^ 53).
  { eapply Z.lt_le_trans; [exact Hm | ]. apply Z.pow_le_mono_r; lia. }
  assert (Hp : 0 < 2 ^ (e + 1074)) by (apply Z.pow_pos_nonneg; lia).
  split; [lia | ].
  apply Z.lt_le_trans with (2 ^ 53 * 2 ^ (e + 1074)).
  - apply Z.mul_lt_mono_pos_r; assumption.
  - rewrite <- Z.pow_add_r by lia. apply Z.pow_le_mono_r; lia.
Qed.

Lemma finite_compare_rank (m1 : positive) (e1 : Z) (m2 : positive) (e2 : Z) :
  canonical_mantissa prec emax m1 e1 = true ->
  canonical_mantissa prec emax m2 e2 = true ->
  match e1 ?= e2 with
  | Lt => Lt
  | Gt => Gt
  | Eq => Pos.compare_cont Eq m1 m2
  end = (Zpos m1 * 2 ^ (e1 + 1074) ?= Zpos m2 * 2 ^ (e2 + 1074)).
Proof.
  intros H1 H2. rewrite (canonical_compare m1 e1 m2 e2 H1 H2).
  pose proof (canonical_emin m1 e1 H1) as M1. pose proof (canonical_emin m2 e2 H2) as M2.
  rewrite emin64_value in M1, M2.
  remember (Z.min e1 e2) as mn eqn:Hmn.
  assert (Hp : 0 < 2 ^ (mn + 1074)) by (apply Z.pow_pos_nonneg; lia).
  replace (e1 + 1074) with ((e1 - mn) + (mn + 1074)) by lia.
  replace (e2 + 1074) with ((e2 - mn) + (mn + 1074)) by lia.
  assert (D1 : 0 <= e1 - mn) by lia. assert (D2 : 0 <= e2 - mn) by lia.
  rewrite (Z.pow_add_r 2 (e1 - mn)), (Z.pow_add_r 2 (e2 - mn)) by lia.
  rewrite !Z.mul_assoc.
  apply Zmult_compare_compat_r. lia.
Qed.

Lemma SFcompare_rank (x y : spec_float) :
  valid_binary x = true -> valid_binary y = true ->
  x <> S754_nan -> y <> S754_nan ->
  SFcompare x y = Some (rank x ?= rank y).
Proof.
  intros Vx Vy Nx Ny.
  assert (HB : 0 < 2 ^ 2098) by (apply Z.pow_pos_nonneg; lia).
  remember (2 ^ 2098) as B eqn:EB.
  destruct x as [sx | sx | | sx mx ex]; [ | | congruence | ];
    destruct y as [sy | sy | | sy my ey]; try congruence;
    try (destruct (valid_finite_bounds _ _ _ Vx) as (Cx & Ex & Rx));
    try (destruct (valid_finite_bounds _ _ _ Vy) as (Cy & Ey & Ry));
    cbn [SFcompare rank]; rewrite <- ?EB in *; clear EB.
  - reflexivity.
  - destruct sy; f_equal; symmetry; [apply Z.compare_gt_iff | apply Z.compare_lt_iff]; lia.
  - destruct sy; f_equal; symmetry; [apply Z.compare_gt_iff | apply Z.compare_lt_iff]; lia.
  - destruct sx; f_equal; symmetry; [apply Z.compare_lt_iff | apply Z.compare_gt_iff]; lia.
  - destruct sx, sy; f_equal; symmetry;
      try apply Z.compare_refl; [apply Z.compare_lt_iff | apply Z.compare_gt_iff]; lia.
  - destruct sx, sy; f_equal; symmetry; try (apply Z.compare_lt_iff; lia); apply Z.compare_gt_iff; lia.
  - destruct sx; f_equal; symmetry; [apply Z.compare_lt_iff | apply Z.compare_gt_iff]; lia.
  - destruct sx, sy; f_equal; symmetry; try (apply Z.compare_lt_iff; lia); apply Z.compare_gt_iff; lia.
  - destruct sx, sy; f_equal.
    + rewrite Z.compare_opp.
      rewrite <- (finite_compare_rank my ey mx ex Cy Cx).
      rewrite (Z.compare_antisym ey ex).
      destruct (ey ?= ex); cbn [CompOpp]; try reflexivity.
      change (Pos.compare_cont Eq mx my) with (Pos.compare mx my).
      change (Pos.compare_cont Eq my mx) with (Pos.compare my mx).
      now rewrite (Pos.compare_antisym mx my).
    + symmetry. apply Z.compare_lt_iff. lia.
    + symmetry. apply Z.compare_gt_iff. lia.
    + apply finite_compare_rank; assumption.
Qed.

Lemma rank_eq (x y : spec_float) :
  valid_binary x = true -> valid_binary y = true ->
  x <> S754_nan -> y <> S754_nan ->
  rank x = rank y ->
  x = y \/ (exists sx sy, x = S754_zero sx /\ y = S754_zero sy).
Proof.
  intros Vx Vy Nx Ny H.
  pose proof (SFcompare_rank x y Vx Vy Nx Ny) as Hc. rewrite H, Z.compare_refl in Hc.
  assert (HB : 0 < 2 ^ 2098) by (apply Z.pow_pos_nonneg; lia).
  remember (2 ^ 2098) as B eqn:EB.
  destruct x as [sx | sx | | sx mx ex]; [ | | congruence | ];
    destruct y as [sy | sy | | sy my ey]; try congruence;
    try (destruct (valid_finite_bounds _ _ _ Vx) as (Cx & Ex & Rx));
    try (destruct (valid_finite_bounds _ _ _ Vy) as (Cy & Ey & Ry));
    cbn [rank] in H; rewrite <- ?EB in *; clear EB.
  - right. eauto.
  - destruct sy; lia.
  - destruct sy; lia.
  - destruct sx; lia.
  - left. destruct sx, sy; try reflexivity; lia.
  - destruct sx, sy; lia.
  - destruct sx; lia.
  - destruct sx, sy; lia.
  - left. cbn [SFcompare] in Hc.
    destruct sx, sy; try discriminate; injection Hc as Hc;
      destruct (ex ?= ey) eqn:E; try discriminate;
      apply Z.compare_eq in E; subst ey;
      [apply (f_equal CompOpp) in Hc; rewrite CompOpp_involutive in Hc; cbn [CompOpp] in Hc | ];
      change (Pos.compare_cont Eq mx my) with (Pos.compare mx my) in Hc;
      apply Pos.compare_eq in Hc; now subst my.
Qed.

Lemma float_ltb_rank (x y : float) :
  is_nan x = false -> is_nan y = false -> (x <? y)%float = (frank x <? frank y).
Proof.
  intros Hx Hy. rewrite ltb_spec. unfold SFltb, frank.
  rewrite SFcompare_rank by (apply Prim2SF_valid || now apply is_nan_Prim2SF).
  unfold Z.ltb. now destruct (rank (Prim2SF x) ?= rank (Prim2SF y)).
Qed.

Lemma float_leb_rank (x y : float) :
  is_nan x = false -> is_nan y = false -> (x <=? y)%float = (frank x <=? frank y).
Proof.
  intros Hx Hy. rewrite leb_spec. unfold SFleb, frank.
  rewrite SFcompare_rank by (apply Prim2SF_valid || now apply is_nan_Prim2SF).
  unfold Z.leb. now destruct (rank (Prim2SF x) ?= rank (Prim2SF y)).
Qed.

Lemma float_leb_not_nan (x y : float) :
  (x <=? y)%float = true -> is_nan x = false /\ is_nan y = false.
Proof.
  rewrite leb_spec. unfold SFleb. intros H.
  split; apply is_nan_Prim2SF; intros E; rewrite E in H.
  - discriminate.
  - now destruct (Prim2SF x).
Qed.

Lemma float_leb_trans (x y z : float) :
  (x <=? y)%float = true -> (y <=? z)%float = true -> (x <=? z)%float = true.
Proof.
  intros H1 H2.
  destruct (float_leb_not_nan _ _ H1) as [Nx Ny].
  destruct (float_leb_not_nan _ _ H2) as [_ Nz].
  rewrite float_leb_rank in * by assumption.
  apply Z.leb_le in H1, H2. apply Z.leb_le. lia.
Qed.

Lemma float_leb_refl (x : float) : is_nan x = false -> (x <=? x)%float = true.
Proof. intros H. rewrite float_leb_rank by assumption. apply Z.leb_refl. Qed.

Lemma float_lt_asym (x y : float) : (x <? y)%float = true -> (y <? x)%float = false.
Proof.
  rewrite !ltb_spec. unfold SFltb. rewrite (SFcompare_antisym (Prim2SF x) (Prim2SF y)).
  destruct (SFcompare (Prim2SF x) (Prim2SF y)) as [[ | | ] | ]; try discriminate. reflexivity.
Qed.

(** ** [Math.min] and [Math.max] do not depend on the order of their arguments *)

Lemma Prim2SF_zero_sign (x : float) (s : bool) :
  Prim2SF x = S754_zero s -> get_sign x = s.
Proof.
  intros H.
  assert (Hn : is_nan x = false) by (apply is_nan_Prim2SF; rewrite H; discriminate).
  assert (Hz : is_zero x = true).
  { unfold is_zero. rewrite eqb_spec, H. reflexivity. }
  unfold Prim2SF in H. rewrite Hn, Hz in H. now injection H.
Qed.

Lemma mkey_inj (x y : float) :
  is_nan x = false -> is_nan y = false ->
  frank x = frank y -> get_sign x = get_sign y -> x = y.
Proof.
  intros Nx Ny Hr Hs. apply Prim2SF_inj.
  destruct (rank_eq (Prim2SF x) (Prim2SF y)) as [H | (sx & sy & Hx & Hy)];
    try apply Prim2SF_valid; try (now apply is_nan_Prim2SF); try assumption.
  rewrite Hx, Hy. f_equal.
  rewrite <- (Prim2SF_zero_sign x sx Hx), <- (Prim2SF_zero_sign y sy Hy). exact Hs.
Qed.

Lemma Math_min2_nan (x y : float) :
  is_nan x || is_nan y = true -> Math_min2 x y = nan.
Proof. unfold Math_min2. now intros ->. Qed.

Lemma Math_max2_nan (x y : float) :
  is_nan x || is_nan y = true -> Math_max2 x y = nan.
Proof. unfold Math_max2. now intros ->. Qed.

Lemma Math_min2_key (x y : float) :
  is_nan x = false -> is_nan y = false ->
  Math_min2 x y = if mkey x <=? mkey y then x else y.
Proof.
  intros Nx Ny. unfold Math_min2. rewrite Nx, Ny. cbn [orb].
  rewrite !float_ltb_rank by assumption. unfold mkey.
  destruct (frank x <? frank y) eqn:E1.
  { apply Z.ltb_lt in E1.
    destruct (_ <=? _) eqn:E; [reflexivity | ]. apply Z.leb_gt in E.
    destruct (get_sign x), (get_sign y); lia. }
  destruct (frank y <? frank x) eqn:E2.
  { apply Z.ltb_lt in E2.
    destruct (_ <=? _) eqn:E; [ | reflexivity]. apply Z.leb_le in E.
    destruct (get_sign x), (get_sign y); lia. }
  apply Z.ltb_ge in E1, E2. assert (Hr : frank x = frank y) by lia.
  destruct (get_sign x) eqn:Sx, (get_sign y) eqn:Sy;
    destruct (_ <=? _) eqn:E; try reflexivity;
    try (apply Z.leb_gt in E; lia); try (apply Z.leb_le in E; lia).
  symmetry. apply mkey_inj; try assumption. congruence.
Qed.

Lemma Math_max2_key (x y : float) :
  is_nan x = false -> is_nan y = false ->
  Math_max2 x y = if mkey x <=? mkey y then y else x.
Proof.
  intros Nx Ny. unfold Math_max2. rewrite Nx, Ny. cbn [orb].
  rewrite !float_ltb_rank by assumption. unfold mkey.
  destruct (frank x <? frank y) eqn:E1.
  { apply Z.ltb_lt in E1.
    destruct (_ <=? _) eqn:E; [reflexivity | ]. apply Z.leb_gt in E.
    destruct (get_sign x), (get_sign y); lia. }
  destruct (frank y <? frank x) eqn:E2.
  { apply Z.ltb_lt in E2.
    destruct (_ <=? _) eqn:E; [ | reflexivity]. apply Z.leb_le in E.
    destruct (get_sign x), (get_sign y); lia. }
  apply Z.ltb_ge in E1, E2. assert (Hr : frank x = frank y) by lia.
  destruct (get_sign x) eqn:Sx, (get_sign y) eqn:Sy;
    destruct (_ <=? _) eqn:E; try reflexivity;
    try (apply Z.leb_gt in E; lia); try (apply Z.leb_le in E; lia).
  apply mkey_inj; try assumption. congruence.
Qed.

Lemma mkey_eq (x y : float) :
  is_nan x = false -> is_nan y = false -> mkey x = mkey y -> x = y.
Proof.
  intros Nx Ny H. unfold mkey in H.
  apply mkey_inj; try assumption; destruct (get_sign x), (get_sign y); try reflexivity; lia.
Qed.

Ltac order_cases :=
  repeat match goal with
         | |- context [?u <=? ?v] => destruct (u <=? v) eqn:?
         end;
  try reflexivity;
  repeat match goal with
         | H : (_ <=? _) = true |- _ => apply Z.leb_le in H
         | H : (_ <=? _) = false |- _ => apply Z.leb_gt in H
         end;
  try lia;
  (apply mkey_eq; [assumption | assumption | lia]).

Lemma Math_min2_swap (a x y : float) :
  Math_min2 (Math_min2 a x) y = Math_min2 (Math_min2 a y) x.
Proof.
  destruct (is_nan a) eqn:Na.
  { rewrite (Math_min2_nan a x), (Math_min2_nan a y) by now rewrite Na.
    now rewrite !Math_min2_nan by reflexivity. }
  destruct (is_nan x) eqn:Nx.
  { rewrite (Math_min2_nan a x) by (rewrite Nx; apply orb_true_r).
    rewrite (Math_min2_nan nan y) by reflexivity.
    now rewrite (Math_min2_nan _ x) by (rewrite Nx; apply orb_true_r). }
  destruct (is_nan y) eqn:Ny.
  { rewrite (Math_min2_nan a y) by (rewrite Ny; apply orb_true_r).
    rewrite (Math_min2_nan nan x) by reflexivity.
    now rewrite (Math_min2_nan _ y) by (rewrite Ny; apply orb_true_r). }
  rewrite (Math_min2_key a x), (Math_min2_key a y) by assumption.
  destruct (mkey a <=? mkey x) eqn:E1, (mkey a <=? mkey y) eqn:E2;
    rewrite !Math_min2_key by assumption; rewrite ?E1, ?E2; order_cases.
Qed.

Lemma Math_max2_swap (a x y : float) :
  Math_max2 (Math_max2 a x) y = Math_max2 (Math_max2 a y) x.
Proof.
  destruct (is_nan a) eqn:Na.
  { rewrite (Math_max2_nan a x), (Math_max2_nan a y) by now rewrite Na.
    now rewrite !Math_max2_nan by reflexivity. }
  destruct (is_nan x) eqn:Nx.
  { rewrite (Math_max2_nan a x) by (rewrite Nx; apply orb_true_r).
    rewrite (Math_max2_nan nan y) by reflexivity.
    now rewrite (Math_max2_nan _ x) by (rewrite Nx; apply orb_true_r). }
  destruct (is_nan y) eqn:Ny.
  { rewrite (Math_max2_nan a y) by (rewrite Ny; apply orb_true_r).
    rewrite (Math_max2_nan nan x) by reflexivity.
    now rewrite (Math_max2_nan _ y) by (rewrite Ny; apply orb_true_r). }
  rewrite (Math_max2_key a x), (Math_max2_key a y) by assumption.
  destruct (mkey a <=? mkey x) eqn:E1, (mkey a <=? mkey y) eqn:E2;
    rewrite !Math_max2_key by assumption; rewrite ?E1, ?E2; order_cases.
Qed.

Lemma fold_left_perm {A B : Type} (f : A -> B -> A) (l l' : list B) :
  (forall a x y, f (f a x) y = f (f a y) x) ->
  Permutation l l' -> forall a, fold_left f l a = fold_left f l' a.
Proof.
  intros Hf. induction 1 as [ | x l l' _ IH | x y l | l l' l'' _ IH1 _ IH2]; intros a; cbn [fold_left].
  - reflexivity.
  - apply IH.
  - now rewrite Hf.
  - now rewrite IH1.
Qed.

Lemma Math_min_perm (xs ys : list float) : Permutation xs ys -> Math_min xs = Math_min ys.
Proof. intros H. unfold Math_min. now apply fold_left_perm; [apply Math_min2_swap | ]. Qed.

Lemma Math_max_perm (xs ys : list float) : Permutation xs ys -> Math_max xs = Math_max ys.
Proof. intros H. unfold Math_max. now apply fold_left_perm; [apply Math_max2_swap | ]. Qed.

Lemma score_in_perm (l l' : list Option) (m : Option) :
  Permutation l l' -> score_in l m = score_in l' m.
Proof.
  intros H. unfold score_in.
  now rewrite (Math_min_perm _ _ (Permutation_map price H)),
    (Math_max_perm _ _ (Permutation_map price H)),
    (Math_min_perm _ _ (Permutation_map totalDurationMin H)),
    (Math_max_perm _ _ (Permutation_map totalDurationMin H)).
Qed.

(** X13.  The balanced score of an option depends on the options it is
    ranked with only as a collection: were the same options listed in
    another order, the minimum and maximum price and duration, and so the
    score of every option, would be the same. *)
Theorem score_in_order_independent (mapped mapped' : list Option) :
  Permutation mapped mapped' ->
  Math_min (map price mapped) = Math_min (map price mapped')
  /\ Math_max (map price mapped) = Math_max (map price mapped')
  /\ Math_min (map totalDurationMin mapped) = Math_min (map totalDurationMin mapped')
  /\ Math_max (map totalDurationMin mapped) = Math_max (map totalDurationMin mapped')
  /\ forall o, score_in mapped o = score_in mapped' o.
Proof.
  intros H. repeat split.
  - apply Math_min_perm. now apply Permutation_map.
  - apply Math_max_perm. now apply Permutation_map.
  - apply Math_min_perm. now apply Permutation_map.
  - apply Math_max_perm. now apply Permutation_map.
  - intros o. now apply score_in_perm.
Qed.

Lemma score_in_order_independent_witness :
  map (score_in sample_mapped) sample_mapped
  = map (score_in (rev sample_mapped)) sample_mapped.
Proof.
  apply map_ext.
  exact (proj2 (proj2 (proj2 (proj2
           (score_in_order_independent sample_mapped (rev sample_mapped)
              (Permutation_rev sample_mapped)))))).
Defined.

(** ** [NaN] in the arithmetic of the score *)

Lemma sub_nan_r (x : float) : (x - nan)%float = nan.
Proof.
  apply Prim2SF_inj. rewrite sub_spec. change (Prim2SF nan) with S754_nan.
  now destruct (Prim2SF x).
Qed.

Lemma div_nan_l (x : float) : (nan / x)%float = nan.
Proof.
  apply Prim2SF_inj. rewrite div_spec. change (Prim2SF nan) with S754_nan. reflexivity.
Qed.

Lemma mul_nan_r (x : float) : (x * nan)%float = nan.
Proof.
  apply Prim2SF_inj. rewrite mul_spec. change (Prim2SF nan) with S754_nan.
  now destruct (Prim2SF x).
Qed.

Lemma add_nan_l (x : float) : (nan + x)%float = nan.
Proof.
  apply Prim2SF_inj. rewrite add_spec. change (Prim2SF nan) with S754_nan. reflexivity.
Qed.

Lemma fold_left_Math_min2_nan (xs : list float) : fold_left Math_min2 xs nan = nan.
Proof. induction xs as [ | x xs IH]; [reflexivity | ]. cbn [fold_left]. exact IH. Qed.

Lemma Math_min_nan (xs : list float) :
  Exists (fun x => is_nan x = true) xs -> Math_min xs = nan.
Proof.
  unfold Math_min. generalize infinity.
  induction xs as [ | x xs IH]; intros a H; [inversion H | ].
  cbn [fold_left]. destruct (is_nan x) eqn:E.
  - rewrite (Math_min2_nan a x) by (rewrite E; apply orb_true_r).
    apply fold_left_Math_min2_nan.
  - apply IH. inversion H as [? ? Hx | ? ? Hx]; subst; [congruence | assumption].
Qed.

Lemma score_in_nan (mapped : list Option) (m : Option) :
  Exists (fun o => is_nan (price o) = true) mapped -> score_in mapped m = nan.
Proof.
  intros H. unfold score_in, balanced_score.
  rewrite (Math_min_nan (map price mapped)).
  - now rewrite sub_nan_r, div_nan_l, mul_nan_r, add_nan_l.
  - apply Exists_exists in H. destruct H as (o & Ho & Hn).
    apply Exists_exists. exists (price o). split; [now apply in_map | assumption].
Qed.

(** ** Ranking a ranked list *)

Lemma array_sort_sorted_id {A : Type} (c : A -> A -> float) (l : list A) :
  Sorted (fun a b => (0 <? c a b)%float = false) l -> array_sort c l = l.
Proof.
  induction 1 as [ | a l Hs IH Hd]; [reflexivity | ].
  change (array_sort c (a :: l)) with (sort_insert c a (array_sort c l)).
  rewrite IH. destruct Hd as [ | b l' Hab]; [reflexivity | ].
  cbn [sort_insert]. now rewrite Hab.
Qed.

Lemma array_sort_twice {A : Type} (P : A -> Prop) (c : A -> A -> float) (l : list A) :
  (forall x y, P x -> P y -> (0 <? c x y)%float = true -> (0 <? c y x)%float = false) ->
  Forall P l -> array_sort c (array_sort c l) = array_sort c l.
Proof.
  intros Hc Hl. apply array_sort_sorted_id.
  apply array_sort_sorted with (P := P); [trivial | exact Hc | exact Hl].
Qed.

Lemma key_sort_twice {A : Type} (key : A -> float) (l : list A) :
  Forall (fun a => is_nan (key a) = false) l ->
  array_sort (fun a b => (key a - key b)%float)
             (array_sort (fun a b => (key a - key b)%float) l)
  = array_sort (fun a b => (key a - key b)%float) l.
Proof.
  apply array_sort_twice. intros x y Hx Hy T.
  rewrite float_sub_positive in * by assumption. now apply float_lt_asym.
Qed.

Lemma balanced_twice (mapped : list Option) :
  Forall (fun o => _score o = None) mapped ->
  Forall (fun o => is_nan (score_in mapped o) = false) mapped ->
  let ranked :=
    map delete_score
      (array_sort by_score (map (fun m => set_score (Some (score_in mapped m)) m) mapped)) in
  map delete_score
    (array_sort by_score (map (fun m => set_score (Some (score_in ranked m)) m) ranked))
  = ranked.
Proof.
  intros Hs Hn ranked.
  set (scored := map (fun m => set_score (Some (score_in mapped m)) m) mapped) in *.
  assert (Hperm : Permutation mapped ranked).
  { unfold ranked. apply perm_trans with (map delete_score scored).
    - unfold scored. rewrite map_map. rewrite <- (map_id mapped) at 1.
      rewrite Forall_forall in Hs. erewrite map_ext_in; [reflexivity | ].
      intros m Hm. cbn beta. symmetry. apply delete_set_score. now apply Hs.
    - apply Permutation_map, array_sort_perm. }
  assert (Hscored : forall e, In e (array_sort by_score scored) ->
                              set_score (Some (score_in ranked (delete_score e))) (delete_score e) = e
                              /\ is_nan (score_or_zero e) = false).
  { intros e He.
    apply (Permutation_in _ (Permutation_sym (array_sort_perm by_score scored))) in He.
    unfold scored in He. apply in_map_iff in He. destruct He as (m & <- & Hm).
    rewrite Forall_forall in Hs, Hn.
    rewrite (delete_set_score _ m (Hs m Hm)).
    rewrite <- (score_in_perm mapped ranked m Hperm). split; [reflexivity | ].
    exact (Hn m Hm). }
  assert (Hre : map (fun m => set_score (Some (score_in ranked m)) m) ranked
                = array_sort by_score scored).
  { unfold ranked at 2. rewrite map_map.
    rewrite <- (map_id (array_sort by_score scored)) at 2.
    apply map_ext_in. intros e He. now apply Hscored. }
  rewrite Hre.
  rewrite (array_sort_twice (fun e => is_nan (score_or_zero e) = false)); [reflexivity | | ].
  - intros x y Hx Hy T. unfold by_score in *.
    rewrite float_sub_positive in * by assumption. now apply float_lt_asym.
  - unfold scored. apply Forall_forall. intros e He. apply in_map_iff in He.
    destruct He as (m & <- & Hm). rewrite Forall_forall in Hn. exact (Hn m Hm).
Qed.

(** X14.  Ranking is idempotent: ranking the ranked options once more,
    under the same [optimize], changes nothing.  This holds under
    ["shortest"]; under ["cheapest"] when no price is [NaN]; and under any
    other value (the balanced ranking, whose minima, maxima and scores are
    computed afresh from the ranked list) when no score is [NaN]. *)
Theorem local_sort_idempotent
        (data : list JSValue) (mapped : list Option) (q_optimize : JSValue) :
  map_offers data = Ok mapped ->
  (q_optimize = JStr "shortest" ->
   local_sort q_optimize (local_sort q_optimize mapped) = local_sort q_optimize mapped)
  /\ (q_optimize = JStr "cheapest" ->
      Forall (fun o => is_nan (price o) = false) mapped ->
      local_sort q_optimize (local_sort q_optimize mapped) = local_sort q_optimize mapped)
  /\ (q_optimize <> JStr "shortest" -> q_optimize <> JStr "cheapest" ->
      Forall (fun o => is_nan (score_in mapped o) = false) mapped ->
      local_sort q_optimize (local_sort q_optimize mapped) = local_sort q_optimize mapped).
Proof.
  intros Hmap. pose proof (map_offers_fields _ _ Hmap) as Hf.
  assert (Hs : Forall (fun o => _score o = None) mapped).
  { eapply Forall_impl; [ | exact Hf]. now intros o [H _]. }
  assert (Hd : Forall (fun o => is_nan (totalDurationMin o) = false) mapped).
  { eapply Forall_impl; [ | exact Hf]. intros o [_ H]. now apply nonneg_number_not_nan. }
  split; [ | split].
  - intros ->. rewrite !local_sort_shortest. now apply (key_sort_twice totalDurationMin).
  - intros -> Hp. rewrite !local_sort_cheapest. now apply (key_sort_twice price).
  - intros H1 H2 Hn. rewrite (local_sort_balanced q_optimize mapped H1 H2).
    rewrite local_sort_balanced by assumption. now apply balanced_twice.
Qed.

Lemma local_sort_idempotent_witness :
  local_sort (JStr "balanced") (local_sort (JStr "balanced") same_price_mapped)
  = local_sort (JStr "balanced") same_price_mapped
  /\ local_sort (JStr "cheapest") (local_sort (JStr "cheapest") sample_mapped)
     = local_sort (JStr "cheapest") sample_mapped.
Proof.
  split.
  - refine (proj2 (proj2 (local_sort_idempotent same_price_data same_price_mapped
                            (JStr "balanced") eq_refl)) _ _ _);
      try discriminate.
    repeat constructor.
  - refine (proj1 (proj2 (local_sort_idempotent sample_data sample_mapped
                            (JStr "cheapest") eq_refl)) eq_refl _).
    repeat constructor.
Defined.

(** ** The first option *)

Lemma nondecreasing_first {A : Type} (key : A -> float) (a : A) (l : list A) :
  nondecreasing key (a :: l) -> is_nan (key a) = false ->
  forall b, In b (a :: l) -> (key a <=? key b)%float = true.
Proof.
  intros Hs Ha b Hb. apply Sorted_StronglySorted in Hs.
  - apply StronglySorted_inv in Hs. destruct Hs as [_ Hall].
    destruct Hb as [<- | Hb]; [now apply float_leb_refl | ].
    rewrite Forall_forall in Hall. now apply Hall.
  - intros x y z. apply float_leb_trans.
Qed.

(** X15.  The first option returned is a best one: under ["shortest"] no
    mapped option has a smaller [totalDurationMin] than the first of the
    ranked list, and under ["cheapest"], when no price is [NaN], none has a
    smaller [price]. *)
Theorem local_sort_first_least
        (data : list JSValue) (mapped : list Option) (first : Option) (rest : list Option) :
  map_offers data = Ok mapped ->
  (local_sort (JStr "shortest") mapped = first :: rest ->
   forall o, In o mapped -> (totalDurationMin first <=? totalDurationMin o)%float = true)
  /\ (Forall (fun o => is_nan (price o) = false) mapped ->
      local_sort (JStr "cheapest") mapped = first :: rest ->
      forall o, In o mapped -> (price first <=? price o)%float = true).
Proof.
  intros Hmap. pose proof (map_offers_fields _ _ Hmap) as Hf.
  assert (Hd : Forall (fun o => is_nan (totalDurationMin o) = false) mapped).
  { eapply Forall_impl; [ | exact Hf]. intros o [_ H]. now apply nonneg_number_not_nan. }
  split.
  - intros Hr o Ho. rewrite local_sort_shortest in Hr.
    pose proof (comparator_sorts totalDurationMin mapped Hd) as Hs.
    pose proof (array_sort_perm by_duration mapped) as Hp.
    unfold by_duration in *. rewrite Hr in Hs, Hp.
    apply (nondecreasing_first totalDurationMin first rest Hs).
    + rewrite Forall_forall in Hd. apply Hd.
      apply (Permutation_in _ (Permutation_sym Hp)). now left.
    + now apply (Permutation_in _ Hp).
  - intros Hn Hr o Ho. rewrite local_sort_cheapest in Hr.
    pose proof (comparator_sorts price mapped Hn) as Hs.
    pose proof (array_sort_perm by_price mapped) as Hp.
    unfold by_price in *. rewrite Hr in Hs, Hp.
    apply (nondecreasing_first price first rest Hs).
    + rewrite Forall_forall in Hn. apply Hn.
      apply (Permutation_in _ (Permutation_sym Hp)). now left.
    + now apply (Permutation_in _ Hp).
Qed.

Lemma local_sort_first_least_witness :
  Forall (fun o => (price (nth 1 sample_mapped blank_option) <=? price o)%float = true)
         sample_mapped.
Proof.
  apply Forall_forall.
  refine (proj2 (local_sort_first_least sample_data sample_mapped
                   (nth 1 sample_mapped blank_option) [nth 0 sample_mapped blank_option]
                   eq_refl) _ eq_refl).
  repeat constructor.
Defined.

(** ** A price that is not a number, in the balanced ranking *)

(** X16.  When the price of some option is [NaN] (its offer had no numeric
    total), the balanced ranking (any [optimize] other than ["shortest"] and
    ["cheapest"]) ranks nothing: the minimum price, and with it every score,
    is [NaN], and the options come back in the order the mapping produced
    them. *)
Theorem balanced_with_unpriced
        (data : list JSValue) (mapped : list Option) (q_optimize : JSValue) :
  map_offers data = Ok mapped ->
  q_optimize <> JStr "shortest" -> q_optimize <> JStr "cheapest" ->
  Exists (fun o => is_nan (price o) = true) mapped ->
  (forall o, is_nan (score_in mapped o) = true)
  /\ local_sort q_optimize mapped = mapped.
Proof.
  intros Hmap H1 H2 Hn. pose proof (map_offers_fields _ _ Hmap) as Hf.
  split; [intros o; now rewrite score_in_nan | ].
  rewrite local_sort_balanced by assumption.
  rewrite array_sort_id.
  - rewrite map_map. transitivity (map (fun m => m) mapped); [ | apply map_id].
    apply map_ext_in. intros m Hm. apply delete_set_score.
    rewrite Forall_forall in Hf. now destruct (Hf m Hm).
  - intros x y Hx Hy. apply in_map_iff in Hx, Hy.
    destruct Hx as (m & <- & Hm), Hy as (m' & <- & Hm').
    unfold by_score, score_or_zero. cbn [_score set_score].
    rewrite !score_in_nan by assumption. reflexivity.
Qed.

Lemma balanced_with_unpriced_witness :
  local_sort (JStr "balanced") unpriced_mapped = unpriced_mapped.
Proof.
  refine (proj2 (balanced_with_unpriced unpriced_data unpriced_mapped (JStr "balanced")
                   eq_refl _ _ _));
    try discriminate.
  apply Exists_cons_tl, Exists_cons_hd. reflexivity.
Defined.

(** ** Scores of ordinary prices and durations *)

(** *** Subtraction without overflow *)


Lemma Zdigits2_bound (m : Z) : 0 <= m -> m < 2 ^ Zdigits2 m.
Proof.
  intros H. destruct m as [ | p | p]; try lia; cbn [Zdigits2].
  - reflexivity.
  - apply digits2_pos_bounds.
Qed.

Lemma Zdigits2_nonneg (m : Z) : 0 <= Zdigits2 m.
Proof. destruct m; cbn [Zdigits2]; lia. Qed.

Lemma Zdigits2_le (m : Z) (n : Z) : 0 <= m -> 0 <= n -> m <= 2 ^ n -> Zdigits2 m <= n + 1.
Proof.
  intros Hm Hn H. destruct m as [ | p | p]; try lia; cbn [Zdigits2]; [lia | ].
  pose proof (digits2_pos_bounds p) as [Lo _].
  destruct (Z_le_gt_dec (Zpos (digits2_pos p)) (n + 1)) as [L | G]; [assumption | ].
  assert (2 ^ (n + 1) <= 2 ^ (Zpos (digits2_pos p) - 1)) by (apply Z.pow_le_mono_r; lia).
  rewrite (Z.pow_add_r 2 n 1) in * by lia. change (2 ^ 1) with 2 in *.
  assert (0 < 2 ^ n) by (apply Z.pow_pos_nonneg; lia). lia.
Qed.

(** Rounding a mantissa that is aligned and whose exponent leaves room
    does not overflow. *)
Lemma binary_round_aux_bounded (m e : Z) (l : location) :
  0 <= m -> -1074 <= e ->
  e <= fexp prec emax (Zdigits2 m + e) ->
  fexp prec emax (Zdigits2 m + e) <= 970 ->
  SF_finite_nonneg (binary_round_aux prec emax false m e l) = true.
Proof.
  intros Hm He Hal Hf. rewrite fexp64 in Hal, Hf.
  unfold binary_round_aux, shr_fexp. rewrite fexp64.
  pose proof (Zdigits2_bound m Hm) as Hd. pose proof (Zdigits2_nonneg m) as Hd0.
  remember (Zdigits2 m) as d eqn:Ed.
  remember (Z.max (d + e - 53) (-1074) - e) as k eqn:Ek.
  assert (Hk : 0 <= k) by lia.
  destruct (shr_m_value (shr_record_of_loc m l) e k) as [Hm1 He1].
  { now rewrite shr_record_of_loc_m. }
  destruct (shr (shr_record_of_loc m l) e k) as [mrs1 e1].
  cbn [fst snd] in Hm1, He1. rewrite shr_record_of_loc_m in Hm1.
  rewrite Z.max_r in Hm1, He1 by lia.
  assert (Hp : 0 < 2 ^ k) by (apply Z.pow_pos_nonneg; lia).
  assert (H1lo : 0 <= shr_m mrs1) by (rewrite Hm1; apply Z.div_pos; lia).
  assert (H1hi : shr_m mrs1 < 2 ^ 53).
  { rewrite Hm1. apply Z.div_lt_upper_bound; [assumption | ].
    rewrite <- Z.pow_add_r by lia.
    eapply Z.lt_le_trans; [exact Hd | ]. apply Z.pow_le_mono_r; lia. }
  remember (round_nearest_even (shr_m mrs1) (loc_of_shr_record mrs1)) as m2 eqn:E2.
  assert (Hm2 : 0 <= m2 <= 2 ^ 53).
  { rewrite E2. destruct (loc_of_shr_record mrs1) as [ | [ | | ]]; cbn [round_nearest_even];
      try lia. destruct (Z.even (shr_m mrs1)); lia. }
  pose proof (Zdigits2_le m2 53 ltac:(lia) ltac:(lia) ltac:(lia)) as Hd2.
  pose proof (Zdigits2_nonneg m2) as Hd20.
  remember (Zdigits2 m2) as d2 eqn:Ed2.
  rewrite fexp64.
  remember (Z.max (d2 + e1 - 53) (-1074) - e1) as k2 eqn:Ek2.
  destruct (shr_m_value (shr_record_of_loc m2 loc_Exact) e1 k2) as [Hm3 He3].
  { rewrite shr_record_of_loc_m. lia. }
  destruct (shr (shr_record_of_loc m2 loc_Exact) e1 k2) as [mrs3 e3].
  cbn [fst snd] in Hm3, He3. rewrite shr_record_of_loc_m in Hm3.
  assert (H3 : 0 <= shr_m mrs3).
  { rewrite Hm3. apply Z.div_pos; [lia | apply Z.pow_pos_nonneg; lia]. }
  destruct (shr_m mrs3) as [ | m3 | m3]; try lia; [reflexivity | ].
  change (emax - prec) with 971.
  destruct (e3 <=? 971) eqn:E; [reflexivity | ]. apply Z.leb_gt in E. lia.
Qed.

Lemma shl_align_snd (m : positive) (e e' : Z) :
  e' <= e -> snd (shl_align m e e') = e'.
Proof.
  intros He. unfold shl_align. destruct (e' - e) as [ | d | d] eqn:Hd; cbn [snd]; lia.
Qed.

Lemma shl_align_id (m : positive) (e e' : Z) : e <= e' -> shl_align m e e' = (m, e).
Proof.
  intros He. unfold shl_align. destruct (e' - e) as [ | d | d] eqn:Hd; try reflexivity. lia.
Qed.

Lemma digits2_pos_shift (m : positive) (n : Z) (q : positive) :
  0 <= n -> Zpos q = Zpos m * 2 ^ n -> Zpos (digits2_pos q) = Zpos (digits2_pos m) + n.
Proof.
  intros Hn Hq. pose proof (Zdigits2_shift m n Hn) as H. rewrite <- Hq in H. exact H.
Qed.

(** A number below [2^1023] has its leading bit below position 1023. *)
Lemma digits_of_bounded (p : positive) (e : Z) :
  -1074 <= e -> Zpos p * 2 ^ (e + 1074) < 2 ^ 2097 ->
  Zpos (digits2_pos p) + e <= 1023.
Proof.
  intros He Hv. pose proof (digits2_pos_bounds p) as [Lo _].
  assert (H : 2 ^ (Zpos (digits2_pos p) - 1 + (e + 1074)) < 2 ^ 2097).
  { eapply Z.le_lt_trans; [ | exact Hv]. clear Hv.
    rewrite Z.pow_add_r by lia.
    apply Z.mul_le_mono_nonneg_r; [apply Z.pow_nonneg; lia | exact Lo]. }
  clear Hv. apply Z.pow_lt_mono_r_iff in H; [ | clear H; lia | clear H; lia]. lia.
Qed.

Lemma binary_round_bounded (p : positive) (e : Z) :
  -1074 <= e -> Zpos p * 2 ^ (e + 1074) < 2 ^ 2097 ->
  SF_finite_nonneg (binary_round prec emax false p e) = true.
Proof.
  intros He Hv. pose proof (digits_of_bounded p e He Hv) as Hsum. clear Hv.
  unfold binary_round. rewrite fexp64.
  pose proof (digits2_pos_bounds p) as [Lo Hi].
  remember (Zpos (digits2_pos p)) as d eqn:Ed.
  assert (Hd1 : 1 <= d) by (rewrite Ed; lia).
  remember (Z.max (d + e - 53) (-1074)) as f eqn:Ef.
  destruct (Z_le_gt_dec f e) as [L | G].
  - pose proof (shl_align_value p e f L) as Hval. pose proof (shl_align_snd p e f L) as Hsnd.
    destruct (shl_align p e f) as [mz ez]. cbn [fst snd] in Hval, Hsnd. subst ez.
    assert (Hdz : Zpos (digits2_pos mz) = d + (e - f)).
    { rewrite Ed. apply digits2_pos_shift; [lia | assumption]. }
    apply binary_round_aux_bounded; cbn [Zdigits2]; rewrite ?fexp64, ?Hdz; lia.
  - rewrite shl_align_id by lia.
    apply binary_round_aux_bounded; cbn [Zdigits2]; rewrite ?fexp64, <- ?Ed; lia.
Qed.


Lemma SF_finite_nonneg_rank (x : spec_float) : SF_finite_nonneg x = true -> 0 <= rank x.
Proof.
  destruct x as [s | s | | [ | ] m e]; cbn [SF_finite_nonneg rank negb];
    try discriminate; lia.
Qed.

(** The difference of two finite numbers, the smaller taken from the
    greater, when rounding numbers below [bound] does not overflow. *)
Lemma SFsub_below (bound : Z) (x y : spec_float) :
  (forall p e, -1074 <= e -> Zpos p * 2 ^ (e + 1074) < bound ->
               SF_finite_nonneg (binary_round prec emax false p e) = true) ->
  valid_binary x = true -> valid_binary y = true ->
  SF_finite_nonneg x = true -> SF_finite_nonneg y = true ->
  rank y <= rank x -> rank x < bound ->
  SF_finite_nonneg (SF64sub x y) = true.
Proof.
  intros Hround Vx Vy Fx Fy Hle Hb.
  destruct x as [sx | sx | | sx mx ex]; try discriminate;
    destruct y as [sy | sy | | sy my ey]; try discriminate.
  - destruct sx, sy; reflexivity.
  - destruct sy; [discriminate | ].
    destruct (valid_finite_bounds _ _ _ Vy) as (_ & _ & Ry & _). cbn [rank] in Hle. lia.
  - exact Fx.
  - destruct sx; [discriminate | ]. destruct sy; [discriminate | ].
    destruct (valid_finite_bounds _ _ _ Vx) as (Cx & Ex & Rx & _).
    destruct (valid_finite_bounds _ _ _ Vy) as (Cy & Ey & Ry & _).
    cbn [rank] in Hle, Hb.
    unfold SF64sub, SFsub. cbn [cond_Zopp].
    rewrite !shl_align_value by lia.
    remember (Z.min ex ey) as ez eqn:Eez.
    remember (Zpos mx * 2 ^ (ex - ez)) as vx eqn:Evx.
    remember (Zpos my * 2 ^ (ey - ez)) as vy eqn:Evy.
    assert (Hp : 0 < 2 ^ (ez + 1074)) by (apply Z.pow_pos_nonneg; lia).
    assert (Hx : Zpos mx * 2 ^ (ex + 1074) = vx * 2 ^ (ez + 1074)).
    { rewrite Evx, <- Z.mul_assoc, <- Z.pow_add_r by lia. f_equal. f_equal. lia. }
    assert (Hy : Zpos my * 2 ^ (ey + 1074) = vy * 2 ^ (ez + 1074)).
    { rewrite Evy, <- Z.mul_assoc, <- Z.pow_add_r by lia. f_equal. f_equal. lia. }
    rewrite Hx in Hb, Hle. rewrite Hy in Hle.
    assert (Hvy : 0 < vy).
    { rewrite Evy. apply Z.mul_pos_pos; [lia | apply Z.pow_pos_nonneg; lia]. }
    assert (Hv : vy <= vx) by nia.
    destruct (vx - vy) as [ | p | p] eqn:Ed; try lia; cbn [binary_normalize]; [reflexivity | ].
    apply Hround; [lia | ].
    apply Z.le_lt_trans with (vx * 2 ^ (ez + 1074)); [ | assumption].
    apply Z.mul_le_mono_nonneg_r; lia.
Qed.

Lemma SFsub_bounded (x y : spec_float) :
  valid_binary x = true -> valid_binary y = true ->
  SF_finite_nonneg x = true -> SF_finite_nonneg y = true ->
  rank y <= rank x -> rank x < 2 ^ 2097 ->
  SF_finite_nonneg (SF64sub x y) = true.
Proof. apply SFsub_below. exact binary_round_bounded. Qed.

(** The ranks that bound the moderate numbers and the finite ones. *)
Lemma rank_bounds :
  frank 0x1p1000 < 2 ^ 2097 /\ 2 ^ 2097 < 2 ^ 2098 /\ 0 < 2 ^ 2098.
Proof.
  split; [ | split].
  - change (frank 0x1p1000) with (2 ^ 2074). apply Z.pow_lt_mono_r; lia.
  - apply Z.pow_lt_mono_r; lia.
  - apply Z.pow_pos_nonneg; lia.
Qed.

(** Linear arithmetic with the two bounds kept symbolic. *)
Ltac bounds_lia :=
  let B := fresh "B" in
  let T := fresh "T" in
  let EB := fresh "EB" in
  let ET := fresh "ET" in
  pose proof rank_bounds as (? & ? & ?);
  remember (2 ^ 2097) as B eqn:EB in *;
  remember (2 ^ 2098) as T eqn:ET in *;
  clear EB ET; lia.

(** The same on numbers. *)
Lemma moderate_spec (x : float) :
  moderate x = true ->
  is_nan x = false /\ SF_finite_nonneg (Prim2SF x) = true /\ frank x < 2 ^ 2097.
Proof.
  unfold moderate. intros H. apply andb_prop in H. destruct H as [H0 H1].
  destruct (float_leb_not_nan _ _ H0) as [_ Nx].
  rewrite float_leb_rank in H0, H1 by (assumption || reflexivity).
  apply Z.leb_le in H0, H1.
  change (frank 0) with 0 in H0.
  split; [exact Nx | ]. split; [ | bounds_lia].
  pose proof (Prim2SF_valid x) as V. apply is_nan_Prim2SF in Nx.
  remember (frank 0x1p1000) as limit eqn:El.
  unfold frank in H0, H1.
  destruct (Prim2SF x) as [s | s | | s m e]; try congruence; try reflexivity.
  - cbn [rank] in H0, H1. exfalso. rewrite El in H1. destruct s; bounds_lia.
  - destruct (valid_finite_bounds _ _ _ V) as (_ & _ & R & _). cbn [rank] in H0.
    destruct s; [lia | reflexivity].
Qed.

Lemma float_sub_bounded (x y : float) :
  moderate x = true -> moderate y = true -> frank y <= frank x ->
  SF_finite_nonneg (Prim2SF (x - y)) = true.
Proof.
  intros Hx Hy Hle.
  destruct (moderate_spec x Hx) as (_ & Fx & Bx). destruct (moderate_spec y Hy) as (_ & Fy & _).
  rewrite sub_spec. apply SFsub_bounded; try apply Prim2SF_valid; assumption.
Qed.

(** *** The least and the greatest, and the score *)


Lemma mkey_frank (x y : float) : mkey x <= mkey y -> frank x <= frank y.
Proof. unfold mkey. destruct (get_sign x), (get_sign y); lia. Qed.

Lemma fold_Math_min2_spec (xs : list float) (a : float) :
  is_nan a = false -> Forall (fun x => is_nan x = false) xs ->
  let r := fold_left Math_min2 xs a in
  is_nan r = false /\ (r = a \/ In r xs) /\ mkey r <= mkey a
  /\ forall x, In x xs -> mkey r <= mkey x.
Proof.
  intros Na Hxs. revert a Na. induction Hxs as [ | x xs Nx _ IH]; intros a Na; cbn [fold_left].
  - repeat split; try lia; [assumption | now left | intros x []].
  - assert (Hstep : is_nan (Math_min2 a x) = false
                    /\ (Math_min2 a x = a \/ Math_min2 a x = x)
                    /\ mkey (Math_min2 a x) <= mkey a /\ mkey (Math_min2 a x) <= mkey x).
    { rewrite Math_min2_key by assumption.
      destruct (mkey a <=? mkey x) eqn:E;
        [apply Z.leb_le in E | apply Z.leb_gt in E]; repeat split; auto; lia. }
    destruct Hstep as (Nr & Hr & Ha & Hx).
    destruct (IH _ Nr) as (N & Hin & Hle & Hall).
    repeat split.
    + exact N.
    + destruct Hin as [-> | Hin]; [ | right; now right].
      destruct Hr as [-> | ->]; [now left | right; now left].
    + lia.
    + intros y [<- | Hy]; [lia | now apply Hall].
Qed.

Lemma fold_Math_max2_spec (xs : list float) (a : float) :
  is_nan a = false -> Forall (fun x => is_nan x = false) xs ->
  let r := fold_left Math_max2 xs a in
  is_nan r = false /\ (r = a \/ In r xs) /\ mkey a <= mkey r
  /\ forall x, In x xs -> mkey x <= mkey r.
Proof.
  intros Na Hxs. revert a Na. induction Hxs as [ | x xs Nx _ IH]; intros a Na; cbn [fold_left].
  - repeat split; try lia; [assumption | now left | intros x []].
  - assert (Hstep : is_nan (Math_max2 a x) = false
                    /\ (Math_max2 a x = a \/ Math_max2 a x = x)
                    /\ mkey a <= mkey (Math_max2 a x) /\ mkey x <= mkey (Math_max2 a x)).
    { rewrite Math_max2_key by assumption.
      destruct (mkey a <=? mkey x) eqn:E;
        [apply Z.leb_le in E | apply Z.leb_gt in E]; repeat split; auto; lia. }
    destruct Hstep as (Nr & Hr & Ha & Hx).
    destruct (IH _ Nr) as (N & Hin & Hle & Hall).
    repeat split.
    + exact N.
    + destruct Hin as [-> | Hin]; [ | right; now right].
      destruct Hr as [-> | ->]; [now left | right; now left].
    + lia.
    + intros y [<- | Hy]; [lia | now apply Hall].
Qed.

Lemma moderate_not_nan (xs : list float) :
  Forall (fun x => moderate x = true) xs -> Forall (fun x => is_nan x = false) xs.
Proof. apply Forall_impl. intros x H. now apply moderate_spec. Qed.

Lemma frank_infinity : frank infinity = 2 ^ 2098.
Proof. reflexivity. Qed.

Lemma frank_neg_infinity : frank neg_infinity = - 2 ^ 2098.
Proof. reflexivity. Qed.

(** The least and the greatest of moderate numbers are among them. *)
Lemma Math_min_moderate (xs : list float) (x : float) :
  Forall (fun x => moderate x = true) xs -> In x xs ->
  moderate (Math_min xs) = true /\ frank (Math_min xs) <= frank x.
Proof.
  intros Hm Hx.
  destruct (fold_Math_min2_spec xs infinity eq_refl (moderate_not_nan xs Hm))
    as (_ & Hin & _ & Hall).
  fold (Math_min xs) in *. specialize (Hall x Hx). apply mkey_frank in Hall.
  split; [ | exact Hall].
  destruct Hin as [E | Hin].
  - exfalso. rewrite E, frank_infinity in Hall.
    rewrite Forall_forall in Hm. destruct (moderate_spec x (Hm x Hx)) as (_ & _ & B).
    bounds_lia.
  - rewrite Forall_forall in Hm. now apply Hm.
Qed.

Lemma Math_max_moderate (xs : list float) (x : float) :
  Forall (fun x => moderate x = true) xs -> In x xs ->
  moderate (Math_max xs) = true /\ frank x <= frank (Math_max xs).
Proof.
  intros Hm Hx.
  destruct (fold_Math_max2_spec xs neg_infinity eq_refl (moderate_not_nan xs Hm))
    as (_ & Hin & _ & Hall).
  fold (Math_max xs) in *. specialize (Hall x Hx). apply mkey_frank in Hall.
  split; [ | exact Hall].
  destruct Hin as [E | Hin].
  - exfalso. rewrite E, frank_neg_infinity in Hall.
    rewrite Forall_forall in Hm. destruct (moderate_spec x (Hm x Hx)) as (_ & F & _).
    apply SF_finite_nonneg_rank in F. fold (frank x) in F.
    bounds_lia.
  - rewrite Forall_forall in Hm. now apply Hm.
Qed.

Lemma rank_positive (x : spec_float) :
  valid_binary x = true -> 0 < rank x -> SF_positive x = true.
Proof.
  intros V H.
  destruct x as [s | s | | s m e]; cbn [rank SF_positive] in *; try lia.
  - destruct s; [bounds_lia | reflexivity].
  - destruct (valid_finite_bounds _ _ _ V) as (_ & _ & R & _).
    destruct s; [lia | reflexivity].
Qed.

Lemma Math_max_one_positive (z : float) :
  is_nan z = false -> SF_positive (Prim2SF (Math_max [1%float; z])) = true.
Proof.
  intros Nz. unfold Math_max. cbn [fold_left].
  change (Math_max2 neg_infinity 1) with 1%float.
  rewrite Math_max2_key by (assumption || reflexivity).
  assert (H1 : 0 < frank 1).
  { change (frank 1) with (2 ^ 1074). apply Z.pow_pos_nonneg; lia. }
  apply rank_positive; [apply Prim2SF_valid | ].
  fold (frank (if mkey 1 <=? mkey z then z else 1%float)).
  destruct (mkey 1 <=? mkey z) eqn:E; [ | exact H1].
  apply Z.leb_le, mkey_frank in E. lia.
Qed.

Lemma SFdiv_nonneg (x y : spec_float) :
  SF_finite_nonneg x = true -> SF_positive y = true -> SF_nonneg (SF64div x y) = true.
Proof.
  destruct x as [sx | sx | | sx mx ex]; try discriminate;
    destruct y as [sy | sy | | sy my ey]; try discriminate; cbn [SF_finite_nonneg SF_positive];
    intros Hx Hy; try (apply negb_true_iff in Hx); try (apply negb_true_iff in Hy); subst;
    unfold SF64div, SFdiv; try reflexivity.
  pose proof (SFdiv_core_binary_nonneg (Zpos mx) ex (Zpos my) ey ltac:(lia) ltac:(lia)) as H.
  destruct (SFdiv_core_binary prec emax (Zpos mx) ex (Zpos my) ey) as [[q e'] l].
  cbn [xorb]. apply binary_round_aux_nonneg. exact H.
Qed.

Lemma SFmul_half_nonneg (x : spec_float) :
  SF_nonneg x = true -> SF_nonneg (SF64mul (Prim2SF 0.5) x) = true.
Proof.
  change (Prim2SF 0.5) with (S754_finite false 4503599627370496 (-53)).
  destruct x as [s | s | | s m e]; cbn [SF_nonneg]; try discriminate; intros H;
    unfold SF64mul, SFmul; cbn [xorb]; try assumption.
  apply negb_true_iff in H. subst s. apply binary_round_aux_nonneg. lia.
Qed.

Lemma normalised_nonneg (x lo hi : float) :
  moderate x = true -> moderate lo = true -> moderate hi = true ->
  frank lo <= frank x -> frank lo <= frank hi ->
  SF_nonneg (Prim2SF (0.5 * ((x - lo) / Math_max [1; hi - lo]))%float) = true.
Proof.
  intros Hx Hlo Hhi H1 H2.
  rewrite mul_spec. apply SFmul_half_nonneg.
  rewrite div_spec. apply SFdiv_nonneg.
  - now apply float_sub_bounded.
  - apply Math_max_one_positive. apply is_nan_Prim2SF.
    pose proof (float_sub_bounded hi lo Hhi Hlo H2) as F.
    destruct (Prim2SF (hi - lo)); try discriminate; discriminate.
Qed.

Lemma score_in_nonneg (mapped : list Option) (o : Option) :
  Forall (fun m => moderate (price m) = true /\ moderate (totalDurationMin m) = true) mapped ->
  In o mapped ->
  nonneg_number (score_in mapped o) = true.
Proof.
  intros Hm Ho.
  assert (Hp : Forall (fun x => moderate x = true) (map price mapped)).
  { apply Forall_forall. intros x Hx. apply in_map_iff in Hx. destruct Hx as (m & <- & Hin).
    rewrite Forall_forall in Hm. now apply Hm. }
  assert (Ht : Forall (fun x => moderate x = true) (map totalDurationMin mapped)).
  { apply Forall_forall. intros x Hx. apply in_map_iff in Hx. destruct Hx as (m & <- & Hin).
    rewrite Forall_forall in Hm. now apply Hm. }
  destruct (Math_min_moderate _ (price o) Hp (in_map price _ _ Ho)) as [MinP LeP].
  destruct (Math_max_moderate _ (price o) Hp (in_map price _ _ Ho)) as [MaxP GeP].
  destruct (Math_min_moderate _ (totalDurationMin o) Ht (in_map totalDurationMin _ _ Ho))
    as [MinT LeT].
  destruct (Math_max_moderate _ (totalDurationMin o) Ht (in_map totalDurationMin _ _ Ho))
    as [MaxT GeT].
  rewrite Forall_forall in Hm. destruct (Hm o Ho) as [Mp Mt].
  unfold nonneg_number, score_in, balanced_score. rewrite add_spec.
  apply SFadd_nonneg; apply normalised_nonneg; try assumption; lia.
Qed.

(** X17.  When the price and the total duration of every mapped option
    lie between 0 and [2^1000], the balanced score of every option is a
    number that is neither [NaN] nor negative, and so the balanced ranking
    (any [optimize] other than ["shortest"] and ["cheapest"]) returns the
    options in non-decreasing order of score. *)
Theorem balanced_moderate
        (data : list JSValue) (mapped : list Option) (q_optimize : JSValue) :
  map_offers data = Ok mapped ->
  q_optimize <> JStr "shortest" -> q_optimize <> JStr "cheapest" ->
  Forall (fun o => moderate (price o) = true /\ moderate (totalDurationMin o) = true) mapped ->
  Forall (fun o => nonneg_number (score_in mapped o) = true) mapped
  /\ nondecreasing (score_in mapped) (local_sort q_optimize mapped).
Proof.
  intros Hmap H1 H2 Hm. pose proof (map_offers_fields _ _ Hmap) as Hf.
  assert (Hs : Forall (fun o => nonneg_number (score_in mapped o) = true) mapped).
  { apply Forall_forall. intros o Ho. now apply score_in_nonneg. }
  split; [exact Hs | ].
  rewrite local_sort_balanced by assumption. apply balanced_sorted.
  - eapply Forall_impl; [ | exact Hf]. now intros o [H _].
  - eapply Forall_impl; [ | exact Hs]. intros o. apply nonneg_number_not_nan.
Qed.

Lemma balanced_moderate_witness :
  Forall (fun o => nonneg_number (score_in sample_mapped o) = true) sample_mapped
  /\ nondecreasing (score_in sample_mapped) (local_sort (JStr "balanced") sample_mapped).
Proof.
  refine (balanced_moderate sample_data sample_mapped (JStr "balanced") eq_refl _ _ _);
    try discriminate.
  repeat constructor.
Defined.

(* ================================================================== *)
(** * Part XIII.  The routes                                            *)
(* ================================================================== *)

(** ** The guard and the three replies *)

Lemma query_of_not_nullish (body : JSValue) : nullish (query_of body) = false.
Proof.
  unfold query_of, js_or. destruct body as [ | | [ | ] | x | s | | | ]; try reflexivity;
    cbn [truthy]; destruct (negb _); reflexivity.
Qed.

Lemma validated_fields (q : JSValue) :
  nullish q = false ->
  validated q = truthy (query_field q "from") && truthy (query_field q "to")
                && truthy (query_field q "start").
Proof.
  intros Hq. unfold validated, query_field.
  destruct (get_not_nullish q "from" Hq) as (f & ->).
  destruct (get_not_nullish q "to" Hq) as (t & ->).
  destruct (get_not_nullish q "start" Hq) as (s & ->).
  reflexivity.
Qed.

Lemma validated_not_nullish (q : JSValue) : validated q = true -> nullish q = false.
Proof. intros H. destruct (validated_object q H) as (f & ->). reflexivity. Qed.

Lemma api_search_try_guard (w : World) (body : JSValue) :
  api_search_try w body =
  if validated (query_of body) then
    let* options := searchAmadeus w (query_of body) in Ok (options_reply options)
  else Ok incomplete_reply.
Proof.
  unfold api_search_try, validated. cbv zeta. fold (query_of body).
  pose proof (query_of_not_nullish body) as Hq.
  destruct (get_not_nullish (query_of body) "from" Hq) as (f & ->).
  destruct (get_not_nullish (query_of body) "to" Hq) as (t & ->).
  destruct (get_not_nullish (query_of body) "start" Hq) as (s & ->).
  cbn [bind]. destruct (truthy f), (truthy t), (truthy s); reflexivity.
Qed.


Lemma shown_message_spec (library_message : JSError -> string) (e : JSError) :
  js_or (message library_message e) (JStr "Server error")
  = JStr (shown_message library_message e)
  /\ shown_message library_message e <> EmptyString.
Proof.
  unfold shown_message, js_or, message.
  destruct e as [ | | | st | | [ | c t]];
    try (destruct (library_message _) as [ | c t]); cbn; split; try reflexivity; discriminate.
Qed.

Lemma api_search_threw
      (library_message : JSError -> string) (w : World) (body : JSValue) (e : JSError) :
  validated (query_of body) = true ->
  searchAmadeus w (query_of body) = Threw e ->
  api_search library_message w body
  = (failure_reply (shown_message library_message e), [PText "Search error:"; PError e]).
Proof.
  intros Hv Hs. unfold api_search. rewrite api_search_try_guard, Hv, Hs. cbn [bind].
  unfold failure_reply. now rewrite (proj1 (shown_message_spec library_message e)).
Qed.

Lemma api_search_ok
      (library_message : JSError -> string) (w : World) (body : JSValue)
      (options : list Option) :
  validated (query_of body) = true ->
  searchAmadeus w (query_of body) = Ok options ->
  api_search library_message w body = (options_reply options, []).
Proof.
  intros Hv Hs. unfold api_search. now rewrite api_search_try_guard, Hv, Hs.
Qed.

(** X18.  A request whose body is missing, or in which [from], [to] or
    [start] is absent or falsy (an empty text, 0, [null]), is answered with
    status 400 and [{ok: false, error: "from, to, start are required"}];
    nothing is printed, and the reply is the same whatever the credentials
    and whatever Amadeus would answer: the handler does not get to the
    search. *)
Theorem api_search_incomplete
        (library_message : JSError -> string) (w : World) (body : JSValue) :
  truthy (query_field (query_of body) "from") && truthy (query_field (query_of body) "to")
    && truthy (query_field (query_of body) "start") = false ->
  api_search library_message w body = (incomplete_reply, []).
Proof.
  intros H. unfold api_search. rewrite api_search_try_guard.
  rewrite (validated_fields _ (query_of_not_nullish body)), H. reflexivity.
Qed.

Lemma api_search_incomplete_witness :
  api_search sample_messages refusing_world JUndefined = (incomplete_reply, [])
  /\ api_search sample_messages refusing_world startless_query = (incomplete_reply, []).
Proof.
  split.
  - exact (api_search_incomplete sample_messages refusing_world JUndefined eq_refl).
  - exact (api_search_incomplete sample_messages refusing_world startless_query eq_refl).
Defined.

(** X19.  Every reply of [POST /api/search] is one of three: status 200
    with [{ok: true, options}], the options being those the search returned
    (each of them sound), and nothing printed; status 400 with the fixed
    text, and nothing printed; or status 500 with [{ok: false, error}] where
    [error] is a text that is never empty (the message of the error the
    search threw, or ["Server error"] when that is empty), the error being
    printed after the label ["Search error:"]. *)
Theorem api_search_replies
        (library_message : JSError -> string) (w : World) (body : JSValue) :
  (exists options,
      searchAmadeus w (query_of body) = Ok options
      /\ Forall sound_option options
      /\ api_search library_message w body = (options_reply options, []))
  \/ api_search library_message w body = (incomplete_reply, [])
  \/ (exists e,
         searchAmadeus w (query_of body) = Threw e
         /\ shown_message library_message e <> EmptyString
         /\ (message library_message e = JStr EmptyString ->
             shown_message library_message e = "Server error"%string)
         /\ (message library_message e <> JStr EmptyString ->
             message library_message e = JStr (shown_message library_message e))
         /\ api_search library_message w body
            = (failure_reply (shown_message library_message e),
               [PText "Search error:"; PError e])).
Proof.
  destruct (validated (query_of body)) eqn:Hv.
  - destruct (searchAmadeus w (query_of body)) as [options | e] eqn:Hs.
    + left. exists options. split; [reflexivity | ].
      split; [now apply (searchAmadeus_sound w (query_of body)) | ].
      now apply api_search_ok.
    + right. right. exists e. split; [reflexivity | ].
      split; [apply shown_message_spec | ].
      split; [ | split; [ | now apply api_search_threw]];
        unfold shown_message, message;
        destruct e as [ | | | st | | [ | c t]];
        try (destruct (library_message _) as [ | c t]); congruence.
  - right. left. unfold api_search. now rewrite api_search_try_guard, Hv.
Qed.

(** ** Failures of the upstream *)



Lemma format_date_cases (w : World) (v : JSValue) :
  format_date w v =
  if has_text v then
    match format_yyyy_MM_dd w v with
    | Some s => Ok s
    | None => Threw RangeError
    end
  else Threw TypeError.
Proof.
  unfold format_date, has_text.
  destruct v as [ | | b | x | s | items | fields | name]; try reflexivity;
    unfold ToPrimitive, ToString;
    match goal with
    | |- context [ToPrimitive_throws ?u] => destruct (ToPrimitive_throws u)
    end; reflexivity.
Qed.

(** X21.  A complete query whose token exchange fails is answered with
    status 500, not 400, the [error] being the message of the error of the
    exchange.  So is, after the exchange, a complete query whose [start]
    cannot be formatted: the error is the [RangeError] of [format] when
    [start] is no date, and a [TypeError] when [start] does not convert to
    a primitive.  When [start] is formatted, a [pax], [from] or [to] that
    does not convert to text gives the reply of a [TypeError], whatever
    [end] is; and when they convert, a truthy [end] that cannot be
    formatted gives the reply of its error.  In each case the reply is the
    same whatever the search endpoint would answer. *)
Theorem api_search_early_failure
        (library_message : JSError -> string) (w : World) (body : JSValue) :
  validated (query_of body) = true ->
  (forall e,
      getAccessToken w = Threw e ->
      api_search library_message w body
      = (failure_reply (shown_message library_message e),
         [PText "Search error:"; PError e]))
  /\ (forall token e,
         getAccessToken w = Ok token ->
         format_date w (query_field (query_of body) "start") = Threw e ->
         api_search library_message w body
         = (failure_reply (shown_message library_message e),
            [PText "Search error:"; PError e]))
  /\ (forall token departure,
         getAccessToken w = Ok token ->
         format_date w (query_field (query_of body) "start") = Ok departure ->
         textual_query (query_of body) = false ->
         api_search library_message w body
         = (failure_reply (shown_message library_message TypeError),
            [PText "Search error:"; PError TypeError]))
  /\ (forall token departure e,
         getAccessToken w = Ok token ->
         format_date w (query_field (query_of body) "start") = Ok departure ->
         textual_query (query_of body) = true ->
         truthy (query_field (query_of body) "end") = true ->
         format_date w (query_field (query_of body) "end") = Threw e ->
         api_search library_message w body
         = (failure_reply (shown_message library_message e),
            [PText "Search error:"; PError e]))
  /\ (forall v,
         format_date w v =
         if has_text v then
           match format_yyyy_MM_dd w v with
           | Some s => Ok s
           | None => Threw RangeError
           end
         else Threw TypeError).
Proof.
  intros Hv. destruct (validated_object _ Hv) as (fs & Hq).
  split; [ | split; [ | split; [ | split]]].
  - intros e Ht. apply api_search_threw; [exact Hv | ].
    unfold searchAmadeus. now rewrite Ht.
  - intros token e Ht Hd. apply api_search_threw; [exact Hv | ].
    rewrite Hq in *. rewrite query_field_object in Hd.
    unfold searchAmadeus. rewrite Ht. cbn [bind].
    unfold build_params. cbn [get bind]. now rewrite Hd.
  - intros token departure Ht Hd Hn. apply api_search_threw; [exact Hv | ].
    rewrite Hq in *. rewrite query_field_object in Hd.
    unfold searchAmadeus. rewrite Ht. cbn [bind].
    now rewrite (build_params_object w fs departure Hd), Hn.
  - intros token departure e Ht Hd Hn He Hr. apply api_search_threw; [exact Hv | ].
    rewrite Hq in *. rewrite !query_field_object in *.
    unfold searchAmadeus. rewrite Ht. cbn [bind].
    now rewrite (build_params_object w fs departure Hd), Hn, He, Hr.
  - apply format_date_cases.
Qed.

Lemma api_search_early_failure_witness :
  api_search sample_messages refusing_world (sample_query "cheapest")
  = (failure_reply "Request failed", [PText "Search error:"; PError (HTTPError 401)])
  /\ api_search sample_messages (dated_world sample_token sample_search_response) undated_query
     = (failure_reply "Invalid time value", [PText "Search error:"; PError RangeError])
  /\ api_search sample_messages (dated_world sample_token sample_search_response)
                opaque_pax_query
     = (failure_reply "Cannot convert object to primitive value",
        [PText "Search error:"; PError TypeError]).
Proof.
  split; [ | split].
  - exact (proj1 (api_search_early_failure sample_messages refusing_world
                    (sample_query "cheapest") eq_refl) (HTTPError 401) eq_refl).
  - exact (proj1 (proj2 (api_search_early_failure sample_messages
                           (dated_world sample_token sample_search_response) undated_query
                           eq_refl))
                 (JStr "tok") RangeError eq_refl eq_refl).
  - exact (proj1 (proj2 (proj2 (api_search_early_failure sample_messages
                                  (dated_world sample_token sample_search_response)
                                  opaque_pax_query eq_refl)))
                 (JStr "tok") "2024-06-01"%string eq_refl eq_refl eq_refl).
Defined.

(** ** A search that succeeds *)

Lemma process_response_mapped (q : JSValue) (fields : list (string * JSValue))
      (data : list JSValue) :
  nullish q = false ->
  truthy (errors_length (lookup "errors" fields)) = false ->
  lookup "data" fields = JArr data ->
  forallb well_shaped_offer data = true ->
  exists mapped,
    map_offers data = Ok mapped
    /\ List.length mapped = List.length data
    /\ process_response q (JObj fields) = Ok (local_sort (query_field q "optimize") mapped).
Proof.
  intros Hq He Hd Hw.
  destruct (mapM_idx_total map_offer data 0) as (mapped & Hm).
  { rewrite forallb_forall in Hw. apply Forall_forall. intros offer Ho n.
    apply map_offer_total. now apply Hw. }
  exists mapped. split; [exact Hm | ].
  split; [exact (proj1 (mapM_idx_nth map_offer data 0 mapped Hm)) | ].
  unfold process_response. rewrite (check_errors_length fields He).
  cbn [bind get]. rewrite Hd. cbn [array_or_empty]. unfold map_offers at 1. rewrite Hm.
  cbn [bind]. unfold query_field. destruct (get_not_nullish q "optimize" Hq) as (o & ->).
  reflexivity.
Qed.

(** X22.  End to end: for a complete query whose token exchange and
    request parameters succeed, when Amadeus answers without errors and
    with a [data] list of well-shaped offers (offers the mapping can read,
    their totals, codes, numbers and durations converting to text), the
    reply has status 200 and [{ok: true, options}], where [options] is the
    local ranking of the mapped offers: a permutation of them, one option
    per offer, and nothing is printed. *)
Theorem api_search_success
        (library_message : JSError -> string) (w : World) (body token : JSValue)
        (params : URLSearchParams) (fields : list (string * JSValue)) (data : list JSValue) :
  validated (query_of body) = true ->
  getAccessToken w = Ok token ->
  build_params w (query_of body) = Ok params ->
  request_offers w token params = Ok (JObj fields) ->
  truthy (errors_length (lookup "errors" fields)) = false ->
  lookup "data" fields = JArr data ->
  forallb well_shaped_offer data = true ->
  exists mapped options,
    map_offers data = Ok mapped
    /\ options = local_sort (query_field (query_of body) "optimize") mapped
    /\ Permutation mapped options
    /\ List.length options = List.length data
    /\ api_search library_message w body = (options_reply options, []).
Proof.
  intros Hv Ht Hp Hr He Hd Hw.
  destruct (process_response_mapped (query_of body) fields data
              (validated_not_nullish _ Hv) He Hd Hw) as (mapped & Hm & Hl & Hproc).
  exists mapped, (local_sort (query_field (query_of body) "optimize") mapped).
  assert (Hperm : Permutation mapped
                    (local_sort (query_field (query_of body) "optimize") mapped)).
  { apply local_sort_perm. eapply Forall_impl; [ | exact (map_offers_fields _ _ Hm)].
    now intros o [H _]. }
  repeat split; try assumption.
  - rewrite <- Hl. symmetry. now apply Permutation_length.
  - apply api_search_ok; [exact Hv | ].
    unfold searchAmadeus. rewrite Ht. cbn [bind]. rewrite Hp. cbn [bind].
    rewrite Hr. cbn [bind]. exact Hproc.
Qed.

Lemma api_search_success_witness :
  exists mapped options,
    map_offers sample_data = Ok mapped
    /\ options = local_sort (JStr "cheapest") mapped
    /\ Permutation mapped options
    /\ List.length options = 2%nat
    /\ api_search sample_messages (sample_world sample_token sample_search_response)
                  (sample_query "cheapest")
       = (options_reply options, []).
Proof.
  exact (api_search_success sample_messages (sample_world sample_token sample_search_response)
           (sample_query "cheapest") (JStr "tok") _ _ sample_data
           eq_refl eq_refl eq_refl eq_refl eq_refl eq_refl eq_refl).
Defined.

(** ** The earlier revision *)



